(** * The file-backed data store of teleport (lib/dataStore.js)

    A shallow embedding of [lib/dataStore.js]: the directory loader
    ([loadDir]), the three tree loaders ([loadUsers], [loadGroups],
    [loadLayers]), the reference resolver ([buildDataStore]), the load pass
    ([load]), the watch controller ([initialize]), the query functions
    ([findUser], [publicKeys], [authenticate]) and the emitters
    ([findLayer], [layerUsers], [groups]).

    Modelling conventions.
    - Asynchronous code is modelled by the sequence of invocations it makes of
      its callback ([Callback]): a function that "returns" through a callback
      yields the list of calls it makes, in order; the empty list is a load
      that never calls back.
    - The order in which file-system operations complete is not fixed by the
      program.  A directory observation lists its entries in the order in
      which their last file-system operation completes, and the arrival order
      of concurrent callbacks is given by an explicit schedule
      ([interleave]); theorems quantify over both.
    - Objects are shared by reference in the source.  Inside one store, an
      object is identified by its position in the store's own array
      ([s_users], [s_groups]); a reference ([Ref]) is such a position, or
      names an object that is in no store: one that every plain object
      inherits from [Object.prototype].  A mutation of a shared object is
      an update of the array at its position.
    - The JS objects [groups] and [users] of [buildDataStore] are plain
      objects used as dictionaries: a name that is not a property of the
      dictionary's own reads what [Object.prototype] defines under it
      ([lookup_name]).  The [members] arrays that line 252 gives to objects
      inherited from [Object.prototype] outlive a load pass; they are part
      of the state of the module ([inherited]).  A record whose file is
      named [__proto__] is kept under that name; what other names then read
      through the fields of that record is outside the model, and theorems
      that depend on it assume that there is no such record.
    - A parsed YAML document is a primitive, of which only the truthiness
      matters, or an object, seen through the fields the program reads
      ([YamlMap]): [gidNumber] a number, [publicKeys] a sequence of strings,
      [primaryGroup] any value, [groups] a sequence of any values, each
      when present and truthy, and [members] as it is.
    - [buildDataStore] can throw (line 253, on a [members] without [push]);
      nothing catches the exception, and the load pass then ends without a
      call of its callback ([load_done]). *)

From Stdlib Require Import ZArith Ascii String.
From stdpp Require Import base option list strings gmap.

Open Scope string_scope.
Open Scope list_scope.
Open Scope nat_scope.

(** ** Strings: [String.prototype.split], [Array.prototype.join] *)

Module Js.

(** [s.split(sep)] for a one-character separator: never an empty array. *)
Fixpoint split (sep : ascii) (s : string) : list string :=
  match s with
  | EmptyString => [EmptyString]
  | String ch s' =>
      if decide (ch = sep) then EmptyString :: split sep s'
      else match split sep s' with
           | tok :: toks => String ch tok :: toks
           | [] => [String ch EmptyString]
           end
  end.

(** [arr.join(sep)]. *)
Fixpoint join (sep : string) (arr : list string) : string :=
  match arr with
  | [] => ""
  | [tok] => tok
  | tok :: arr' => tok +:+ sep +:+ join sep arr'
  end.

(** [arr.slice(0, stop)] for [0 <= stop]. *)
Definition slice0 {A} (stop : nat) (arr : list A) : list A := take stop arr.

(** [s] contains the character [ch]. *)
Fixpoint contains (ch : ascii) (s : string) : bool :=
  match s with
  | EmptyString => false
  | String ch' s' => if decide (ch' = ch) then true else contains ch s'
  end.

End Js.

(** ** Errors and callbacks *)

(** The values the program passes as the error argument of a callback or
    throws. *)
Inductive JsError :=
| FsError (code path : string)            (* an error of the fs module *)
| YAMLException (reason : string)         (* thrown by yaml.safeLoad *)
| TypeError (message : string)            (* thrown by the runtime *)
| InvalidCredentialsError (message : string)
| ErrorString (message : string).         (* a bare string used as an error *)

(** One invocation of a node-style callback: [callback(err)] or
    [callback(null, value)]. *)
Inductive Callback (A : Type) :=
| CbErr (err : JsError)
| CbOk (value : A).
Arguments CbErr {A} err.
Arguments CbOk {A} value.

(** The result of running synchronous code that may throw. *)
Inductive Completion (A : Type) :=
| Throw (err : JsError)
| Return (value : A).
Arguments Throw {A} err.
Arguments Return {A} value.

(** ** fileUid *)

(** [fileUid(filename)], lines 160-165. *)
Definition fileUid (filename : string) : string :=
  let tokens := Js.split "." filename in
  if decide (length tokens = 0) then default "" (head tokens)
  else Js.join "." (Js.slice0 (length tokens - 1) tokens).


(** ** The file system, as one load pass observes it *)

(** What [fs.lstat] and, for a regular file, [fs.readFile] report for one
    directory entry. *)
Inductive EntryKind :=
| LstatFails (err : JsError)
| RegularFile (contents : Completion string)   (* the outcome of readFile *)
| Directory
| SymbolicLink
| OtherKind.                                   (* socket, FIFO, device *)

Record Entry := { e_name : string; e_kind : EntryKind }.

(** [fs.readdir(path)]: an error, or the entries of the directory. *)
Definition FileSystem : Type := string -> JsError + list Entry.

(** ** Scalars *)

(** A value as it occurs where a document names a group.  A number is
    given by its decimal form, the string [ToString] makes of it; a
    sequence or mapping is an object, given by its identity and by the
    string [ToString] makes of it.  Two values are the same ([===]) exactly
    when they are equal here ([NaN] is outside the model). *)
Inductive Scalar :=
| SStr (s : string)
| SNum (repr : string)
| SBool (b : bool)
| SNull
| SObject (identity : nat) (key : string).

#[global] Instance Scalar_eq_dec : EqDecision Scalar.
Proof. solve_decision. Defined.

(** [ToString]: the property name as which a scalar is looked up. *)
Definition scalar_key (v : Scalar) : string :=
  match v with
  | SStr s => s
  | SNum repr => repr
  | SBool true => "true"
  | SBool false => "false"
  | SNull => "null"
  | SObject _ key => key
  end.

(** ** The log *)

(** Modelled from the spec: the logging module [./logging] is an external
    sink; a call appends one entry and returns [undefined]. *)
Inductive LogEntry :=
| InfoMissingGid (filename : string)
| WarnPrimaryGroupNotFound (primaryGroup : option Scalar) (uid : option string)
| WarnGroupNotFound (gid : Scalar) (uid : string)
| DebugStore
| InfoLoaded
| DebugChanged
| ErrLoad (err : JsError)
| DebugReloaded
| WarnWatching (dir : string) (error : JsError).

Definition Log : Type := list LogEntry.

(** ** loadDir *)

Section LoadDir.
Context {S V : Type}.

(** The per-entry transform [fn(filename[, contents])]: it may throw and it
    may have effects on a state [S]. *)
Variable fn : string -> option string -> S -> S * Completion V.

(** The variables closed over by [accumulate] ([c], [result]), the state
    the transform acts on, and the calls made of [callback] so far. *)
Record Acc := {
  acc_c : Z;
  acc_result : list V;
  acc_state : S;
  acc_calls : list (Callback (list V))
}.

(** [accumulate(file[, contents])], lines 122-132. *)
Definition accumulate (file : string) (contents : option string) (a : Acc) : Acc :=
  match fn file contents (acc_state a) with
  | (s', Throw err) =>
      {| acc_c := acc_c a; acc_result := acc_result a; acc_state := s';
         acc_calls := acc_calls a ++ [CbErr err] |}
  | (s', Return v) =>
      let result' := acc_result a ++ [v] in
      let c' := (acc_c a - 1)%Z in
      {| acc_c := c'; acc_result := result'; acc_state := s';
         acc_calls := if decide (0 = c')%Z
                      then acc_calls a ++ [CbOk result'] else acc_calls a |}
  end.

Definition fail (err : JsError) (a : Acc) : Acc :=
  {| acc_c := acc_c a; acc_result := acc_result a; acc_state := acc_state a;
     acc_calls := acc_calls a ++ [CbErr err] |}.

(** The [fs.lstat] callback for one entry, lines 136-152. *)
Definition on_entry (a : Acc) (e : Entry) : Acc :=
  match e_kind e with
  | LstatFails err => fail err a
  | RegularFile (Throw err) => fail err a
  | RegularFile (Return contents) => accumulate (e_name e) (Some contents) a
  | Directory => accumulate (e_name e) None a
  | SymbolicLink => accumulate (e_name e) None a
  | OtherKind => a
  end.

(** [loadDir(dir, fn, callback)], lines 113-155: the state after the
    transform calls and the calls made of [callback]. *)
Definition loadDir (fs : FileSystem) (dir : string) (s : S)
  : S * list (Callback (list V)) :=
  match fs dir with
  | inl err => (s, [CbErr err])
  | inr files =>
      let a := foldl on_entry
                 {| acc_c := Z.of_nat (length files); acc_result := [];
                    acc_state := s; acc_calls := [] |} files in
      (acc_state a, acc_calls a)
  end.
End LoadDir.

Arguments Acc S V : clear implicits.

(** ** Records *)

(** The [members] field of a group document: absent; present and falsy
    ([null], [0], ...); an array; or another truthy value, which has no
    [push]. *)
Inductive DocMembers :=
| DAbsent
| DFalsy
| DArray (items : list Scalar)
| DOther.

(** A parsed YAML mapping (or sequence, which is an object too), through
    the fields the program reads. *)
Record YamlMap := {
  y_gidNumber : option Z;
  y_publicKeys : option (list string);
  y_primaryGroup : option Scalar;
  y_groups : option (list Scalar);
  y_members : DocMembers
}.

(** A document that is not [null] or [undefined]: a primitive (a string, a
    number, a boolean), of which only the truthiness matters, or an
    object. *)
Inductive Doc :=
| DocPrim (truthy : bool)
| DocMap (fields : YamlMap).

(** An element of an array of users: a primitive, or an object. *)
Inductive Value (A : Type) :=
| Prim (truthy : bool)
| Rec (r : A).
Arguments Prim {A} truthy.
Arguments Rec {A} r.

Definition truthy_value {A} (v : Value A) : bool :=
  match v with Prim truthy => truthy | Rec _ => true end.

(** The object behind a value, when it is one. *)
Definition record {A} (v : Value A) : option A :=
  match v with Prim _ => None | Rec r => Some r end.

(** A user object as [loadUsers] produces it: references still
    identifiers. *)
Record RawUser := {
  ru_uid : string;
  ru_cn : string;
  ru_publicKeys : list string;
  ru_primaryGroup : option Scalar;
  ru_groups : option (list Scalar)
}.

(** The [members] property of a group object: as in the document, and,
    for an array, the items of the document followed by the users pushed
    onto it, given by their positions in the store's users. *)
Inductive Members :=
| MAbsent
| MFalsy
| MArray (items : list Scalar) (pushed : list nat)
| MOther.

Definition doc_members (m : DocMembers) : Members :=
  match m with
  | DAbsent => MAbsent
  | DFalsy => MFalsy
  | DArray items => MArray items []
  | DOther => MOther
  end.

(** A group object: the parsed document itself, with [cn] set. *)
Record Group := {
  g_cn : string;
  g_gidNumber : Z;
  g_members : Members
}.

(** A layer as [loadLayers] produces it. *)
Record RawLayer := { rl_id : string; rl_users : option (list string) }.

(** What a name resolves to in one of the dictionaries of
    [buildDataStore]: an object of the store, given by its position in the
    store's own array, or an object that every plain object inherits from
    [Object.prototype]: one of its built-in functions, [Object.prototype]
    itself (under the name [__proto__]), or the array [members] that
    [Object.prototype] holds once line 252 has run on it. *)
Inductive Ref :=
| Own (i : nat)
| Builtin (name : string)
| ObjectPrototype
| SharedMembers.

#[global] Instance Ref_eq_dec : EqDecision Ref.
Proof. solve_decision. Defined.

(** [user.primaryGroup] after resolution: what the name resolved to, or the
    identifier left as it was. *)
Inductive PrimaryGroup :=
| PGRef (group : Ref)
| PGRaw (id : option Scalar).

Record User := {
  u_uid : string;
  u_cn : string;
  u_publicKeys : list string;
  u_primaryGroup : PrimaryGroup;
  u_groups : list Ref
}.

Record Layer := { l_id : string; l_users : list Ref }.

Record RawStore := {
  r_dir : string;
  r_users : list (Value RawUser);
  r_groups : list Group;
  r_layers : list RawLayer
}.

Record Store := {
  s_dir : string;
  s_users : list (Value User);
  s_groups : list Group;
  s_layers : list Layer
}.

(** [u.compact] on an array whose falsy elements are [null]/[undefined]. *)
Definition compact {A} (arr : list (option A)) : list A := omap id arr.

(** [u.compact] on an array of users: the falsy primitives are dropped. *)
Definition compact_values {A} (arr : list (Value A)) : list (Value A) :=
  filter (fun v => truthy_value v = true) arr.

(** [u.uniq]: keeps the first occurrence of each element. *)
Fixpoint uniq_from (seen : list Scalar) (arr : list Scalar) : list Scalar :=
  match arr with
  | [] => []
  | x :: arr' =>
      if decide (x ∈ seen) then uniq_from seen arr'
      else x :: uniq_from (seen ++ [x]) arr'
  end.

Definition uniq (arr : list Scalar) : list Scalar := uniq_from [] arr.

(** The property name an identifier is used as: an absent field reads
    [undefined], which names the property "undefined". *)
Definition prop_key (id : option Scalar) : string :=
  from_option scalar_key "undefined" id.

(** ** The three tree loaders *)

Section Loaders.
(** [yaml.safeLoad]: throws on malformed content, returns [undefined] or
    [null] for an empty document ([None]), and a primitive or an object
    otherwise.  The argument is [None] when the transform received no
    contents. *)
Variable safeLoad : option string -> Completion (option Doc).

Variable fs : FileSystem.
Variable dir : string.

(** The transform of [loadUsers], lines 172-177.  Setting a property of
    [null] or [undefined] throws; setting one of a primitive does nothing
    (the module is not in strict mode), so a primitive is returned as it
    is. *)
Definition userTransform (filename : string) (contents : option string)
  : Completion (Value RawUser) :=
  match safeLoad contents with
  | Throw err => Throw err
  | Return None => Throw (TypeError "Cannot set property 'uid'")
  | Return (Some (DocPrim truthy)) => Return (Prim truthy)
  | Return (Some (DocMap user)) =>
      Return (Rec {| ru_uid := fileUid filename;
                     ru_cn := fileUid filename;
                     ru_publicKeys := default [] (y_publicKeys user);
                     ru_primaryGroup := y_primaryGroup user;
                     ru_groups := y_groups user |})
  end.

(** [loadUsers(callback)], lines 171-178. *)
Definition loadUsers : list (Callback (list (Value RawUser))) :=
  snd (loadDir (fun filename contents (s : unit) =>
                  (s, userTransform filename contents))
         fs (Js.join "/" [dir; "users"]) tt).

(** The transform of [loadGroups], lines 185-194; [None] is the skip
    marker ([null], or the [undefined] returned by [log.info]).  A falsy
    primitive is skipped like an empty document; a truthy one has no
    [gidNumber]. *)
Definition groupTransform (filename : string) (contents : option string)
    (log : Log) : Log * Completion (option Group) :=
  match safeLoad contents with
  | Throw err => (log, Throw err)
  | Return None => (log, Return None)
  | Return (Some (DocPrim false)) => (log, Return None)
  | Return (Some (DocPrim true)) => (log ++ [InfoMissingGid filename], Return None)
  | Return (Some (DocMap group)) =>
      match y_gidNumber group with
      | Some gid =>
          if decide (gid = 0%Z)
          then (log ++ [InfoMissingGid filename], Return None)
          else (log, Return (Some {| g_cn := fileUid filename;
                                     g_gidNumber := gid;
                                     g_members := doc_members (y_members group) |}))
      | None => (log ++ [InfoMissingGid filename], Return None)
      end
  end.

(** [loadGroups(callback)], lines 184-195. *)
Definition loadGroups (log : Log)
  : Log * list (Callback (list (option Group))) :=
  loadDir groupTransform fs (Js.join "/" [dir; "groups"]) log.

(** [layer.users.push(uid)] on the layer at position [i]. *)
Definition push_layer_user (uid : string) (layer : RawLayer) : RawLayer :=
  {| rl_id := rl_id layer;
     rl_users := Some (default [] (rl_users layer) ++ [uid]) |}.

(** The transform of the membership scan of layer [i], lines 214-217: it
    pushes onto the layer's [users] and returns [undefined]. *)
Definition memberTransform (i : nat) (linkname : string) (_ : option string)
    (layers : list RawLayer) : list RawLayer * Completion unit :=
  (alter (push_layer_user (fileUid linkname)) i layers, Return tt).

(** The [forEach] of lines 212-223: [layer.users = []] and the membership
    scan of each layer, over the shared layer objects; the calls each scan
    makes of its callback are kept per layer. *)
Definition scan_layer (st : list RawLayer * list (list (Callback (list unit))))
    (i : nat) : list RawLayer * list (list (Callback (list unit))) :=
  let '(layers, traces) := st in
  match layers !! i with
  | None => (layers, traces)
  | Some layer =>
      let layers1 := <[i := {| rl_id := rl_id layer; rl_users := Some [] |}]> layers in
      let '(layers2, calls) :=
        loadDir (memberTransform i) fs
          (Js.join "/" [dir; "layers"; rl_id layer]) layers1 in
      (layers2, traces ++ [calls])
  end.
End Loaders.

(** ** Concurrent callbacks *)

(** The arrival order of the callbacks of concurrent operations: [sched]
    names, step by step, the operation whose next call arrives; calls left
    over when the schedule is exhausted arrive after it, operation by
    operation. *)
Fixpoint interleave {A} (sched : list nat) (traces : list (list A))
  : list (nat * A) :=
  match sched with
  | [] => concat (imap (fun i trace => pair i <$> trace) traces)
  | i :: sched' =>
      match traces !! i with
      | Some (x :: trace) => (i, x) :: interleave sched' (<[i := trace]> traces)
      | _ => interleave sched' traces
      end
  end.

(** [evs] is an arrival order of the calls [traces]: each call is the next
    call of one of the operations, and no call is left. *)
Inductive arrival {A} : list (list A) -> list (nat * A) -> Prop :=
| arrival_nil traces :
    Forall (fun trace => trace = []) traces -> arrival traces []
| arrival_cons traces i x trace evs :
    traces !! i = Some (x :: trace) ->
    arrival (<[i := trace]> traces) evs ->
    arrival traces ((i, x) :: evs).

(** [async.parallel(tasks, callback)] for [n] tasks, after the library's
    documentation: the final callback is called with the first error a task
    reports, or with the array of results once every task has completed, and
    is not called again. *)
Fixpoint parallel {V} (n : nat) (results : list (option V)) (completed : nat)
    (evs : list (nat * Callback V)) : list (Callback (list (option V))) :=
  match evs with
  | [] => []
  | (_, CbErr err) :: _ => [CbErr err]
  | (i, CbOk v) :: evs' =>
      let results' := <[i := Some v]> results in
      if decide (n ≤ Datatypes.S completed)%nat then [CbOk results']
      else parallel n results' (Datatypes.S completed) evs'
  end.

Definition cb_map {A B} (f : A -> B) (cb : Callback A) : Callback B :=
  match cb with CbErr err => CbErr err | CbOk v => CbOk (f v) end.

Section LoadLayers.
Variable fs : FileSystem.
Variable dir : string.

(** The callback of each membership scan, lines 217-222, over the calls of
    all scans in arrival order; [c] is the countdown. *)
Fixpoint join_scans (layers : list RawLayer) (c : Z)
    (evs : list (nat * Callback (list unit))) : list (Callback (list RawLayer)) :=
  match evs with
  | [] => []
  | (_, CbErr err) :: evs' => CbErr err :: join_scans layers c evs'
  | (_, CbOk _) :: evs' =>
      let c' := (c - 1)%Z in
      if decide (0 = c')%Z then CbOk layers :: join_scans layers c' evs'
      else join_scans layers c' evs'
  end.

(** The callback of the listing of [layers/], lines 208-224. *)
Definition on_layers (sched : list nat) (ev : Callback (list RawLayer))
  : list (Callback (list RawLayer)) :=
  match ev with
  | CbErr err => [CbErr err]
  | CbOk layers =>
      let '(layers', traces) :=
        foldl (scan_layer fs dir) (layers, []) (seq 0 (length layers)) in
      join_scans layers' (Z.of_nat (length layers)) (interleave sched traces)
  end.

(** The stubs of [layers/], lines 204-208. *)
Definition layerStubs : list (Callback (list RawLayer)) :=
  snd (loadDir (fun dirname (_ : option string) (s : unit) =>
                  (s, Return {| rl_id := dirname; rl_users := None |}))
         fs (Js.join "/" [dir; "layers"]) tt).

(** [loadLayers(callback)], lines 201-225. *)
Definition loadLayers (sched : list nat) : list (Callback (list RawLayer)) :=
  flat_map (on_layers sched) layerStubs.
End LoadLayers.

(** ** buildDataStore *)

(** The dictionaries [groups] and [users] of line 231 are plain objects:
    a name that is not a property of the dictionary's own is looked up on
    [Object.prototype].  These are the names [Object.prototype] defines,
    besides [__proto__]. *)
Definition builtin_names : list string :=
  ["constructor"; "toString"; "toLocaleString"; "valueOf"; "hasOwnProperty";
   "isPrototypeOf"; "propertyIsEnumerable"; "__defineGetter__";
   "__defineSetter__"; "__lookupGetter__"; "__lookupSetter__"].

(** The [members] arrays that objects inherited from [Object.prototype]
    have got from line 252.  A name is present when the object of that
    name has a [members] array of its own ([__proto__] stands for
    [Object.prototype] itself, whose [members] every object inherits); the
    array is given by the users of the store being built that are on it. *)
Abbreviation Inherited := (gmap string (list nat)).

(** Between two load passes: the arrays stay, and what is on them are users
    of an earlier store, none of the store to be built. *)
Definition outlived (inh : Inherited) : Inherited :=
  (fun _ : list nat => []) <$> inh.

(** [groups[group.cn] = group] for each group, lines 232-234: the own
    properties of the dictionary map a name to the position of the group
    object; the last write wins.  (A group named [__proto__] becomes the
    prototype of the dictionary and is what the name [__proto__] reads: it
    is kept under that name.  The names that then resolve through the
    properties of that group are outside the model.) *)
Definition index_groups (groups : list Group) : gmap string nat :=
  foldl (fun (m : gmap string nat) '(i, group) => <[g_cn group := i]> m)
    ∅ (imap pair groups).

(** [user.uid] read as a property name: a primitive has no [uid]. *)
Definition user_key (user : Value RawUser) : string :=
  match user with
  | Rec user => ru_uid user
  | Prim _ => "undefined"
  end.

(** [users[user.uid] = user] for each user, lines 235-237. *)
Definition index_users (users : list (Value RawUser)) : gmap string nat :=
  foldl (fun (m : gmap string nat) '(i, user) => <[user_key user := i]> m)
    ∅ (imap pair users).

(** [dictionary[name]]: the own property, or else what the name reads on
    [Object.prototype]; [None] is [undefined]. *)
Definition lookup_name (inh : Inherited) (own : gmap string nat) (name : string)
  : option Ref :=
  match own !! name with
  | Some i => Some (Own i)
  | None =>
      if decide (name = "__proto__") then Some ObjectPrototype
      else if decide (name ∈ builtin_names) then Some (Builtin name)
      else if decide (name = "members")
           then match inh !! "__proto__" with
                | Some _ => Some SharedMembers
                | None => None
                end
           else None
  end.

Definition set_members (members : Members) (group : Group) : Group :=
  {| g_cn := g_cn group; g_gidNumber := g_gidNumber group; g_members := members |}.

(** Lines 251-253 on the object that [Object.prototype] holds under [name]:
    the object reads its own [members], or else the one of
    [Object.prototype]; it gets an array of its own when it reads none. *)
Definition push_inherited (user : nat) (name : string) (inh : Inherited)
  : Inherited :=
  match inh !! name with
  | Some own => <[name := own ++ [user]]> inh
  | None =>
      match inh !! "__proto__" with
      | Some shared => <["__proto__" := shared ++ [user]]> inh
      | None => <[name := [user]]> inh
      end
  end.

(** [if (!group.members) group.members = []; group.members.push(user)],
    lines 251-253, for the user at position [user] and the object [r].  A
    group reads its own [members] when it has the property, and else the
    one of [Object.prototype]; a truthy [members] that is no array has no
    [push]. *)
Definition push_member (user : nat) (r : Ref) (heap : list Group)
    (inh : Inherited) : Completion (list Group * Inherited) :=
  match r with
  | Own g =>
      match heap !! g with
      | None => Return (heap, inh)
      | Some group =>
          match g_members group with
          | MArray items pushed =>
              Return (<[g := set_members (MArray items (pushed ++ [user])) group]> heap,
                      inh)
          | MOther => Throw (TypeError "group.members.push is not a function")
          | MFalsy => Return (<[g := set_members (MArray [] [user]) group]> heap, inh)
          | MAbsent =>
              match inh !! "__proto__" with
              | Some shared => Return (heap, <["__proto__" := shared ++ [user]]> inh)
              | None => Return (<[g := set_members (MArray [] [user]) group]> heap, inh)
              end
          end
      end
  | Builtin name => Return (heap, push_inherited user name inh)
  | ObjectPrototype | SharedMembers =>
      Return (heap, push_inherited user "__proto__" inh)
  end.

(** What the loops of [buildDataStore] act on: the group objects, the log,
    the inherited objects, and the exception that ended the loops, if
    any. *)
Record Build := {
  b_heap : list Group;
  b_log : Log;
  b_inherited : Inherited;
  b_thrown : option JsError
}.

(** The function mapped over [user.groups], lines 246-256, with the array
    of results built so far. *)
Definition resolve_gid (groups : gmap string nat) (user : nat) (uid : string)
    (st : Build * list (option Ref)) (gid : Scalar)
  : Build * list (option Ref) :=
  let '(b, out) := st in
  match b_thrown b with
  | Some _ => st
  | None =>
      match lookup_name (b_inherited b) groups (scalar_key gid) with
      | None =>
          ({| b_heap := b_heap b; b_log := b_log b ++ [WarnGroupNotFound gid uid];
              b_inherited := b_inherited b; b_thrown := None |}, out ++ [None])
      | Some r =>
          match push_member user r (b_heap b) (b_inherited b) with
          | Throw err =>
              ({| b_heap := b_heap b; b_log := b_log b;
                  b_inherited := b_inherited b; b_thrown := Some err |}, out)
          | Return (heap, inh) =>
              ({| b_heap := heap; b_log := b_log b; b_inherited := inh;
                  b_thrown := None |}, out ++ [Some r])
          end
      end
  end.

(** Lines 241-245: the primary group, and the log after it. *)
Definition resolve_primary (groups : gmap string nat) (id : option Scalar)
    (uid : option string) (b : Build) : PrimaryGroup * Build :=
  match lookup_name (b_inherited b) groups (prop_key id) with
  | Some r => (PGRef r, b)
  | None =>
      (PGRaw id,
       {| b_heap := b_heap b;
          b_log := b_log b ++ [WarnPrimaryGroupNotFound id uid];
          b_inherited := b_inherited b; b_thrown := b_thrown b |})
  end.

(** The body of the loop over users, lines 240-257, for the user at
    position [length fixed].  A primitive has no [primaryGroup], [uid] or
    [groups], and the assignments to it do nothing. *)
Definition fix_user (groups : gmap string nat)
    (st : Build * list (Value User)) (user : Value RawUser)
  : Build * list (Value User) :=
  let '(b, fixed) := st in
  match b_thrown b with
  | Some _ => st
  | None =>
      match user with
      | Prim truthy =>
          ((resolve_primary groups None None b).2, fixed ++ [Prim truthy])
      | Rec user =>
          let '(primaryGroup, b1) :=
            resolve_primary groups (ru_primaryGroup user) (Some (ru_uid user)) b in
          let '(b2, out) :=
            foldl (resolve_gid groups (length fixed) (ru_uid user)) (b1, [])
              (uniq (default [] (ru_groups user))) in
          (b2,
           fixed ++ [Rec {| u_uid := ru_uid user; u_cn := ru_cn user;
                            u_publicKeys := ru_publicKeys user;
                            u_primaryGroup := primaryGroup;
                            u_groups := compact out |}])
      end
  end.

(** [users[uid]], line 261, as [u.compact] keeps it: [None] is a value
    that is falsy, [undefined] or a falsy primitive among the users. *)
Definition read_user (inh : Inherited) (own : gmap string nat)
    (users : list (Value RawUser)) (uid : string) : option Ref :=
  match lookup_name inh own uid with
  | Some (Own i) =>
      match users !! i with
      | Some (Prim false) => None
      | _ => Some (Own i)
      end
  | r => r
  end.

(** The loop over layers, lines 259-263. *)
Definition fix_layer (inh : Inherited) (own : gmap string nat)
    (users : list (Value RawUser)) (layer : RawLayer) : Layer :=
  {| l_id := rl_id layer;
     l_users := compact (read_user inh own users
                           <$> default [] (rl_users layer)) |}.

(** What a call of [buildDataStore] leaves: the store it returns or the
    exception it throws, the log, and the inherited objects. *)
Record Built := {
  built_store : Completion Store;
  built_log : Log;
  built_inherited : Inherited
}.

(** [buildDataStore(store)], lines 230-266. *)
Definition buildDataStore (inh : Inherited) (store : RawStore) (log : Log)
  : Built :=
  let groups := index_groups (r_groups store) in
  let users := index_users (r_users store) in
  let '(b, fixed) :=
    foldl (fix_user groups)
      ({| b_heap := r_groups store; b_log := log; b_inherited := inh;
          b_thrown := None |}, []) (r_users store) in
  {| built_store :=
       match b_thrown b with
       | Some err => Throw err
       | None =>
           Return {| s_dir := r_dir store; s_users := fixed; s_groups := b_heap b;
                     s_layers := fix_layer (b_inherited b) users (r_users store)
                                   <$> r_layers store |}
       end;
     built_log := b_log b;
     built_inherited := b_inherited b |}.

(** ** load *)

(** The module variable [store], the log, and the inherited objects. *)
Record Globals := { store : option Store; logged : Log; inherited : Inherited }.

(** The results of the three tasks given to [async.parallel]. *)
Inductive TaskResult :=
| GroupsResult (groups : list (option Group))
| UsersResult (users : list (Value RawUser))
| LayersResult (layers : list RawLayer).

Definition result_groups (r : option (option TaskResult)) : list (option Group) :=
  match r with Some (Some (GroupsResult groups)) => groups | _ => [] end.

Definition result_users (r : option (option TaskResult)) : list (Value RawUser) :=
  match r with Some (Some (UsersResult users)) => users | _ => [] end.

Definition result_layers (r : option (option TaskResult)) : list RawLayer :=
  match r with Some (Some (LayersResult layers)) => layers | _ => [] end.

(** The arrival orders one load pass leaves open: of the callbacks of the
    membership scans, and of the callbacks of the three tasks. *)
Record Schedule := { sched_scans : list nat; sched_tasks : list nat }.

(** The argument of [buildDataStore], lines 274-279.  ([compact] leaves the
    array of layers as it is: its elements are objects.) *)
Definition raw_store (dir : string) (result : list (option TaskResult)) : RawStore :=
  {| r_dir := dir;
     r_users := compact_values (result_users (result !! 1));
     r_groups := compact (result_groups (result !! 0));
     r_layers := result_layers (result !! 2) |}.

Section Load.
Variable safeLoad : option string -> Completion (option Doc).

(** The final callback of [async.parallel], lines 271-282.  An exception
    of [buildDataStore] leaves the callback before [store] is assigned and
    before [callback] is called; nothing in the module catches it. *)
Definition load_done (dir : string) (st : Globals * list (Callback Store))
    (ev : Callback (list (option TaskResult))) : Globals * list (Callback Store) :=
  let '(g, calls) := st in
  match ev with
  | CbErr err => (g, calls ++ [CbErr err])
  | CbOk result =>
      let b := buildDataStore (outlived (inherited g)) (raw_store dir result)
                 (logged g) in
      match built_store b with
      | Throw _ =>
          ({| store := store g; logged := built_log b;
              inherited := built_inherited b |}, calls)
      | Return built =>
          ({| store := Some built; logged := built_log b ++ [DebugStore];
              inherited := built_inherited b |},
           calls ++ [CbOk built])
      end
  end.

(** The calls the three tasks make of their callbacks, and the log after
    them. *)
Definition load_tasks (dir : string) (fs : FileSystem) (sched : Schedule)
    (log : Log) : Log * list (list (Callback TaskResult)) :=
  let '(log', groups) := loadGroups safeLoad fs dir log in
  (log', [ cb_map GroupsResult <$> groups;
           cb_map UsersResult <$> loadUsers safeLoad fs dir;
           cb_map LayersResult <$> loadLayers fs dir (sched_scans sched) ]).

(** [load(dir, callback)], lines 103-283: the globals after the pass and the
    calls made of [callback]. *)
Definition load (dir : string) (fs : FileSystem) (sched : Schedule)
    (g : Globals) : Globals * list (Callback Store) :=
  let '(log, traces) := load_tasks dir fs sched (logged g) in
  foldl (load_done dir)
    ({| store := store g; logged := log; inherited := inherited g |}, [])
    (parallel 3 [None; None; None] 0 (interleave (sched_tasks sched) traces)).

(** ** initialize and the watcher *)

(** One call of [initialize] that started a watch: its directory and its
    local variable [ready]. *)
Record Watcher := { w_dir : string; w_ready : bool }.

Record Controller := { globals : Globals; watchers : list Watcher }.

(** A call made of the callback given to [initialize]: [callback(err)] or
    [callback(null)]. *)
Definition Reply : Type := option JsError.

(** [initialize(dir, callback)], lines 291-318, up to the registration of
    the handlers. *)
Definition initialize (dir : string) (ctl : Controller) : Controller * list Reply :=
  match store (globals ctl) with
  | Some _ => (ctl, [Some (ErrorString "data store is already initialized")])
  | None =>
      ({| globals := globals ctl;
          watchers := watchers ctl ++ [{| w_dir := dir; w_ready := false |}] |}, [])
  end.

(** The callback given to [load] by the ['ready'] handler, lines 301-307. *)
Definition ready_loaded (w : nat) (st : Controller * list Reply)
    (ev : Callback Store) : Controller * list Reply :=
  let '(ctl, replies) := st in
  match ev with
  | CbErr err => (ctl, replies ++ [Some err])
  | CbOk _ =>
      ({| globals := {| store := store (globals ctl);
                        logged := logged (globals ctl) ++ [InfoLoaded];
                        inherited := inherited (globals ctl) |};
          watchers := alter (fun watcher => {| w_dir := w_dir watcher; w_ready := true |})
                        w (watchers ctl) |},
       replies ++ [None])
  end.

(** The ['ready'] handler of watcher [w], lines 300-308, with the load pass
    it starts. *)
Definition on_ready (w : nat) (fs : FileSystem) (sched : Schedule)
    (ctl : Controller) : Controller * list Reply :=
  match watchers ctl !! w with
  | None => (ctl, [])
  | Some watcher =>
      let '(g, calls) := load (w_dir watcher) fs sched (globals ctl) in
      foldl (ready_loaded w) ({| globals := g; watchers := watchers ctl |}, []) calls
  end.

(** The callback given to [load] by the ['all'] handler, lines 312-316. *)
Definition all_loaded (g : Globals) (ev : Callback Store) : Globals :=
  match ev with
  | CbErr err => {| store := store g; logged := logged g ++ [ErrLoad err; DebugReloaded];
                    inherited := inherited g |}
  | CbOk _ => {| store := store g; logged := logged g ++ [DebugReloaded];
                 inherited := inherited g |}
  end.

(** The globals when the ['all'] handler starts its load pass: the change
    has been logged, line 311. *)
Definition reload_globals (ctl : Controller) : Globals :=
  {| store := store (globals ctl); logged := logged (globals ctl) ++ [DebugChanged];
     inherited := inherited (globals ctl) |}.

(** The ['all'] handler of watcher [w], lines 308-317, with the load pass it
    starts. *)
Definition on_all (w : nat) (fs : FileSystem) (sched : Schedule)
    (ctl : Controller) : Controller * list Reply :=
  match watchers ctl !! w with
  | None => (ctl, [])
  | Some watcher =>
      if negb (w_ready watcher) then (ctl, [])
      else
        let '(g, calls) := load (w_dir watcher) fs sched (reload_globals ctl) in
        ({| globals := foldl all_loaded g calls; watchers := watchers ctl |}, [])
  end.

(** The ['error'] handler of watcher [w], lines 298-300. *)
Definition on_error (w : nat) (error : JsError) (ctl : Controller)
  : Controller * list Reply :=
  match watchers ctl !! w with
  | None => (ctl, [])
  | Some watcher =>
      ({| globals := {| store := store (globals ctl);
                        logged := logged (globals ctl)
                                    ++ [WarnWatching (w_dir watcher) error];
                        inherited := inherited (globals ctl) |};
          watchers := watchers ctl |}, [])
  end.

(** What happens to the module: a call of [initialize], or an event of a
    watcher, together with the file system that the load pass it starts
    sees. *)
Inductive Event :=
| Initialize (dir : string)
| WatchError (w : nat) (error : JsError)
| WatchReady (w : nat) (fs : FileSystem) (sched : Schedule)
| WatchAll (w : nat) (fs : FileSystem) (sched : Schedule).

Definition step (ctl : Controller) (ev : Event) : Controller * list Reply :=
  match ev with
  | Initialize dir => initialize dir ctl
  | WatchError w error => on_error w error ctl
  | WatchReady w fs sched => on_ready w fs sched ctl
  | WatchAll w fs sched => on_all w fs sched ctl
  end.

(** The module after a sequence of events, and the replies made. *)
Definition run (ctl : Controller) (evs : list Event) : Controller * list Reply :=
  foldl (fun '(ctl, replies) ev =>
           let '(ctl', replies') := step ctl ev in (ctl', replies ++ replies'))
    (ctl, []) evs.
End Load.

(** The module as it is loaded: [store] is [undefined], nothing watches,
    and [Object.prototype] is as the runtime made it. *)
Definition fresh : Controller :=
  {| globals := {| store := None; logged := []; inherited := ∅ |}; watchers := [] |}.

(** ** Queries *)

(** The predicate of line 27 on an element of [store.users]: a primitive
    has no [uid]. *)
Definition has_uid (id : string) (user : Value User) : bool :=
  match user with
  | Rec user => bool_decide (u_uid user = id)
  | Prim _ => false
  end.

(** [findUser(id)], lines 25-29: reading [store.users] throws while [store]
    is [undefined].  What is found is an object: the predicate holds of no
    primitive. *)
Definition findUser (g : Globals) (id : string) : Completion (option User) :=
  match store g with
  | None => Throw (TypeError "Cannot read property 'users' of undefined")
  | Some s => Return (List.find (has_uid id) (s_users s) ≫= record)
  end.

(** [publicKeys(uid)], lines 38-44; [Return None] is [null]. *)
Definition publicKeys (g : Globals) (uid : string) : Completion (option (list string)) :=
  match findUser g uid with
  | Throw err => Throw err
  | Return None => Return None
  | Return (Some user) => Return (Some (u_publicKeys user))
  end.

Section Authenticate.
(** [String.prototype.toUpperCase]. *)
Variable toUpperCase : string -> string.

(** [process.env]. *)
Variable env : gmap string string.

(** A string is truthy unless it is empty. *)
Definition truthy (s : string) : bool := negb (bool_decide (s = "")).

(** [authenticate(layer, credential, callback)], lines 51-57. *)
Definition authenticate (layer credential : string) : list (Callback string) :=
  let password := env !! ("LDAP_LAYER_" +:+ toUpperCase layer +:+ "_PASSWORD") in
  match password with
  | Some pw =>
      if truthy pw && bool_decide (credential = pw) then [CbOk pw]
      else [CbErr (InvalidCredentialsError ("Invalid login for layer " +:+ layer))]
  | None => [CbErr (InvalidCredentialsError ("Invalid login for layer " +:+ layer))]
  end.
End Authenticate.

(** ** The emitters *)

(** [findLayer(id)], lines 19-23. *)
Definition findLayer (g : Globals) (id : string) : Completion (option Layer) :=
  match store g with
  | None => Throw (TypeError "Cannot read property 'layers' of undefined")
  | Some s => Return (List.find (fun layer => bool_decide (l_id layer = id)) (s_layers s))
  end.

(** An event of the emitter returned by [layerUsers] or [groups], with the
    object passed: what an element of [layer.users] refers to, or a group
    by its position in the store. *)
Inductive Emitted :=
| EmitUser (user : Ref)
| EmitGroup (group : nat)
| EmitEnd.

(** [layerUsers(layerId)], lines 65-78: the events emitted by the function
    passed to [process.nextTick], which reads the globals of that moment; it
    throws while [store] is [undefined]. *)
Definition layerUsers (g : Globals) (layerId : string) : Completion (list Emitted) :=
  match findLayer g layerId with
  | Throw err => Throw err
  | Return None => Return [EmitEnd]
  | Return (Some layer) => Return ((EmitUser <$> l_users layer) ++ [EmitEnd])
  end.

(** [groups()], lines 86-95: likewise. *)
Definition groups (g : Globals) : Completion (list Emitted) :=
  match store g with
  | None => Throw (TypeError "Cannot read property 'groups' of undefined")
  | Some s => Return ((EmitGroup <$> seq 0 (length (s_groups s))) ++ [EmitEnd])
  end.

(** * Statements *)

(** ** Counting the successful calls of a callback *)

Fixpoint count_ok {A} (calls : list (Callback A)) : nat :=
  match calls with
  | [] => 0
  | CbOk _ :: calls' => Datatypes.S (count_ok calls')
  | CbErr _ :: calls' => count_ok calls'
  end.

Fixpoint count_err {A} (calls : list (Callback A)) : nat :=
  match calls with
  | [] => 0
  | CbErr _ :: calls' => Datatypes.S (count_err calls')
  | CbOk _ :: calls' => count_err calls'
  end.

(** ** Outcomes of a directory load *)

(** Entry [e] makes the load fail with [err]: its kind cannot be read, its
    content cannot be read, or the transform throws on it. *)
Definition entry_fails {S V : Type}
    (fn : string -> option string -> S -> S * Completion V)
    (e : Entry) (err : JsError) : Prop :=
  match e_kind e with
  | LstatFails err' => err' = err
  | RegularFile (Throw err') => err' = err
  | RegularFile (Return contents) =>
      ∀ s, (fn (e_name e) (Some contents) s).2 = Throw err
  | Directory | SymbolicLink => ∀ s, (fn (e_name e) None s).2 = Throw err
  | OtherKind => False
  end.

(** The contents argument with which an entry reaches [accumulate]. *)
Definition entry_args (e : Entry) : option (option string) :=
  match e_kind e with
  | RegularFile (Return contents) => Some (Some contents)
  | Directory | SymbolicLink => Some None
  | _ => None
  end.

(** The transform returns [v] for entry [e], in some state. *)
Definition entry_yields {S V : Type}
    (fn : string -> option string -> S -> S * Completion V)
    (e : Entry) (v : V) : Prop :=
  ∃ args s s', entry_args e = Some args ∧ fn (e_name e) args s = (s', Return v).

(** A listing that fails, or an entry that fails, makes the load fail. *)
Definition load_fails {S V : Type}
    (fn : string -> option string -> S -> S * Completion V)
    (fs : FileSystem) (dir : string) (err : JsError) : Prop :=
  fs dir = inl err ∨
  ∃ files e, fs dir = inr files ∧ e ∈ files ∧ entry_fails fn e err.

(** The transform goes through the entries [es] in order, from state [s] to
    state [s'], each call in the state the previous call left, and returns
    the values [vals]. *)
Inductive threads {S V : Type}
    (fn : string -> option string -> S -> S * Completion V)
  : S -> list Entry -> list V -> S -> Prop :=
| threads_nil s : threads fn s [] [] s
| threads_cons s e args s' v es vals s'' :
    entry_args e = Some args ->
    fn (e_name e) args s = (s', Return v) ->
    threads fn s' es vals s'' ->
    threads fn s (e :: es) (v :: vals) s''.

(** ** Causes of errors *)

(** Entry [e] has the error [err] on the way to the transform: its kind or
    its content cannot be read. *)
Definition entry_io_error (e : Entry) (err : JsError) : Prop :=
  e_kind e = LstatFails err ∨ e_kind e = RegularFile (Throw err).

(** The transform throws [err] for entry [e], in some state. *)
Definition entry_throws {S V : Type}
    (fn : string -> option string -> S -> S * Completion V)
    (e : Entry) (err : JsError) : Prop :=
  ∃ args s, entry_args e = Some args ∧ (fn (e_name e) args s).2 = Throw err.

(** [err] is an error of the file system: of the listing of some directory,
    or of reading the kind or the content of some entry. *)
Definition fs_error (fs : FileSystem) (err : JsError) : Prop :=
  (∃ path, fs path = inl err) ∨
  (∃ path files e, fs path = inr files ∧ e ∈ files ∧ entry_io_error e err).

(** [path] is a directory that a load pass of [dir] lists: [users/],
    [groups/], [layers/], or the directory of an entry of [layers/]. *)
Definition listed_dir (fs : FileSystem) (dir path : string) : Prop :=
  path = Js.join "/" [dir; "users"] ∨ path = Js.join "/" [dir; "groups"] ∨
  path = Js.join "/" [dir; "layers"] ∨
  ∃ files e, fs (Js.join "/" [dir; "layers"]) = inr files ∧ e ∈ files ∧
             path = Js.join "/" [dir; "layers"; e_name e].

(** [err] is an error of the file system in a directory that a load pass of
    [dir] lists: of the listing of that directory, or of reading the kind or
    the content of one of its entries. *)
Definition tree_error (fs : FileSystem) (dir : string) (err : JsError) : Prop :=
  ∃ path, listed_dir fs dir path ∧
          (fs path = inl err ∨
           ∃ files e, fs path = inr files ∧ e ∈ files ∧ entry_io_error e err).

(** The parser is called with [args] for an entry of [dir/sub]. *)
Definition parsed_entry (fs : FileSystem) (dir sub : string)
    (args : option string) : Prop :=
  ∃ files e, fs (Js.join "/" [dir; sub]) = inr files ∧ e ∈ files ∧
             entry_args e = Some args.

(** ** Records read from files *)

(** The document of entry [e]: what the parser returns for the content with
    which the entry reaches the transform; [None] when it returns [null] or
    [undefined], throws, or the entry does not reach the transform. *)
Definition doc_of (safeLoad : option string -> Completion (option Doc))
    (e : Entry) : option Doc :=
  match entry_args e with
  | Some args =>
      match safeLoad args with
      | Return doc => doc
      | Throw _ => None
      end
  | None => None
  end.

(** The user that lines 173-176 make of a document in the file [filename]:
    a primitive stays as it is; an object gets [uid] and [cn], the file name
    without its last segment, and [publicKeys], the empty array when it has
    none. *)
Definition user_of (filename : string) (doc : Doc) : Value RawUser :=
  match doc with
  | DocPrim truthy => Prim truthy
  | DocMap fields =>
      Rec {| ru_uid := fileUid filename; ru_cn := fileUid filename;
             ru_publicKeys := default [] (y_publicKeys fields);
             ru_primaryGroup := y_primaryGroup fields;
             ru_groups := y_groups fields |}
  end.

(** [user] is the user made from entry [e]: the parser returns a document
    for its content, and [user] is what lines 173-176 make of it. *)
Definition user_from (safeLoad : option string -> Completion (option Doc))
    (e : Entry) (user : Value RawUser) : Prop :=
  ∃ args doc,
    entry_args e = Some args ∧ safeLoad args = Return (Some doc) ∧
    user = user_of (e_name e) doc.

(** The [gidNumber] of a document, when it has one that is not zero. *)
Definition truthy_gid (doc : option Doc) : option Z :=
  match doc with
  | Some (DocMap d) =>
      match y_gidNumber d with
      | Some gid => if decide (gid = 0%Z) then None else Some gid
      | None => None
      end
  | _ => None
  end.

(** The [members] of a document, as the group object has them. *)
Definition members_of_doc (doc : option Doc) : Members :=
  match doc with
  | Some (DocMap d) => doc_members (y_members d)
  | _ => MAbsent
  end.

(** [v] is what the groups load makes of entry [e]: a group named after the
    file, with the [members] of the document, when the document has a
    [gidNumber] that is not zero; the skip marker otherwise. *)
Definition group_from (safeLoad : option string -> Completion (option Doc))
    (e : Entry) (v : option Group) : Prop :=
  ∃ args doc,
    entry_args e = Some args ∧ safeLoad args = Return doc ∧
    v = (fun gid => {| g_cn := fileUid (e_name e); g_gidNumber := gid;
                       g_members := members_of_doc doc |}) <$> truthy_gid doc.

(** The log entry the groups load writes for entry [e]: one when the
    document is truthy (an object or a truthy primitive) and has no
    [gidNumber] that is not zero. *)
Definition missing_gid_log (safeLoad : option string -> Completion (option Doc))
    (e : Entry) : Log :=
  match entry_args e with
  | Some args =>
      match safeLoad args with
      | Return (Some (DocPrim true)) => [InfoMissingGid (e_name e)]
      | Return (Some (DocMap d)) =>
          match truthy_gid (Some (DocMap d)) with
          | Some _ => []
          | None => [InfoMissingGid (e_name e)]
          end
      | _ => []
      end
  | None => []
  end.

(** [layer] is the layer made from entry [e] of [layers/]: it bears the name
    of the entry, the directory of that name lists at least one entry, every
    entry of which is a regular file that can be read, a directory or a
    symbolic link, and its users are the names of those entries without
    their last segment, in the order in which the entries completed. *)
Definition layer_from (fs : FileSystem) (dir : string) (e : Entry)
    (layer : RawLayer) : Prop :=
  rl_id layer = e_name e ∧
  ∃ ms, fs (Js.join "/" [dir; "layers"; e_name e]) = inr ms ∧ ms ≠ [] ∧
        (∀ m, m ∈ ms → is_Some (entry_args m)) ∧
        rl_users layer = Some ((fun m => fileUid (e_name m)) <$> ms).

(** The name and [gidNumber] of the group the groups load makes of entry
    [e], when it makes one. *)
Definition group_of (safeLoad : option string -> Completion (option Doc))
    (e : Entry) : option (string * Z) :=
  match entry_args e with
  | Some args =>
      match safeLoad args with
      | Return doc => (fun gid => (fileUid (e_name e), gid)) <$> truthy_gid doc
      | Throw _ => None
      end
  | None => None
  end.

(** The document of entry [e] is a falsy primitive: [u.compact] drops the
    user made of it. *)
Definition falsy_entry (safeLoad : option string -> Completion (option Doc))
    (e : Entry) : bool :=
  match doc_of safeLoad e with
  | Some (DocPrim false) => true
  | _ => false
  end.

(** The document of entry [e] is an object, and the entry bears the name
    [uid] once its last segment is dropped. *)
Definition names_uid (safeLoad : option string -> Completion (option Doc))
    (uid : string) (e : Entry) : bool :=
  match doc_of safeLoad e with
  | Some (DocMap _) => bool_decide (fileUid (e_name e) = uid)
  | _ => false
  end.

(** The public keys of the user the users load makes of entry [e]. *)
Definition keys_from (safeLoad : option string -> Completion (option Doc))
    (e : Entry) : list string :=
  match doc_of safeLoad e with
  | Some (DocMap fields) => default [] (y_publicKeys fields)
  | _ => []
  end.

(** The user in the store is the one made of entry [e]. *)
Definition user_mirrors (safeLoad : option string -> Completion (option Doc))
    (e : Entry) (user : Value User) : Prop :=
  match doc_of safeLoad e, user with
  | Some (DocPrim truthy), Prim truthy' => truthy = true ∧ truthy' = true
  | Some (DocMap fields), Rec user =>
      u_uid user = fileUid (e_name e) ∧ u_cn user = fileUid (e_name e) ∧
      u_publicKeys user = default [] (y_publicKeys fields)
  | _, _ => False
  end.

(** ** Trees that load *)







(** ** Outcomes of a load pass *)

(** The calls of the three tasks, in their arrival order. *)
Definition task_calls
    (safeLoad : option string -> Completion (option Doc))
    (dir : string) (fs : FileSystem) (sched : Schedule) (log : Log)
  : list (nat * Callback TaskResult) :=
  interleave (sched_tasks sched) (load_tasks safeLoad dir fs sched log).2.

(** The tree under [dir] has a directory that lists as empty: [users/],
    [groups/], [layers/], or the directory of a layer. *)
Definition has_empty_dir (fs : FileSystem) (dir : string) : Prop :=
  fs (Js.join "/" [dir; "users"]) = inr [] ∨
  fs (Js.join "/" [dir; "groups"]) = inr [] ∨
  fs (Js.join "/" [dir; "layers"]) = inr [] ∨
  ∃ layers layer, layerStubs fs dir = [CbOk layers] ∧ layer ∈ layers ∧
                  fs (Js.join "/" [dir; "layers"; rl_id layer]) = inr [].

(** ** Well-formed stores *)

(** [r] is an object of an array of the store. *)
Definition in_store {A} (l : list A) (r : Ref) : Prop :=
  ∃ i, r = Own i ∧ is_Some (l !! i).

(** Every resolved reference of the store is an object of the store's own
    array of groups or of users. *)
Definition refs_closed (s : Store) : Prop :=
  (∀ user r, Rec user ∈ s_users s → u_primaryGroup user = PGRef r →
             in_store (s_groups s) r) ∧
  (∀ user r, Rec user ∈ s_users s → r ∈ u_groups user →
             in_store (s_groups s) r) ∧
  (∀ layer r, layer ∈ s_layers s → r ∈ l_users layer →
              in_store (s_users s) r).

(** Every reference of the store to one of its own arrays is a position of
    that array. *)
Definition own_refs_in_range (s : Store) : Prop :=
  (∀ user g, Rec user ∈ s_users s → u_primaryGroup user = PGRef (Own g) →
             is_Some (s_groups s !! g)) ∧
  (∀ user g, Rec user ∈ s_users s → Own g ∈ u_groups user →
             is_Some (s_groups s !! g)) ∧
  (∀ layer u, layer ∈ s_layers s → Own u ∈ l_users layer →
              is_Some (s_users s !! u)).

(** The users of the store on the array that [r.members] reads: the
    [members] of the object's own, or else the one inherited from
    [Object.prototype]. *)
Definition members_read (inh : Inherited) (heap : list Group) (r : Ref)
  : option (list nat) :=
  match r with
  | Own g =>
      match g_members <$> heap !! g with
      | Some (MArray _ pushed) => Some pushed
      | Some MAbsent => inh !! "__proto__"
      | _ => None
      end
  | Builtin name =>
      match inh !! name with
      | Some own => Some own
      | None => inh !! "__proto__"
      end
  | ObjectPrototype | SharedMembers => inh !! "__proto__"
  end.

(** The object [r] lists the user at position [user] among its members. *)
Definition member_of (inh : Inherited) (heap : list Group) (r : Ref) (user : nat)
  : Prop :=
  ∃ members, members_read inh heap r = Some members ∧ user ∈ members.

(** Every group in the [groups] of a user lists that user in its
    [members]. *)
Definition members_consistent (inh : Inherited) (s : Store) : Prop :=
  ∀ i user r, s_users s !! i = Some (Rec user) → r ∈ u_groups user →
              member_of inh (s_groups s) r i.

(** What holds of the users fixed up so far, over the group objects and
    the inherited objects as they are: the groups of a user list the user,
    and a reference to a group is a position of the array of groups. *)
Definition resolved (size : nat) (b : Build) (fixed : list (Value User)) : Prop :=
  length (b_heap b) = size ∧
  (∀ i user r, fixed !! i = Some (Rec user) → r ∈ u_groups user →
               member_of (b_inherited b) (b_heap b) r i) ∧
  (∀ i user g, fixed !! i = Some (Rec user) →
               u_primaryGroup user = PGRef (Own g) ∨ Own g ∈ u_groups user →
               g < size).

(** ** The module over time *)

(** The watcher is marked ready. *)
Definition mark_ready (watcher : Watcher) : Watcher :=
  {| w_dir := w_dir watcher; w_ready := true |}.


(** The watchers [ws] are still there in [ws'], each in its place with its
    directory, and still ready if it was. *)
Definition watchers_kept (ws ws' : list Watcher) : Prop :=
  ∀ w watcher, ws !! w = Some watcher →
    ∃ watcher', ws' !! w = Some watcher' ∧ w_dir watcher' = w_dir watcher ∧
                (w_ready watcher = true → w_ready watcher' = true).

(** The reply the ['ready'] handler makes for a call of the callback it
    gave to [load]. *)
Definition reply_of (ev : Callback Store) : Reply :=
  match ev with CbErr err => Some err | CbOk _ => None end.

(** ** Resolved records *)

(** Position [i] is the last of [l] whose element bears the key [k]. *)
Definition last_with {A} (key : A -> string) (l : list A) (k : string) (i : nat) : Prop :=
  (∃ x, l !! i = Some x ∧ key x = k) ∧
  (∀ j y, i < j → l !! j = Some y → key y ≠ k).

(** No element of [l] bears the key [k]. *)
Definition unborne {A} (key : A -> string) (l : list A) (k : string) : Prop :=
  Forall (fun x => key x ≠ k) l.

#[global] Instance unborne_dec {A} (key : A -> string) (l : list A) (k : string) :
  Decision (unborne key l k).
Proof. unfold unborne. apply _. Defined.

(** What the name [k] reads in a dictionary filled from [l], while
    [Object.prototype] has no [members]: the last element that bears the
    name; or, when none does, the built-in of that name, and
    [Object.prototype] for the name [__proto__]. *)
Definition names {A} (key : A -> string) (l : list A) (k : string) (r : Ref) : Prop :=
  match r with
  | Own i => last_with key l k i
  | Builtin name => name = k ∧ k ∈ builtin_names ∧ unborne key l k
  | ObjectPrototype => k = "__proto__" ∧ unborne key l k
  | SharedMembers => False
  end.

(** The name [k] reads [undefined] in a dictionary filled from [l], while
    [Object.prototype] has no [members]: no element bears it, and
    [Object.prototype] does not define it. *)
Definition dangling {A} (key : A -> string) (l : list A) (k : string) : Prop :=
  unborne key l k ∧ k ≠ "__proto__" ∧ k ∉ builtin_names.

#[global] Instance dangling_dec {A} (key : A -> string) (l : list A) (k : string) :
  Decision (dangling key l k).
Proof. unfold dangling, unborne. apply _. Defined.

(** The user declares a group whose name reads [__proto__]. *)
Definition declares_proto (user : Value RawUser) : Prop :=
  match user with
  | Rec user =>
      Exists (fun gid => scalar_key gid = "__proto__") (default [] (ru_groups user))
  | Prim _ => False
  end.

#[global] Instance declares_proto_dec (user : Value RawUser) :
  Decision (declares_proto user).
Proof. destruct user; apply _. Defined.

(** [Object.prototype] has no [members], and no user declares a group
    whose name reads [__proto__]: line 252 never runs on
    [Object.prototype]. *)
Definition unpolluted (inh : Inherited) (raw : RawStore) : Prop :=
  inh !! "__proto__" = None ∧
  Forall (fun user => ¬ declares_proto user) (r_users raw).

#[global] Instance unpolluted_dec (inh : Inherited) (raw : RawStore) :
  Decision (unpolluted inh raw).
Proof. unfold unpolluted. apply _. Defined.

(** No group is named [__proto__]. *)
Definition plain_groups (raw : RawStore) : Prop :=
  unborne g_cn (r_groups raw) "__proto__".

#[global] Instance plain_groups_dec (raw : RawStore) : Decision (plain_groups raw).
Proof. unfold plain_groups. apply _. Defined.

(** No user is named [__proto__]. *)
Definition plain_users (raw : RawStore) : Prop :=
  unborne user_key (r_users raw) "__proto__".

#[global] Instance plain_users_dec (raw : RawStore) : Decision (plain_users raw).
Proof. unfold plain_users. apply _. Defined.

(** The warnings for one user: one when its primary group names nothing,
    then one for each distinct identifier among its groups that names
    nothing, in the order in which they are declared.  A primitive
    declares nothing, and reads [undefined] as its primary group and its
    uid. *)
Definition user_warnings (gs : list Group) (user : Value RawUser) : Log :=
  match user with
  | Prim _ =>
      if decide (dangling g_cn gs "undefined")
      then [WarnPrimaryGroupNotFound None None] else []
  | Rec user =>
      (if decide (dangling g_cn gs (prop_key (ru_primaryGroup user)))
       then [WarnPrimaryGroupNotFound (ru_primaryGroup user) (Some (ru_uid user))]
       else [])
      ++ omap (fun gid => if decide (dangling g_cn gs (scalar_key gid))
                          then Some (WarnGroupNotFound gid (ru_uid user))
                          else None)
           (uniq (default [] (ru_groups user)))
  end.

(** The users of a store that have the group at position [g] among their
    groups, in the order of the users, each as often as it has the
    group. *)
Definition listed (users : list (Value User)) (g : nat) : list nat :=
  concat (imap (fun i user =>
                  match user with
                  | Rec user =>
                      (fun _ : Ref => i) <$> filter (fun r => r = Own g) (u_groups user)
                  | Prim _ => []
                  end) users).

(** [members] after the users [js] have been pushed onto it, while
    [Object.prototype] has no [members]. *)
Definition push_all (members : Members) (js : list nat) : Members :=
  match js with
  | [] => members
  | _ =>
      match members with
      | MArray items pushed => MArray items (pushed ++ js)
      | MAbsent | MFalsy => MArray [] js
      | MOther => MOther
      end
  end.

(** The user that lines 240-257 make of a user, while [Object.prototype]
    has no [members]. *)
Definition fixed_user (groups : gmap string nat) (user : Value RawUser)
  : Value User :=
  match user with
  | Prim truthy => Prim truthy
  | Rec user =>
      Rec {| u_uid := ru_uid user; u_cn := ru_cn user;
             u_publicKeys := ru_publicKeys user;
             u_primaryGroup :=
               match lookup_name ∅ groups (prop_key (ru_primaryGroup user)) with
               | Some r => PGRef r
               | None => PGRaw (ru_primaryGroup user)
               end;
             u_groups := omap (fun gid => lookup_name ∅ groups (scalar_key gid))
                           (uniq (default [] (ru_groups user))) |}
  end.

(** The warnings of lines 245 and 249 for one user, as the dictionary
    gives them while [Object.prototype] has no [members]. *)
Definition lookup_warnings (groups : gmap string nat) (user : Value RawUser) : Log :=
  match user with
  | Prim _ =>
      match lookup_name ∅ groups "undefined" with
      | Some _ => []
      | None => [WarnPrimaryGroupNotFound None None]
      end
  | Rec user =>
      match lookup_name ∅ groups (prop_key (ru_primaryGroup user)) with
      | Some _ => []
      | None => [WarnPrimaryGroupNotFound (ru_primaryGroup user) (Some (ru_uid user))]
      end
      ++ omap (fun gid => match lookup_name ∅ groups (scalar_key gid) with
                          | Some _ => None
                          | None => Some (WarnGroupNotFound gid (ru_uid user))
                          end)
           (uniq (default [] (ru_groups user)))
  end.

(** The pushes of lines 251-253 onto the group at position [g] for the
    identifiers [ids] of the user at position [position]: one for each
    identifier that names the group. *)
Definition pushes (groups : gmap string nat) (g : nat) (position : nat)
    (ids : list Scalar) : list nat :=
  (fun _ : Scalar => position)
    <$> filter (fun gid => groups !! scalar_key gid = Some g) ids.

Definition pushes_of (groups : gmap string nat) (g : nat)
    (position : nat) (user : Value RawUser) : list nat :=
  match user with
  | Prim _ => []
  | Rec user => pushes groups g position (uniq (default [] (ru_groups user)))
  end.

Definition all_pushes (groups : gmap string nat) (users : list (Value RawUser))
    (g : nat) : list nat :=
  concat (imap (pushes_of groups g) users).

(** The group objects [heap] are the groups [gs] after the users [js g]
    have been pushed onto the group at each position [g], while
    [Object.prototype] has no [members]. *)
Definition pushed (gs : list Group) (js : nat -> list nat) (heap : list Group) : Prop :=
  length heap = length gs ∧
  ∀ g group, gs !! g = Some group →
             heap !! g = Some (set_members (push_all (g_members group) (js g)) group).

(** The user in the store is the user that came in: the same primitive,
    or an object with the same uid, cn and public keys. *)
Definition same_user (raw : Value RawUser) (user : Value User) : Prop :=
  match raw, user with
  | Prim truthy, Prim truthy' => truthy' = truthy
  | Rec raw, Rec user =>
      u_uid user = ru_uid raw ∧ u_cn user = ru_cn raw ∧
      u_publicKeys user = ru_publicKeys raw
  | _, _ => False
  end.

(** [user.uid] of an element of [store.users], read as a property name. *)
Definition stored_key (user : Value User) : string :=
  match user with
  | Rec user => u_uid user
  | Prim _ => "undefined"
  end.

(** The names that the users and layers declare: for each user the primary
    group and the groups (a primitive declares the primary group
    [undefined]), for each layer the users. *)
Definition declared_names (raw : RawStore) : list string :=
  flat_map (fun user =>
              match user with
              | Prim _ => ["undefined"]
              | Rec user =>
                  prop_key (ru_primaryGroup user)
                    :: (scalar_key <$> default [] (ru_groups user))
              end) (r_users raw)
  ++ flat_map (fun layer => default [] (rl_users layer)) (r_layers raw).

(** [Object.prototype] defines the name [k]. *)
Definition inherited_name (k : string) : Prop :=
  k = "__proto__" ∨ k ∈ builtin_names.

#[global] Instance inherited_name_dec (k : string) : Decision (inherited_name k).
Proof. unfold inherited_name. apply _. Defined.

(** ** Sample trees *)

Module Sample.

Definition yaml (gid : option Z) (keys : option (list string))
    (primary : option string) (groups : option (list string)) : Doc :=
  DocMap {| y_gidNumber := gid; y_publicKeys := keys;
            y_primaryGroup := SStr <$> primary;
            y_groups := (fun ids : list string => SStr <$> ids) <$> groups;
            y_members := DAbsent |}.

(** A parser for the handful of documents the sample trees contain: it
    throws on ["{"] and returns nothing for the empty document. *)
Definition safeLoad (contents : option string) : Completion (option Doc) :=
  match contents with
  | None => Return None
  | Some text =>
      if decide (text = "") then Return None
      else if decide (text = "{")
      then Throw (YAMLException "unexpected end of the stream")
      else if decide (text = "hello") then Return (Some (DocPrim true))
      else if decide (text = "0") then Return (Some (DocPrim false))
      else if decide (text = "{gidNumber: 100}")
      then Return (Some (yaml (Some 100%Z) None None None))
      else if decide (text = "{gidNumber: 100, members: alice}")
      then Return (Some (DocMap {| y_gidNumber := Some 100%Z; y_publicKeys := None;
                                   y_primaryGroup := None; y_groups := None;
                                   y_members := DOther |}))
      else if decide (text =
        "{publicKeys: [ssh-rsa AAAA], primaryGroup: staff, groups: [staff, ops, staff, nope]}")
      then Return (Some (yaml None (Some ["ssh-rsa AAAA"]) (Some "staff")
                           (Some ["staff"; "ops"; "staff"; "nope"])))
      else if decide (text = "{primaryGroup: wheel, groups: [ops]}")
      then Return (Some (yaml None None (Some "wheel") (Some ["ops"])))
      else if decide (text = "{primaryGroup: toString, groups: [constructor]}")
      then Return (Some (yaml None None (Some "toString") (Some ["constructor"])))
      else if decide (text = "{groups: [staff]}")
      then Return (Some (yaml None None None (Some ["staff"])))
      else Return (Some (yaml None None None None))
  end.

Definition file (name contents : string) : Entry :=
  {| e_name := name; e_kind := RegularFile (Return contents) |}.

Definition subdir (name : string) : Entry :=
  {| e_name := name; e_kind := Directory |}.

Definition link (name : string) : Entry :=
  {| e_name := name; e_kind := SymbolicLink |}.

(** A file system given by the listings of its directories; any other path
    does not exist. *)
Fixpoint mkfs (table : list (string * (JsError + list Entry))) : FileSystem :=
  fun path =>
    match table with
    | [] => inl (FsError "ENOENT" path)
    | (p, listing) :: table' => if decide (p = path) then listing else mkfs table' path
    end.

Definition users_ok : list Entry :=
  [ file "alice.yaml"
      "{publicKeys: [ssh-rsa AAAA], primaryGroup: staff, groups: [staff, ops, staff, nope]}";
    file "bob.yml" "{primaryGroup: wheel, groups: [ops]}" ].

Definition groups_ok : list Entry :=
  [ file "staff.yaml" "{gidNumber: 100}"; file "ops.yaml" "{gidNumber: 100}" ].

Definition layers_ok : list (string * (JsError + list Entry)) :=
  [ ("/srv/layers", inr [subdir "prod"; subdir "dev"]);
    ("/srv/layers/prod", inr [link "alice.yaml"; link "carol.yaml"]);
    ("/srv/layers/dev", inr [link "bob.yml"]) ].

(** A well-formed tree. *)
Definition tree : FileSystem :=
  mkfs ([ ("/srv/users", inr users_ok); ("/srv/groups", inr groups_ok) ] ++ layers_ok).

(** The same tree after a malformed user record appeared. *)
Definition tree_bad_user : FileSystem :=
  mkfs ([ ("/srv/users", inr (users_ok ++ [file "mallory.yaml" "{"]));
          ("/srv/groups", inr groups_ok) ] ++ layers_ok).

(** The same tree with a malformed group record. *)
Definition tree_bad_group : FileSystem :=
  mkfs ([ ("/srv/users", inr users_ok);
          ("/srv/groups", inr (groups_ok ++ [file "broken.yaml" "{"])) ] ++ layers_ok).

(** The same tree with an empty group record. *)
Definition tree_empty_group : FileSystem :=
  mkfs ([ ("/srv/users", inr users_ok);
          ("/srv/groups", inr (groups_ok ++ [file "blank.yaml" ""])) ] ++ layers_ok).

(** A tree whose [users/] holds a socket. *)
Definition tree_socket : FileSystem :=
  mkfs ([ ("/srv/users", inr [{| e_name := "agent.sock"; e_kind := OtherKind |}]);
          ("/srv/groups", inr groups_ok) ] ++ layers_ok).

(** A tree whose [users/] is empty. *)
Definition tree_no_users : FileSystem :=
  mkfs ([ ("/srv/users", inr []); ("/srv/groups", inr groups_ok) ] ++ layers_ok).

(** A tree whose [users/] is empty and which has no [groups/]. *)
Definition tree_no_users_no_groups : FileSystem :=
  mkfs ([ ("/srv/users", inr []) ] ++ layers_ok).

(** A tree with a user who names as groups properties of
    [Object.prototype], and with a layer that lists [valueOf]. *)
Definition tree_builtin : FileSystem :=
  mkfs [ ("/srv/users",
          inr [file "eve.yaml" "{primaryGroup: toString, groups: [constructor]}"]);
         ("/srv/groups", inr groups_ok);
         ("/srv/layers", inr [subdir "prod"]);
         ("/srv/layers/prod", inr [link "eve.yaml"; link "valueOf.yaml"]) ].

(** A tree with user documents that are primitives. *)
Definition tree_primitives : FileSystem :=
  mkfs ([ ("/srv/users",
           inr [file "zero.yaml" "0"; file "carol.yaml" "hello";
                file "bob.yml" "{primaryGroup: wheel, groups: [ops]}"]);
          ("/srv/groups", inr groups_ok) ] ++ layers_ok).


Definition in_order : Schedule := {| sched_scans := []; sched_tasks := [] |}.

(** A first load pass over the tree [fs], the callbacks arriving in the
    order of their operations. *)
Definition pass (fs : FileSystem) : Globals * list (Callback Store) :=
  load safeLoad "/srv" fs in_order (globals fresh).

(** ASCII upper-casing. *)
Definition upper_char (ch : ascii) : ascii :=
  let n := nat_of_ascii ch in
  if decide (97 ≤ n ∧ n ≤ 122) then ascii_of_nat (n - 32) else ch.

Fixpoint toUpperCase (s : string) : string :=
  match s with
  | EmptyString => EmptyString
  | String ch s' => String (upper_char ch) (toUpperCase s')
  end.

End Sample.

(** ** Sample records *)

Module Cases.

Definition alice : RawUser :=
  {| ru_uid := "alice"; ru_cn := "alice"; ru_publicKeys := ["ssh-rsa AAAA"];
     ru_primaryGroup := Some (SStr "staff");
     ru_groups := Some [SStr "staff"; SStr "ops"; SStr "staff"; SStr "nope"] |}.

Definition bob : RawUser :=
  {| ru_uid := "bob"; ru_cn := "bob"; ru_publicKeys := [];
     ru_primaryGroup := Some (SStr "wheel"); ru_groups := Some [SStr "ops"] |}.

(** A user who declares the same group as a number and as a string, and a
    group that is a property of [Object.prototype]. *)
Definition eve : RawUser :=
  {| ru_uid := "eve"; ru_cn := "eve"; ru_publicKeys := [];
     ru_primaryGroup := Some (SStr "toString");
     ru_groups := Some [SNum "100"; SStr "100"; SStr "constructor"] |}.

Definition staff : Group :=
  {| g_cn := "staff"; g_gidNumber := 100; g_members := MAbsent |}.

Definition ops : Group :=
  {| g_cn := "ops"; g_gidNumber := 101; g_members := MAbsent |}.

Definition idle : Group :=
  {| g_cn := "idle"; g_gidNumber := 102; g_members := MAbsent |}.

Definition hundred : Group :=
  {| g_cn := "100"; g_gidNumber := 100; g_members := MArray [SStr "root"] [] |}.

(** What the loaders deliver for a small tree: two users, three groups, two
    layers; [carol] names no user, [nope] and [wheel] name no group. *)
Definition raw : RawStore :=
  {| r_dir := "/srv";
     r_users := [Rec alice; Rec bob];
     r_groups := [staff; ops; idle];
     r_layers := [ {| rl_id := "prod"; rl_users := Some ["alice"; "carol"] |};
                   {| rl_id := "dev"; rl_users := Some ["bob"] |} ] |}.

(** The same with a primitive among the users, and with [eve]. *)
Definition raw_odd : RawStore :=
  {| r_dir := "/srv";
     r_users := [Prim true; Rec eve];
     r_groups := [staff; hundred];
     r_layers := [ {| rl_id := "prod";
                     rl_users := Some ["eve"; "undefined"; "valueOf"; "carol"] |} ] |}.

Definition built : Built := buildDataStore ∅ raw [].

Definition built_odd : Built := buildDataStore ∅ raw_odd [].

End Cases.

(** * Properties *)

(** ** fileUid *)

Lemma split_nonempty sep s : Js.split sep s ≠ [].
Proof.
  destruct s as [|ch s]; simpl; [done|].
  case_decide; [done|]. by destruct (Js.split sep s).
Qed.

Lemma split_without_sep sep s :
  Js.contains sep s = false → Js.split sep s = [s].
Proof.
  induction s as [|ch s IH]; simpl; [done|].
  case_decide; [done|]. intros Hs. by rewrite (IH Hs).
Qed.

Lemma split_app sep a b :
  Js.split sep (a +:+ String sep b) = Js.split sep a ++ Js.split sep b.
Proof.
  induction a as [|ch a IH]; simpl.
  - by rewrite decide_True.
  - case_decide; [by rewrite IH|].
    rewrite IH. destruct (Js.split sep a) eqn:Ha; [|done].
    by destruct (split_nonempty sep a).
Qed.

Lemma join_split sep s : Js.join (String sep "") (Js.split sep s) = s.
Proof.
  induction s as [|ch s IH]; simpl; [done|].
  case_decide as Hch.
  - subst ch. destruct (Js.split sep s) eqn:Hs.
    + by destruct (split_nonempty sep s).
    + simpl in *. by rewrite IH.
  - destruct (Js.split sep s) as [|tok toks] eqn:Hs.
    + by destruct (split_nonempty sep s).
    + rewrite <- IH. by destruct toks.
Qed.

(** The guard of line 162 is never taken. *)
Lemma fileUid_unfold filename :
  fileUid filename =
  Js.join "." (take (length (Js.split "." filename) - 1) (Js.split "." filename)).
Proof.
  unfold fileUid, Js.slice0. case_decide as Hlen; [|done].
  destruct (Js.split "." filename) eqn:Hs; [|done].
  by destruct (split_nonempty "." filename).
Qed.

(** Stripping the final dot-segment: a name [base.ext], where [ext] has no
    dot, yields [base]. *)
Lemma fileUid_strips_extension base ext :
  Js.contains "." ext = false → fileUid (base +:+ String "." ext) = base.
Proof.
  intros Hext. rewrite fileUid_unfold, split_app, (split_without_sep _ _ Hext).
  rewrite length_app. simpl length.
  replace (length (Js.split "." base) + 1 - 1) with (length (Js.split "." base)) by lia.
  rewrite take_app_length. apply join_split.
Qed.

(** A name without a dot yields the empty string. *)
Lemma fileUid_without_dot filename :
  Js.contains "." filename = false → fileUid filename = "".
Proof.
  intros Hs. by rewrite fileUid_unfold, (split_without_sep _ _ Hs).
Qed.

(** C4, at the input ["alice"]: [fileUid] strips the final dot-segment of
    ["alice.yaml"] and of ["alice.smith.yaml"], but for the name ["alice"],
    which contains no dot, it returns the empty string and not the name. *)
Theorem fileUid_alice_without_extension :
  fileUid "alice.yaml" = "alice" ∧
  fileUid "alice.smith.yaml" = "alice.smith" ∧
  Js.contains "." "alice" = false ∧
  fileUid "alice" = "" ∧
  fileUid "alice" ≠ "alice".
Proof. repeat split; done. Qed.

Lemma count_ok_app {A} (l1 l2 : list (Callback A)) :
  count_ok (l1 ++ l2) = count_ok l1 + count_ok l2.
Proof. induction l1 as [|[]]; simpl; lia. Qed.

Lemma count_err_app {A} (l1 l2 : list (Callback A)) :
  count_err (l1 ++ l2) = count_err l1 + count_err l2.
Proof. induction l1 as [|[]]; simpl; lia. Qed.

Lemma count_ok_zero {A} (calls : list (Callback A)) :
  count_ok calls = 0 ↔ ∀ v, CbOk v ∉ calls.
Proof.
  induction calls as [|[err|v] calls IH]; simpl.
  - split; [intros _ v Hv; inversion Hv|done].
  - rewrite IH. split; intros H v.
    + rewrite elem_of_cons. intros [?|?]; [done|]. by apply (H v).
    + intros Hv. apply (H v). by right.
  - split; [done|]. intros H. destruct (H v). by left.
Qed.

Lemma count_err_zero {A} (calls : list (Callback A)) :
  count_err calls = 0 ↔ ∀ err, CbErr err ∉ calls.
Proof.
  induction calls as [|[err|v] calls IH]; simpl.
  - split; [intros _ v Hv; inversion Hv|done].
  - split; [done|]. intros H. destruct (H err). by left.
  - rewrite IH. split; intros H err.
    + rewrite elem_of_cons. intros [?|?]; [done|]. by apply (H err).
    + intros Herr. apply (H err). by right.
Qed.

Lemma count_ok_fmap {A B} (f : A -> B) (calls : list (Callback A)) :
  count_ok (cb_map f <$> calls) = count_ok calls.
Proof. induction calls as [|[]]; simpl; auto. Qed.

Lemma count_err_fmap {A B} (f : A -> B) (calls : list (Callback A)) :
  count_err (cb_map f <$> calls) = count_err calls.
Proof. induction calls as [|[]]; simpl; auto. Qed.

(** A trace without a successful call and without an error is empty. *)
Lemma count_zero_nil {A} (calls : list (Callback A)) :
  count_ok calls = 0 → count_err calls = 0 → calls = [].
Proof. by destruct calls as [|[]]. Qed.

(** ** loadDir *)

Section LoadDirFacts.
Context {S V : Type}.
Variable fn : string -> option string -> S -> S * Completion V.

(** What one entry does to [c], [result] and the calls made. *)
Lemma on_entry_cases (a : Acc S V) (e : Entry) :
  (∃ err, acc_c (on_entry fn a e) = acc_c a ∧
          acc_result (on_entry fn a e) = acc_result a ∧
          acc_calls (on_entry fn a e) = acc_calls a ++ [CbErr err]) ∨
  (e_kind e = OtherKind ∧ on_entry fn a e = a) ∨
  (∃ v, acc_c (on_entry fn a e) = (acc_c a - 1)%Z ∧
        acc_result (on_entry fn a e) = acc_result a ++ [v] ∧
        acc_calls (on_entry fn a e) =
          if decide (0 = acc_c a - 1)%Z
          then acc_calls a ++ [CbOk (acc_result a ++ [v])] else acc_calls a).
Proof.
  unfold on_entry, accumulate, fail.
  destruct (e_kind e) as [err|[err|contents]| | |]; simpl;
    try (left; by eexists);
    try (right; left; by destruct a);
    match goal with |- context [fn ?x ?y ?z] => destruct (fn x y z) as [s' [err|v]] end;
    simpl; try (left; by eexists); right; right; by eexists.
Qed.

Lemma run_calls_prefix (es : list Entry) (a : Acc S V) :
  acc_calls a `prefix_of` acc_calls (foldl (on_entry fn) a es).
Proof.
  revert a. induction es as [|e es IH]; intros a; simpl; [done|].
  etrans; [|apply IH].
  destruct (on_entry_cases a e) as [(err & _ & _ & ->)|[[_ ->]|(v & _ & _ & ->)]];
    [by apply prefix_app_r|done|case_decide; [by apply prefix_app_r|done]].
Qed.

(** While more calls of [accumulate] are awaited than entries are left, no
    result is delivered. *)
Lemma run_short (es : list Entry) (a : Acc S V) :
  (Z.of_nat (length es) < acc_c a)%Z →
  count_ok (acc_calls (foldl (on_entry fn) a es)) = count_ok (acc_calls a).
Proof.
  revert a. induction es as [|e es IH]; intros a Hc; simpl in *; [done|].
  destruct (on_entry_cases a e) as [(err & Hc' & _ & Hcalls)|[[_ Heq]|(v & Hc' & _ & Hcalls)]].
  - rewrite IH by lia. rewrite Hcalls, count_ok_app. simpl. lia.
  - rewrite Heq. apply IH. lia.
  - rewrite IH by lia. rewrite Hcalls. by rewrite decide_False by lia.
Qed.

(** At most one result is delivered. *)
Lemma run_count_ok (es : list Entry) (a : Acc S V) :
  (Z.of_nat (length es) ≤ acc_c a)%Z →
  count_ok (acc_calls (foldl (on_entry fn) a es)) ≤ count_ok (acc_calls a) + 1.
Proof.
  revert a. induction es as [|e es IH]; intros a Hc; simpl in *; [lia|].
  destruct (on_entry_cases a e) as [(err & Hc' & _ & Hcalls)|[[_ Heq]|(v & Hc' & _ & Hcalls)]].
  - rewrite run_short by lia. rewrite Hcalls, count_ok_app. simpl. lia.
  - rewrite Heq. rewrite run_short by lia. lia.
  - case_decide as Hz.
    + destruct es; [|simpl in *; lia].
      simpl. rewrite Hcalls, count_ok_app. simpl. lia.
    + etrans; [apply IH; lia|]. by rewrite Hcalls.
Qed.

(** An entry that fails has its error passed to the callback, and no result
    is delivered, before or after. *)
Lemma run_failure (es : list Entry) (a : Acc S V) (e : Entry) (err : JsError) :
  (Z.of_nat (length es) ≤ acc_c a)%Z → e ∈ es → entry_fails fn e err →
  CbErr err ∈ acc_calls (foldl (on_entry fn) a es) ∧
  count_ok (acc_calls (foldl (on_entry fn) a es)) = count_ok (acc_calls a).
Proof.
  revert a. induction es as [|e' es IH]; intros a Hc He Hfail; [by inversion He|].
  simpl in *. apply elem_of_cons in He as [->|He].
  - assert (acc_c (on_entry fn a e') = acc_c a ∧
            acc_calls (on_entry fn a e') = acc_calls a ++ [CbErr err]) as [Hc' Hcalls].
    { unfold entry_fails in Hfail. unfold on_entry, accumulate, fail.
      destruct (e_kind e') as [err'|[err'|contents]| | |]; simpl; try by subst.
      - specialize (Hfail (acc_state a)).
        destruct (fn (e_name e') (Some contents) (acc_state a)) as [s' [?|?]];
          simpl in *; by simplify_eq.
      - specialize (Hfail (acc_state a)).
        destruct (fn (e_name e') None (acc_state a)) as [s' [?|?]];
          simpl in *; by simplify_eq.
      - specialize (Hfail (acc_state a)).
        destruct (fn (e_name e') None (acc_state a)) as [s' [?|?]];
          simpl in *; by simplify_eq. }
    split.
    + eapply elem_of_prefix; [|apply run_calls_prefix].
      rewrite Hcalls. apply elem_of_app. right. by left.
    + rewrite run_short by lia. rewrite Hcalls, count_ok_app. simpl. lia.
  - assert (es ≠ []) as Hne by (intros ->; inversion He).
    assert (0 < length es) as Hlen by (destruct es; simpl; [done|lia]).
    destruct (on_entry_cases a e') as [(err' & Hc' & _ & Hcalls)|[[_ Heq]|(v & Hc' & _ & Hcalls)]].
    + destruct (IH (on_entry fn a e')) as [Hin Hcount]; [lia|done..|].
      split; [done|]. rewrite Hcount, Hcalls, count_ok_app. simpl. lia.
    + rewrite Heq. apply IH; [lia|done..].
    + destruct (IH (on_entry fn a e')) as [Hin Hcount]; [lia|done..|].
      split; [done|]. rewrite Hcount, Hcalls. by rewrite decide_False by lia.
Qed.

(** When every entry reaches the transform and the transform returns, the
    result is delivered once, after the last entry. *)
Lemma run_success (es : list Entry) (a : Acc S V) :
  acc_c a = Z.of_nat (length es) →
  (∀ e, e ∈ es → ∃ args, entry_args e = Some args ∧
                   ∀ s, ∃ s' v, fn (e_name e) args s = (s', Return v)) →
  ∃ vals, Forall2 (entry_yields fn) es vals ∧
          acc_calls (foldl (on_entry fn) a es) =
            acc_calls a ++ match es with
                           | [] => []
                           | _ => [CbOk (acc_result a ++ vals)]
                           end.
Proof.
  revert a. induction es as [|e es IH]; intros a Hc Hok.
  { exists []. split; [constructor|]. simpl. by rewrite app_nil_r. }
  destruct (Hok e) as (args & Hargs & Hfn); [by left|].
  destruct (Hfn (acc_state a)) as (s' & v & Hv).
  assert (on_entry fn a e =
          {| acc_c := acc_c a - 1; acc_result := acc_result a ++ [v];
             acc_state := s';
             acc_calls := if decide (0 = acc_c a - 1)%Z
                          then acc_calls a ++ [CbOk (acc_result a ++ [v])]
                          else acc_calls a |}) as Hstep.
  { unfold entry_args in Hargs. unfold on_entry, accumulate.
    destruct (e_kind e) as [?|[?|contents]| | |]; simplify_eq; by rewrite Hv. }
  destruct (IH (on_entry fn a e)) as (vals & Hvals & Hcalls).
  { rewrite Hstep. simpl in *. lia. }
  { intros e' He'. apply Hok. by right. }
  exists (v :: vals). split.
  { constructor; [|done]. by exists args, (acc_state a), s'. }
  simpl foldl. rewrite Hcalls, Hstep. simpl.
  destruct es as [|e' es].
  - inversion Hvals; subst. rewrite decide_True by (simpl in *; lia).
    by rewrite app_nil_r.
  - rewrite decide_False by (simpl in *; lia). by rewrite <- (assoc_L (++)).
Qed.

Lemma loadDir_count_ok (fs : FileSystem) (dir : string) (s : S) :
  count_ok (loadDir fn fs dir s).2 ≤ 1.
Proof.
  unfold loadDir. destruct (fs dir) as [err|files]; simpl; [lia|].
  etrans; [apply run_count_ok; simpl; lia|]. simpl. lia.
Qed.

(** When listing the directory fails, or reading the kind or the content of
    an entry fails, or the transform throws for an entry, [loadDir] calls
    its callback with that error and never delivers a result. *)
Lemma loadDir_failure (fs : FileSystem) (dir : string) (s : S) (err : JsError) :
  load_fails fn fs dir err →
  CbErr err ∈ (loadDir fn fs dir s).2 ∧
  ∀ result, CbOk result ∉ (loadDir fn fs dir s).2.
Proof.
  intros [Hfs|(files & e & Hfs & He & Hfail)]; unfold loadDir; rewrite Hfs; simpl.
  - split; [by left|]. intros result Hin. by apply list_elem_of_singleton in Hin.
  - destruct (run_failure files
                {| acc_c := Z.of_nat (length files); acc_result := [];
                   acc_state := s; acc_calls := [] |} e err) as [Hin Hcount];
      [simpl; lia|done..|].
    split; [done|]. by apply count_ok_zero.
Qed.

Lemma loadDir_success (fs : FileSystem) (dir : string) (s : S) (files : list Entry) :
  fs dir = inr files → files ≠ [] →
  (∀ e, e ∈ files → ∃ args, entry_args e = Some args ∧
                      ∀ s, ∃ s' v, fn (e_name e) args s = (s', Return v)) →
  ∃ vals, Forall2 (entry_yields fn) files vals ∧
          (loadDir fn fs dir s).2 = [CbOk vals].
Proof.
  intros Hfs Hne Hok. unfold loadDir. rewrite Hfs. simpl.
  destruct (run_success files
              {| acc_c := Z.of_nat (length files); acc_result := [];
                 acc_state := s; acc_calls := [] |}) as (vals & Hvals & Hcalls);
    [done..|].
  exists vals. split; [done|]. rewrite Hcalls. by destruct files.
Qed.

Lemma loadDir_empty (fs : FileSystem) (dir : string) (s : S) :
  fs dir = inr [] → loadDir fn fs dir s = (s, []).
Proof. unfold loadDir. by intros ->. Qed.
End LoadDirFacts.

(** ** A directory entry of another kind *)

(** C2, at a directory that holds a socket: for an entry that is neither a
    regular file, a directory nor a symbolic link, [loadDir] calls neither
    the transform nor its callback; the error the claim expects is never
    reported, and the load never completes. *)
Theorem loadDir_other_kind_never_calls_back :
  Sample.tree_socket "/srv/users"
    = inr [{| e_name := "agent.sock"; e_kind := OtherKind |}] ∧
  loadDir (fun filename contents (s : unit) =>
             (s, userTransform Sample.safeLoad filename contents))
    Sample.tree_socket "/srv/users" tt = (tt, []) ∧
  loadUsers Sample.safeLoad Sample.tree_socket "/srv" = [] ∧
  (load Sample.safeLoad "/srv" Sample.tree_socket Sample.in_order (globals fresh)).2 = [].
Proof. repeat split; vm_compute; reflexivity. Qed.

(** The other causes of failure are reported: a malformed user record makes
    [loadUsers] call back with the parser's error and deliver nothing. *)
Example loadUsers_malformed_record :
  CbErr (YAMLException "unexpected end of the stream")
    ∈ loadUsers Sample.safeLoad Sample.tree_bad_user "/srv" ∧
  ∀ result, CbOk result ∉ loadUsers Sample.safeLoad Sample.tree_bad_user "/srv".
Proof.
  apply loadDir_failure. right.
  exists (Sample.users_ok ++ [Sample.file "mallory.yaml" "{"]),
    (Sample.file "mallory.yaml" "{").
  split; [reflexivity|]. split; [|intros s; reflexivity].
  apply elem_of_app. right. by left.
Qed.

(** ** Concurrent callbacks *)

Lemma count_ok_perm {A} (l1 l2 : list (Callback A)) :
  l1 ≡ₚ l2 → count_ok l1 = count_ok l2.
Proof.
  induction 1 as [|[] ? ? ? IH|[] []|]; simpl; try congruence; done.
Qed.

Lemma count_err_perm {A} (l1 l2 : list (Callback A)) :
  l1 ≡ₚ l2 → count_err l1 = count_err l2.
Proof.
  induction 1 as [|[] ? ? ? IH|[] []|]; simpl; try congruence; done.
Qed.

Lemma count_ok_concat {A} (traces : list (list (Callback A))) :
  count_ok (concat traces) = sum_list (count_ok <$> traces).
Proof.
  induction traces as [|t traces IH]; simpl; [done|].
  by rewrite count_ok_app, IH.
Qed.

Lemma count_err_concat {A} (traces : list (list (Callback A))) :
  count_err (concat traces) = sum_list (count_err <$> traces).
Proof.
  induction traces as [|t traces IH]; simpl; [done|].
  by rewrite count_err_app, IH.
Qed.

Lemma concat_tagged {A} (tag : nat -> nat) (traces : list (list A)) :
  (concat (imap (fun i trace => pair (tag i) <$> trace) traces)).*2 = concat traces.
Proof.
  revert tag. induction traces as [|t traces IH]; intros tag; simpl; [done|].
  rewrite fmap_app. f_equal.
  - rewrite <- list_fmap_compose. clear.
    induction t as [|x t IHt]; [done|]. simpl. f_equal. exact IHt.
  - apply (IH (tag ∘ Datatypes.S)).
Qed.

Lemma concat_insert_head {A} (traces : list (list A)) (i : nat) (x : A) (t : list A) :
  traces !! i = Some (x :: t) →
  concat traces ≡ₚ x :: concat (<[i := t]> traces).
Proof.
  revert i. induction traces as [|t' traces IH]; intros [|i] Hi; simplify_eq/=.
  - done.
  - rewrite (IH i Hi). by rewrite Permutation_middle.
Qed.

(** An interleaving delivers the calls of every operation, each once. *)
Lemma interleave_perm {A} (sched : list nat) (traces : list (list A)) :
  (interleave sched traces).*2 ≡ₚ concat traces.
Proof.
  revert traces. induction sched as [|i sched IH]; intros traces; simpl.
  - by rewrite (concat_tagged id).
  - destruct (traces !! i) as [[|x t]|] eqn:Hi; [apply IH| |apply IH].
    simpl. rewrite IH. symmetry. by apply concat_insert_head.
Qed.

(** Every arrival order is the interleaving of some schedule. *)
Lemma interleave_arrival {A} (traces : list (list A)) (evs : list (nat * A)) :
  arrival traces evs → interleave evs.*1 traces = evs.
Proof.
  induction 1 as [traces Hnil|traces i x trace evs Hi _ IH];
    rewrite ?fmap_cons; simpl.
  - assert (∀ tag : nat → nat,
              concat (imap (fun i trace => pair (tag i) <$> trace) traces) = [])
      as Hflush; [|apply (Hflush id)].
    induction Hnil as [|trace traces -> _ IH]; intros tag; simpl; [done|].
    apply (IH (tag ∘ Datatypes.S)).
  - by rewrite Hi, IH.
Qed.

Lemma interleave_count_ok {A} (sched : list nat) (traces : list (list (Callback A))) :
  count_ok (interleave sched traces).*2 = sum_list (count_ok <$> traces).
Proof. by rewrite (count_ok_perm _ _ (interleave_perm sched traces)), count_ok_concat. Qed.

Lemma interleave_count_err {A} (sched : list nat) (traces : list (list (Callback A))) :
  count_err (interleave sched traces).*2 = sum_list (count_err <$> traces).
Proof. by rewrite (count_err_perm _ _ (interleave_perm sched traces)), count_err_concat. Qed.

(** [async.parallel] calls the final callback at most once. *)
Lemma parallel_once {V} (n : nat) (results : list (option V)) (completed : nat)
    (evs : list (nat * Callback V)) :
  parallel n results completed evs = [] ∨
  (∃ err, parallel n results completed evs = [CbErr err] ∧ CbErr err ∈ evs.*2) ∨
  (∃ out, parallel n results completed evs = [CbOk out] ∧
          n ≤ completed + count_ok evs.*2).
Proof.
  revert results completed.
  induction evs as [|[i [err|v]] evs IH]; intros results completed;
    rewrite ?fmap_cons; simpl.
  - by left.
  - right; left. exists err. split; [done|by left].
  - case_decide as Hn.
    + right; right. eexists. split; [done|lia].
    + destruct (IH (<[i:=Some v]> results) (Datatypes.S completed))
        as [->|[(err & -> & Herr)|(out & -> & Hout)]].
      * by left.
      * right; left. exists err. split; [done|by right].
      * right; right. exists out. split; [done|lia].
Qed.

(** Without an error and with fewer results than tasks, the final callback
    is never called. *)
Lemma parallel_pending {V} (n : nat) (results : list (option V)) (completed : nat)
    (evs : list (nat * Callback V)) :
  count_err evs.*2 = 0 → completed + count_ok evs.*2 < n →
  parallel n results completed evs = [].
Proof.
  intros Herr Hok.
  destruct (parallel_once n results completed evs)
    as [->|[(err & _ & Hin)|(out & _ & Hout)]]; [done| |lia].
  by apply count_err_zero in Hin.
Qed.

(** ** loadLayers *)

Lemma loadDir_state_inv {S V : Type}
    (fn : string -> option string -> S -> S * Completion V) (P : S -> Prop)
    (fs : FileSystem) (dir : string) (s : S) :
  (∀ file contents s, P s → P (fn file contents s).1) →
  P s → P (loadDir fn fs dir s).1.
Proof.
  intros Hfn Hs. unfold loadDir. destruct (fs dir) as [err|files]; [done|]. simpl.
  assert (∀ a, P (acc_state a) → P (acc_state (foldl (on_entry fn) a files))) as Hrun.
  { induction files as [|e files IH]; intros a Ha; simpl; [done|].
    apply IH. unfold on_entry, accumulate, fail.
    destruct (e_kind e) as [?|[?|contents]| | |]; simpl; try done.
    - specialize (Hfn (e_name e) (Some contents) _ Ha).
      by destruct (fn (e_name e) (Some contents) (acc_state a)) as [s' [?|?]].
    - specialize (Hfn (e_name e) None _ Ha).
      by destruct (fn (e_name e) None (acc_state a)) as [s' [?|?]].
    - specialize (Hfn (e_name e) None _ Ha).
      by destruct (fn (e_name e) None (acc_state a)) as [s' [?|?]]. }
  by apply Hrun.
Qed.

Lemma sum_list_at_most_one {A} (f : A -> nat) (l : list A) :
  Forall (fun x => f x ≤ 1) l → sum_list (f <$> l) ≤ length l.
Proof. induction 1; csimpl; lia. Qed.

Lemma sum_list_below_length {A} (f : A -> nat) (l : list A) (i : nat) (x : A) :
  Forall (fun x => f x ≤ 1) l → l !! i = Some x → f x = 0 →
  sum_list (f <$> l) < length l.
Proof.
  intros Hl. revert i. induction Hl as [|y l Hy Hl IH]; intros [|i] Hi Hx;
    simplify_eq/=; csimpl.
  - pose proof (sum_list_at_most_one f l Hl). lia.
  - specialize (IH i Hi Hx). lia.
Qed.

Lemma join_scans_spent (layers : list RawLayer) (c : Z)
    (evs : list (nat * Callback (list unit))) :
  (c ≤ 0)%Z → count_ok (join_scans layers c evs) = 0.
Proof.
  revert c. induction evs as [|[i [err|v]] evs IH]; intros c Hc; simpl; [done|..].
  - by apply IH.
  - rewrite decide_False by lia. apply IH. lia.
Qed.

(** The countdown of [loadLayers] delivers the layers at most once. *)
Lemma join_scans_count_ok (layers : list RawLayer) (c : Z)
    (evs : list (nat * Callback (list unit))) :
  count_ok (join_scans layers c evs) ≤ 1.
Proof.
  revert c. induction evs as [|[i [err|v]] evs IH]; intros c; simpl; [lia|..].
  - apply IH.
  - case_decide as Hc; simpl; [|apply IH].
    rewrite join_scans_spent by lia. lia.
Qed.

(** While fewer scans have completed than there are layers, the layers are
    not delivered. *)
Lemma join_scans_pending (layers : list RawLayer) (c : Z)
    (evs : list (nat * Callback (list unit))) :
  (Z.of_nat (count_ok evs.*2) < c)%Z → count_ok (join_scans layers c evs) = 0.
Proof.
  revert c. induction evs as [|[i [err|v]] evs IH]; intros c;
    rewrite ?fmap_cons; simpl; [done|..]; intros Hc.
  - by apply IH.
  - rewrite decide_False by lia. apply IH. lia.
Qed.

Section LoadLayersFacts.
Local Arguments Js.join : simpl never.
Variable fs : FileSystem.
Variable dir : string.

Lemma memberTransform_ids (i : nat) (linkname : string) (contents : option string)
    (layers : list RawLayer) :
  rl_id <$> (memberTransform i linkname contents layers).1 = rl_id <$> layers.
Proof.
  unfold memberTransform. simpl. apply list_eq. intros j.
  rewrite !list_lookup_fmap. destruct (decide (i = j)) as [->|Hne].
  - rewrite list_lookup_alter_eq. by destruct (layers !! j).
  - by rewrite list_lookup_alter_ne.
Qed.

(** The scans of the first [k] layers: the layer objects keep their ids,
    every scan delivers at most once, and the scan of a layer whose
    directory lists as empty never calls back. *)
Lemma scan_layers_inv (layers : list RawLayer) (k : nat) :
  k ≤ length layers →
  rl_id <$> (foldl (scan_layer fs dir) (layers, []) (seq 0 k)).1 = rl_id <$> layers ∧
  length (foldl (scan_layer fs dir) (layers, []) (seq 0 k)).2 = k ∧
  Forall (fun trace => count_ok trace ≤ 1)
    (foldl (scan_layer fs dir) (layers, []) (seq 0 k)).2 ∧
  ∀ i layer, i < k → layers !! i = Some layer →
             fs (Js.join "/" [dir; "layers"; rl_id layer]) = inr [] →
             (foldl (scan_layer fs dir) (layers, []) (seq 0 k)).2 !! i = Some [].
Proof.
  induction k as [|k IH]; intros Hk.
  { simpl. repeat split; [constructor|]. intros; lia. }
  rewrite seq_S, foldl_app. simpl.
  destruct IH as (Hids & Hlen & Hcount & Hempty); [lia|].
  destruct (foldl (scan_layer fs dir) (layers, []) (seq 0 k)) as [ls ts].
  simpl in *.
  assert (is_Some (ls !! k)) as [layer Hlayer].
  { apply lookup_lt_is_Some. rewrite <- (length_fmap rl_id), Hids, length_fmap. lia. }
  rewrite Hlayer.
  assert ((rl_id <$> layers) !! k = Some (rl_id layer)) as Hid.
  { by rewrite <- Hids, list_lookup_fmap, Hlayer. }
  pose (ls1 := <[k:={| rl_id := rl_id layer; rl_users := Some [] |}]> ls).
  assert (rl_id <$> ls1 = rl_id <$> layers) as Hids1.
  { unfold ls1. rewrite list_fmap_insert. simpl. rewrite Hids.
    by apply list_insert_id. }
  pose proof (loadDir_state_inv (memberTransform k)
                (fun s => rl_id <$> s = rl_id <$> layers) fs
                (Js.join "/" [dir; "layers"; rl_id layer]) ls1) as Hstate.
  pose proof (loadDir_count_ok (memberTransform k) fs
                (Js.join "/" [dir; "layers"; rl_id layer]) ls1) as Hone.
  pose proof (loadDir_empty (memberTransform k) fs
                (Js.join "/" [dir; "layers"; rl_id layer]) ls1) as Hnil.
  fold ls1.
  destruct (loadDir (memberTransform k) fs
              (Js.join "/" [dir; "layers"; rl_id layer]) ls1) as [ls2 calls].
  simpl in *. split; [|split; [|split]].
  - apply Hstate; [|done]. intros file contents s Hs.
    rewrite <- Hs. exact (memberTransform_ids k file contents s).
  - rewrite length_app. simpl. lia.
  - apply Forall_app. split; [done|]. by constructor.
  - intros i layer' Hi Hlayer' Hfs.
    destruct (decide (i = k)) as [->|Hne].
    + rewrite list_lookup_fmap, Hlayer' in Hid. injection Hid as Hid.
      rewrite lookup_app_r by lia. rewrite Hlen, Nat.sub_diag. simpl.
      rewrite Hid in Hfs. by injection (Hnil Hfs) as _ ->.
    + rewrite lookup_app_l by lia. apply (Hempty i layer'); [lia|done..].
Qed.

Lemma on_layers_count_ok (sched : list nat) (ev : Callback (list RawLayer)) :
  count_ok (on_layers fs dir sched ev) ≤ count_ok [ev].
Proof.
  destruct ev as [err|layers]; simpl; [lia|].
  destruct (foldl (scan_layer fs dir) (layers, []) (seq 0 (length layers))).
  apply join_scans_count_ok.
Qed.

(** [loadLayers] delivers at most once. *)
Lemma loadLayers_count_ok (sched : list nat) :
  count_ok (loadLayers fs dir sched) ≤ 1.
Proof.
  unfold loadLayers.
  assert (∀ stubs, count_ok (flat_map (on_layers fs dir sched) stubs) ≤ count_ok stubs)
    as Hflat.
  { induction stubs as [|ev stubs IH]; simpl; [lia|].
    rewrite count_ok_app. pose proof (on_layers_count_ok sched ev).
    destruct ev; simpl in *; lia. }
  etrans; [apply Hflat|]. apply loadDir_count_ok.
Qed.

(** A layer whose directory lists as empty keeps [loadLayers] from ever
    delivering. *)
Lemma loadLayers_empty_layer (sched : list nat) (layers : list RawLayer)
    (layer : RawLayer) :
  layerStubs fs dir = [CbOk layers] → layer ∈ layers →
  fs (Js.join "/" [dir; "layers"; rl_id layer]) = inr [] →
  count_ok (loadLayers fs dir sched) = 0.
Proof.
  intros Hstubs Hin Hfs. unfold loadLayers. rewrite Hstubs. simpl.
  rewrite app_nil_r.
  apply list_elem_of_lookup in Hin as [i Hi].
  destruct (scan_layers_inv layers (length layers)) as (_ & Hlen & Hcount & Hempty);
    [done|].
  destruct (foldl (scan_layer fs dir) (layers, []) (seq 0 (length layers)))
    as [ls ts]. simpl in *.
  apply join_scans_pending. rewrite interleave_count_ok.
  assert (sum_list (count_ok <$> ts) < length ts); [|lia].
  apply (sum_list_below_length _ ts i []); [done| |done].
  apply (Hempty i layer); [|done..]. by apply lookup_lt_Some in Hi.
Qed.

Lemma loadLayers_empty (sched : list nat) :
  fs (Js.join "/" [dir; "layers"]) = inr [] → loadLayers fs dir sched = [].
Proof.
  intros Hfs. unfold loadLayers, layerStubs. by rewrite loadDir_empty.
Qed.
End LoadLayersFacts.

(** ** load *)

Section LoadFacts.
Variable safeLoad : option string -> Completion (option Doc).

(** A load pass does one of four things: it never calls back; it calls back
    once with an error a task reported; or, all three tasks having
    delivered, it runs [buildDataStore], which throws, and then the pass
    never calls back, or which returns a store, and then the pass assigns
    it to [store] and calls back with it.  Only the last assigns
    [store]. *)
Lemma load_cases (dir : string) (fs : FileSystem) (sched : Schedule) (g : Globals) :
  let log := (load_tasks safeLoad dir fs sched (logged g)).1 in
  let evs := task_calls safeLoad dir fs sched (logged g) in
  (load safeLoad dir fs sched g
     = ({| store := store g; logged := log; inherited := inherited g |}, [])) ∨
  (∃ err, load safeLoad dir fs sched g
            = ({| store := store g; logged := log; inherited := inherited g |},
               [CbErr err]) ∧
          CbErr err ∈ evs.*2) ∨
  (∃ result err,
     built_store (buildDataStore (outlived (inherited g)) (raw_store dir result) log)
       = Throw err ∧
     load safeLoad dir fs sched g
       = ({| store := store g;
             logged := built_log (buildDataStore (outlived (inherited g))
                                    (raw_store dir result) log);
             inherited := built_inherited (buildDataStore (outlived (inherited g))
                                             (raw_store dir result) log) |}, []) ∧
     3 ≤ count_ok evs.*2) ∨
  (∃ result built,
     built_store (buildDataStore (outlived (inherited g)) (raw_store dir result) log)
       = Return built ∧
     load safeLoad dir fs sched g
       = ({| store := Some built;
             logged := built_log (buildDataStore (outlived (inherited g))
                                    (raw_store dir result) log) ++ [DebugStore];
             inherited := built_inherited (buildDataStore (outlived (inherited g))
                                             (raw_store dir result) log) |},
          [CbOk built]) ∧
     3 ≤ count_ok evs.*2).
Proof.
  intros log evs. unfold load, task_calls in *. subst log evs.
  destruct (load_tasks safeLoad dir fs sched (logged g)) as [log traces]. simpl.
  destruct (parallel_once 3 [None; None; None] 0 (interleave (sched_tasks sched) traces))
    as [->|[(err & -> & Herr)|(out & -> & Hout)]].
  - by left.
  - right; left. by exists err.
  - right; right. simpl.
    destruct (built_store (buildDataStore (outlived (inherited g)) (raw_store dir out) log))
      as [err|built] eqn:Hbuilt.
    + left. by exists out, err.
    + right. by exists out, built.
Qed.

(** When a load pass reports an error, that is the one call it makes of its
    callback, and [store] is what it was. *)
Lemma load_failure (dir : string) (fs : FileSystem) (sched : Schedule)
    (g : Globals) (err : JsError) :
  CbErr err ∈ (load safeLoad dir fs sched g).2 →
  (load safeLoad dir fs sched g).2 = [CbErr err] ∧
  store (load safeLoad dir fs sched g).1 = store g.
Proof.
  destruct (load_cases dir fs sched g)
    as [->|[(err' & -> & _)|[(result & err' & _ & -> & _)|(result & built & _ & -> & _)]]];
    simpl; intros Hin.
  - inversion Hin.
  - apply list_elem_of_singleton in Hin. by simplify_eq.
  - inversion Hin.
  - by apply list_elem_of_singleton in Hin.
Qed.

(** A store delivered by a load pass is the output of [buildDataStore], and
    is the store installed. *)
Lemma load_success (dir : string) (fs : FileSystem) (sched : Schedule)
    (g : Globals) (built : Store) :
  CbOk built ∈ (load safeLoad dir fs sched g).2 →
  (load safeLoad dir fs sched g).2 = [CbOk built] ∧
  store (load safeLoad dir fs sched g).1 = Some built ∧
  ∃ raw log,
    built_store (buildDataStore (outlived (inherited g)) raw log) = Return built ∧
    inherited (load safeLoad dir fs sched g).1
      = built_inherited (buildDataStore (outlived (inherited g)) raw log).
Proof.
  destruct (load_cases dir fs sched g)
    as [->|[(err' & -> & _)|[(result & err' & _ & -> & _)|(result & b & Hb & -> & _)]]];
    simpl; intros Hin.
  - inversion Hin.
  - by apply list_elem_of_singleton in Hin.
  - inversion Hin.
  - apply list_elem_of_singleton in Hin. injection Hin as ->.
    split; [done|]. split; [done|]. by eexists _, _.
Qed.

Lemma cb_map_error {A B} (f : A -> B) (calls : list (Callback A)) (err : JsError) :
  CbErr err ∈ cb_map f <$> calls → CbErr err ∈ calls.
Proof.
  intros Hin. apply list_elem_of_fmap in Hin as ([err'|v] & Heq & Hin);
    simpl in Heq; [|done]. by injection Heq as ->.
Qed.

(** An error a load pass reports is an error that one of the three tasks
    reported. *)
Lemma load_error_task (dir : string) (fs : FileSystem) (sched : Schedule)
    (g : Globals) (err : JsError) :
  CbErr err ∈ (load safeLoad dir fs sched g).2 →
  CbErr err ∈ (loadGroups safeLoad fs dir (logged g)).2 ∨
  CbErr err ∈ loadUsers safeLoad fs dir ∨
  CbErr err ∈ loadLayers fs dir (sched_scans sched).
Proof.
  intros Hin.
  destruct (load_cases dir fs sched g)
    as [Hl|[(err' & Hl & Herr)|[(result & err' & _ & Hl & _)
                                |(result & built & _ & Hl & _)]]];
    rewrite Hl in Hin; [by apply elem_of_nil in Hin| |by apply elem_of_nil in Hin
                       |by apply list_elem_of_singleton in Hin].
  apply list_elem_of_singleton in Hin. injection Hin as <-.
  unfold task_calls, load_tasks in Herr. rewrite interleave_perm in Herr.
  destruct (loadGroups safeLoad fs dir (logged g)) as [log' groups].
  simpl in Herr. rewrite app_nil_r, !elem_of_app in Herr. simpl.
  destruct Herr as [Herr|[Herr|Herr]]; apply cb_map_error in Herr; auto.
Qed.

(** A load pass assigns [store] only when it delivers. *)
Lemma load_store (dir : string) (fs : FileSystem) (sched : Schedule) (g : Globals) :
  store (load safeLoad dir fs sched g).1 = store g ∨
  ∃ built, CbOk built ∈ (load safeLoad dir fs sched g).2.
Proof.
  destruct (load_cases dir fs sched g)
    as [->|[(err' & -> & _)|[(result & err' & _ & -> & _)|(result & b & Hb & -> & _)]]];
    simpl; [by left..|].
  right. exists b. by left.
Qed.
End LoadFacts.

(** ** A failed load pass *)

Lemma publicKeys_store (g g' : Globals) (uid : string) :
  store g' = store g → publicKeys g' uid = publicKeys g uid.
Proof. unfold publicKeys, findUser. by intros ->. Qed.

(** C1: a load pass that reports an error makes that one call of its
    callback and does not assign [store], so every query is answered as
    before; [store] is assigned only together with the delivery of a store
    that [buildDataStore] has built; and a reload that fails leaves the
    installed store in place, logs the error, and leaves the watcher
    ready. *)
Theorem failed_load_keeps_store
    (safeLoad : option string -> Completion (option Doc)) :
  (∀ dir fs sched g err,
     CbErr err ∈ (load safeLoad dir fs sched g).2 →
     (load safeLoad dir fs sched g).2 = [CbErr err] ∧
     store (load safeLoad dir fs sched g).1 = store g ∧
     ∀ uid, publicKeys (load safeLoad dir fs sched g).1 uid = publicKeys g uid) ∧
  (∀ dir fs sched g,
     store (load safeLoad dir fs sched g).1 ≠ store g →
     ∃ inh raw log built,
       built_store (buildDataStore inh raw log) = Return built ∧
       store (load safeLoad dir fs sched g).1 = Some built ∧
       (load safeLoad dir fs sched g).2 = [CbOk built]) ∧
  (∀ ctl w watcher fs sched err,
     watchers ctl !! w = Some watcher → w_ready watcher = true →
     CbErr err ∈ (load safeLoad (w_dir watcher) fs sched (reload_globals ctl)).2 →
     store (globals (on_all safeLoad w fs sched ctl).1) = store (globals ctl) ∧
     (∀ uid, publicKeys (globals (on_all safeLoad w fs sched ctl).1) uid
             = publicKeys (globals ctl) uid) ∧
     watchers (on_all safeLoad w fs sched ctl).1 = watchers ctl ∧
     ErrLoad err ∈ logged (globals (on_all safeLoad w fs sched ctl).1)).
Proof.
  split; [|split].
  - intros dir fs sched g err Hin.
    destruct (load_failure safeLoad dir fs sched g err Hin) as [Hcalls Hstore].
    repeat split; [done..|]. intros uid. by apply publicKeys_store.
  - intros dir fs sched g Hstore.
    destruct (load_store safeLoad dir fs sched g) as [?|[built Hin]]; [done|].
    destruct (load_success safeLoad dir fs sched g built Hin)
      as (Hcalls & Hbuilt & raw & log & Hb & _).
    by eexists _, raw, log, built.
  - intros ctl w watcher fs sched err Hw Hready Hin.
    destruct (load_failure safeLoad _ fs sched _ err Hin) as [Hcalls Hstore].
    unfold on_all. rewrite Hw, Hready. simpl.
    destruct (load safeLoad (w_dir watcher) fs sched (reload_globals ctl))
      as [g calls]. simpl in *. subst calls. simpl.
    split; [done|]. split; [intros uid; by apply publicKeys_store|].
    split; [done|]. apply elem_of_app. right. by left.
Qed.

Lemma failed_load_keeps_store_witness :
  let ctl := (run Sample.safeLoad fresh
                [Initialize "/srv"; WatchReady 0 Sample.tree Sample.in_order]).1 in
  let ctl' := (on_all Sample.safeLoad 0 Sample.tree_bad_user Sample.in_order ctl).1 in
  watchers ctl !! 0 = Some {| w_dir := "/srv"; w_ready := true |} ∧
  CbErr (YAMLException "unexpected end of the stream")
    ∈ (load Sample.safeLoad "/srv" Sample.tree_bad_user Sample.in_order
         (reload_globals ctl)).2 ∧
  publicKeys (globals ctl) "alice" = Return (Some ["ssh-rsa AAAA"]) ∧
  store (globals ctl') = store (globals ctl) ∧
  (∀ uid, publicKeys (globals ctl') uid = publicKeys (globals ctl) uid) ∧
  watchers ctl' = watchers ctl ∧
  ErrLoad (YAMLException "unexpected end of the stream") ∈ logged (globals ctl').
Proof.
  intros ctl ctl'.
  assert (watchers ctl !! 0 = Some {| w_dir := "/srv"; w_ready := true |}) as Hw
    by (vm_compute; reflexivity).
  assert (CbErr (YAMLException "unexpected end of the stream")
            ∈ (load Sample.safeLoad "/srv" Sample.tree_bad_user Sample.in_order
                 (reload_globals ctl)).2) as Hfail.
  { replace (load Sample.safeLoad "/srv" Sample.tree_bad_user Sample.in_order
               (reload_globals ctl)).2
      with [CbErr (A := Store) (YAMLException "unexpected end of the stream")]
      by (vm_compute; reflexivity).
    by left. }
  split; [exact Hw|]. split; [exact Hfail|].
  split; [vm_compute; reflexivity|].
  exact (proj2 (proj2 (failed_load_keeps_store Sample.safeLoad)) ctl 0
           {| w_dir := "/srv"; w_ready := true |}
           Sample.tree_bad_user Sample.in_order _ Hw eq_refl Hfail).
Defined.

(** ** Empty directories *)

Section EmptyDirectories.
Variable safeLoad : option string -> Completion (option Doc).

Lemma task_calls_count_ok (dir : string) (fs : FileSystem) (sched : Schedule)
    (log : Log) :
  count_ok (task_calls safeLoad dir fs sched log).*2
  = count_ok (loadGroups safeLoad fs dir log).2
    + count_ok (loadUsers safeLoad fs dir)
    + count_ok (loadLayers fs dir (sched_scans sched)).
Proof.
  unfold task_calls, load_tasks.
  destruct (loadGroups safeLoad fs dir log) as [log' groups]. simpl.
  rewrite interleave_count_ok. csimpl. rewrite !count_ok_fmap. lia.
Qed.

Lemma task_calls_count_err (dir : string) (fs : FileSystem) (sched : Schedule)
    (log : Log) :
  count_err (task_calls safeLoad dir fs sched log).*2
  = count_err (loadGroups safeLoad fs dir log).2
    + count_err (loadUsers safeLoad fs dir)
    + count_err (loadLayers fs dir (sched_scans sched)).
Proof.
  unfold task_calls, load_tasks.
  destruct (loadGroups safeLoad fs dir log) as [log' groups]. simpl.
  rewrite interleave_count_err. csimpl. rewrite !count_err_fmap. lia.
Qed.

(** With an empty directory in the tree, fewer than three tasks deliver. *)
Lemma empty_dir_count_ok (dir : string) (fs : FileSystem) (sched : Schedule)
    (log : Log) :
  has_empty_dir fs dir → count_ok (task_calls safeLoad dir fs sched log).*2 < 3.
Proof.
  intros Hempty. rewrite task_calls_count_ok.
  pose proof (loadDir_count_ok (groupTransform safeLoad) fs
                (Js.join "/" [dir; "groups"]) log) as Hgroups.
  pose proof (loadDir_count_ok
                (fun filename contents (s : unit) =>
                   (s, userTransform safeLoad filename contents)) fs
                (Js.join "/" [dir; "users"]) tt) as Husers.
  pose proof (loadLayers_count_ok fs dir (sched_scans sched)) as Hlayers.
  fold (loadGroups safeLoad fs dir log) in Hgroups.
  fold (loadUsers safeLoad fs dir) in Husers.
  destruct Hempty as [Hfs|[Hfs|[Hfs|(layers & layer & Hstubs & Hin & Hfs)]]].
  - assert (loadUsers safeLoad fs dir = []) as ->; [|simpl; lia].
    unfold loadUsers. by rewrite loadDir_empty.
  - assert ((loadGroups safeLoad fs dir log).2 = []) as ->; [|simpl; lia].
    unfold loadGroups. by rewrite loadDir_empty.
  - rewrite (loadLayers_empty fs dir _ Hfs). simpl. lia.
  - rewrite (loadLayers_empty_layer fs dir _ layers layer Hstubs Hin Hfs). lia.
Qed.

(** With an empty directory in the tree, a load pass never delivers a store
    and never assigns [store]; it calls back, with an error, only when a
    task reports one, and then once, with the error of a task. *)
Lemma load_empty_dir (dir : string) (fs : FileSystem) (sched : Schedule)
    (g : Globals) :
  has_empty_dir fs dir →
  store (load safeLoad dir fs sched g).1 = store g ∧
  (∀ built, CbOk built ∉ (load safeLoad dir fs sched g).2) ∧
  ((∀ err, CbErr err ∉ (loadGroups safeLoad fs dir (logged g)).2) →
   (∀ err, CbErr err ∉ loadUsers safeLoad fs dir) →
   (∀ err, CbErr err ∉ loadLayers fs dir (sched_scans sched)) →
   (load safeLoad dir fs sched g).2 = []) ∧
  (∀ err, CbErr err ∈ (load safeLoad dir fs sched g).2 →
          (load safeLoad dir fs sched g).2 = [CbErr err] ∧
          (CbErr err ∈ (loadGroups safeLoad fs dir (logged g)).2 ∨
           CbErr err ∈ loadUsers safeLoad fs dir ∨
           CbErr err ∈ loadLayers fs dir (sched_scans sched))).
Proof.
  intros Hempty.
  assert (∀ err, CbErr err ∈ (load safeLoad dir fs sched g).2 →
                 (load safeLoad dir fs sched g).2 = [CbErr err] ∧
                 (CbErr err ∈ (loadGroups safeLoad fs dir (logged g)).2 ∨
                  CbErr err ∈ loadUsers safeLoad fs dir ∨
                  CbErr err ∈ loadLayers fs dir (sched_scans sched))) as Herrors.
  { intros err Hin. split; [by apply load_failure|by apply load_error_task]. }
  revert Herrors.
  pose proof (empty_dir_count_ok dir fs sched (logged g) Hempty) as Hcount.
  destruct (load_cases safeLoad dir fs sched g)
    as [->|[(err & -> & Herr)|[(result & err & _ & _ & Hok)|(result & b & _ & _ & Hok)]]];
    simpl; [..|lia|lia]; intros Herrors.
  - split; [done|]. split; [|done]. intros built Hin. inversion Hin.
  - split; [done|]. split; [|split; [|done]].
    + intros built Hin. by apply list_elem_of_singleton in Hin.
    + intros Hg Hu Hl. exfalso.
      assert (count_err (task_calls safeLoad dir fs sched (logged g)).*2 = 0) as Hzero.
      { rewrite task_calls_count_err.
        apply count_err_zero in Hg, Hu, Hl. lia. }
      by apply count_err_zero in Herr.
Qed.
End EmptyDirectories.

(** C8, as amended: for a directory that lists as empty, [loadDir] never
    calls its callback; so a load pass over a tree in which [users/],
    [groups/], [layers/] or the directory of a layer lists as empty never
    delivers a store and never assigns [store], and it calls back at all
    only when one of the three tasks reports an error, and then once, with
    the error of a task. *)
Theorem empty_directory_never_delivers
    (safeLoad : option string -> Completion (option Doc)) :
  (∀ (S V : Type) (fn : string -> option string -> S -> S * Completion V)
     (fs : FileSystem) (dir : string) (s : S),
     fs dir = inr [] → loadDir fn fs dir s = (s, [])) ∧
  (∀ dir fs sched g,
     has_empty_dir fs dir →
     store (load safeLoad dir fs sched g).1 = store g ∧
     (∀ built, CbOk built ∉ (load safeLoad dir fs sched g).2) ∧
     ((∀ err, CbErr err ∉ (loadGroups safeLoad fs dir (logged g)).2) →
      (∀ err, CbErr err ∉ loadUsers safeLoad fs dir) →
      (∀ err, CbErr err ∉ loadLayers fs dir (sched_scans sched)) →
      (load safeLoad dir fs sched g).2 = []) ∧
     (∀ err, CbErr err ∈ (load safeLoad dir fs sched g).2 →
             (load safeLoad dir fs sched g).2 = [CbErr err] ∧
             (CbErr err ∈ (loadGroups safeLoad fs dir (logged g)).2 ∨
              CbErr err ∈ loadUsers safeLoad fs dir ∨
              CbErr err ∈ loadLayers fs dir (sched_scans sched)))).
Proof.
  split.
  - intros S V fn fs dir s. apply loadDir_empty.
  - intros dir fs sched g. apply load_empty_dir.
Qed.

Lemma empty_directory_never_delivers_witness :
  Sample.tree_no_users "/srv/users" = inr [] ∧
  loadDir (fun filename contents (s : unit) =>
             (s, userTransform Sample.safeLoad filename contents))
    Sample.tree_no_users "/srv/users" tt = (tt, []) ∧
  has_empty_dir Sample.tree_no_users "/srv" ∧
  store (load Sample.safeLoad "/srv" Sample.tree_no_users Sample.in_order
           (globals fresh)).1 = None ∧
  ∀ built, CbOk built ∉ (load Sample.safeLoad "/srv" Sample.tree_no_users
                           Sample.in_order (globals fresh)).2.
Proof.
  destruct (empty_directory_never_delivers Sample.safeLoad) as [Hdir Hload].
  assert (has_empty_dir Sample.tree_no_users "/srv") as Hempty by (left; reflexivity).
  split; [reflexivity|]. split; [exact (Hdir _ _ _ _ "/srv/users" tt eq_refl)|].
  split; [exact Hempty|].
  destruct (Hload "/srv" Sample.tree_no_users Sample.in_order (globals fresh) Hempty)
    as (Hstore & Hnone & _).
  split; [exact Hstore|exact Hnone].
Defined.

(** C8, as stated, fails: over a tree whose [users/] is empty and whose
    [groups/] cannot be listed, the load pass completes, with the error of
    [groups/]. *)
Lemma empty_users_load_completes_with_error :
  Sample.tree_no_users_no_groups "/srv/users" = inr [] ∧
  loadUsers Sample.safeLoad Sample.tree_no_users_no_groups "/srv" = [] ∧
  (load Sample.safeLoad "/srv" Sample.tree_no_users_no_groups Sample.in_order
     (globals fresh)).2 = [CbErr (FsError "ENOENT" "/srv/groups")].
Proof. repeat split; vm_compute; reflexivity. Qed.

(** ** Parse failures *)

Lemma groupTransform_returns
    (safeLoad : option string -> Completion (option Doc))
    (filename : string) (contents : option string) (doc : option Doc) (log : Log) :
  safeLoad contents = Return doc →
  ∃ log' v, groupTransform safeLoad filename contents log = (log', Return v).
Proof.
  intros Hdoc. unfold groupTransform. rewrite Hdoc.
  destruct doc as [[[]|group]|]; [by eexists _, _..| |by eexists _, _].
  destruct (y_gidNumber group) as [gid|]; [|by eexists _, _].
  case_decide; by eexists _, _.
Qed.

(** C3, as amended: a group file for which the parser returns nothing (an
    empty document) is skipped, without a log entry, where the same content
    makes the users transform throw; a content on which the parser throws is
    fatal to the groups load as it is to the users load; a non-empty
    [groups/] of readable regular files on none of which the parser throws
    loads successfully, with the skip marker at the place of every empty
    document; and a user file with an empty document is fatal to the users
    load. *)
Theorem group_parse_failure_outcomes
    (safeLoad : option string -> Completion (option Doc)) :
  (∀ filename contents log,
     safeLoad contents = Return None →
     groupTransform safeLoad filename contents log = (log, Return None) ∧
     ∃ message, userTransform safeLoad filename contents = Throw (TypeError message)) ∧
  (∀ fs dir log files e text err,
     e ∈ files → e_kind e = RegularFile (Return text) →
     safeLoad (Some text) = Throw err →
     (fs (Js.join "/" [dir; "groups"]) = inr files →
      CbErr err ∈ (loadGroups safeLoad fs dir log).2 ∧
      ∀ result, CbOk result ∉ (loadGroups safeLoad fs dir log).2) ∧
     (fs (Js.join "/" [dir; "users"]) = inr files →
      CbErr err ∈ loadUsers safeLoad fs dir ∧
      ∀ result, CbOk result ∉ loadUsers safeLoad fs dir)) ∧
  (∀ fs dir log files,
     fs (Js.join "/" [dir; "groups"]) = inr files → files ≠ [] →
     (∀ e, e ∈ files → ∃ text doc, e_kind e = RegularFile (Return text) ∧
                         safeLoad (Some text) = Return doc) →
     ∃ result,
       (loadGroups safeLoad fs dir log).2 = [CbOk result] ∧
       Forall2 (fun e v => ∀ text, e_kind e = RegularFile (Return text) →
                            safeLoad (Some text) = Return None → v = None)
         files result) ∧
  (∀ fs dir files e text,
     e ∈ files → e_kind e = RegularFile (Return text) →
     safeLoad (Some text) = Return None →
     fs (Js.join "/" [dir; "users"]) = inr files →
     (∃ message, CbErr (TypeError message) ∈ loadUsers safeLoad fs dir) ∧
     ∀ result, CbOk result ∉ loadUsers safeLoad fs dir).
Proof.
  split; [|split; [|split]]; cycle 3.
  { intros fs dir files e text He Hkind Hdoc Hfs.
    assert (CbErr (TypeError "Cannot set property 'uid'") ∈ loadUsers safeLoad fs dir ∧
            ∀ result, CbOk result ∉ loadUsers safeLoad fs dir) as [Herr Hnone].
    { apply loadDir_failure. right. exists files, e. repeat split; [done..|].
      unfold entry_fails, userTransform. rewrite Hkind. intros s. simpl.
      by rewrite Hdoc. }
    split; [by eexists|done]. }
  - intros filename contents log Hdoc. unfold groupTransform, userTransform.
    rewrite Hdoc. split; [done|]. by eexists.
  - intros fs dir log files e text err He Hkind Hthrow. split; intros Hfs.
    + apply loadDir_failure. right. exists files, e. repeat split; [done..|].
      unfold entry_fails, groupTransform. rewrite Hkind. intros s.
      by rewrite Hthrow.
    + apply loadDir_failure. right. exists files, e. repeat split; [done..|].
      unfold entry_fails, userTransform. rewrite Hkind. intros s. simpl.
      by rewrite Hthrow.
  - intros fs dir log files Hfs Hne Hfiles.
    destruct (loadDir_success (groupTransform safeLoad) fs
                (Js.join "/" [dir; "groups"]) log files Hfs Hne)
      as (vals & Hvals & Hcalls).
    { intros e He. destruct (Hfiles e He) as (text & doc & Hkind & Hdoc).
      exists (Some text). split; [unfold entry_args; by rewrite Hkind|].
      intros s. by eapply groupTransform_returns. }
    exists vals. split; [done|].
    eapply Forall2_impl; [exact Hvals|].
    intros e v (args & s & s' & Hargs & Hv) text Hkind Hdoc.
    unfold entry_args in Hargs. rewrite Hkind in Hargs. simplify_eq.
    unfold groupTransform in Hv. rewrite Hdoc in Hv. by simplify_eq.
Qed.

Lemma group_parse_failure_outcomes_witness :
  (Sample.safeLoad (Some "") = Return None ∧
   groupTransform Sample.safeLoad "blank.yaml" (Some "") [] = ([], Return None)) ∧
  (Sample.safeLoad (Some "{") = Throw (YAMLException "unexpected end of the stream") ∧
   CbErr (YAMLException "unexpected end of the stream")
     ∈ (loadGroups Sample.safeLoad Sample.tree_bad_group "/srv" []).2) ∧
  ∃ result,
    (loadGroups Sample.safeLoad Sample.tree_empty_group "/srv" []).2 = [CbOk result] ∧
    Forall2 (fun e v => ∀ text, e_kind e = RegularFile (Return text) →
                         Sample.safeLoad (Some text) = Return None → v = None)
      (Sample.groups_ok ++ [Sample.file "blank.yaml" ""]) result.
Proof.
  destruct (group_parse_failure_outcomes Sample.safeLoad)
    as (Hskip & Hthrow & Hload & _).
  split; [split; [reflexivity|]|split; [split; [reflexivity|]|]].
  - exact (proj1 (Hskip "blank.yaml" (Some "") [] eq_refl)).
  - refine (proj1 (proj1 (Hthrow Sample.tree_bad_group "/srv" []
                            (Sample.groups_ok ++ [Sample.file "broken.yaml" "{"])
                            (Sample.file "broken.yaml" "{") "{" _ _ eq_refl eq_refl)
                     eq_refl)).
    apply elem_of_app. right. by left.
  - refine (Hload Sample.tree_empty_group "/srv" []
              (Sample.groups_ok ++ [Sample.file "blank.yaml" ""]) eq_refl _ _).
    + discriminate.
    + intros e He. apply elem_of_app in He as [He|He].
      * apply elem_of_cons in He as [->|He]; [by eexists _, _|].
        apply list_elem_of_singleton in He as ->. by eexists _, _.
      * apply list_elem_of_singleton in He as ->. by eexists _, _.
Defined.

(** C3, as stated, fails: a group file on whose content the parser throws
    makes the groups load, and the load pass, fail with that error. *)
Lemma group_parse_failure_is_fatal :
  Sample.tree_bad_group "/srv/groups"
    = inr (Sample.groups_ok ++ [Sample.file "broken.yaml" "{"]) ∧
  Sample.safeLoad (Some "{") = Throw (YAMLException "unexpected end of the stream") ∧
  (loadGroups Sample.safeLoad Sample.tree_bad_group "/srv" []).2
    = [CbErr (YAMLException "unexpected end of the stream")] ∧
  (load Sample.safeLoad "/srv" Sample.tree_bad_group Sample.in_order
     (globals fresh)).2
    = [CbErr (YAMLException "unexpected end of the stream")].
Proof. repeat split; vm_compute; reflexivity. Qed.

(** ** buildDataStore *)

Lemma index_fold_lookup {A} (key : A -> string) (l : list (nat * A))
    (m : gmap string nat) (k : string) (i : nat) :
  foldl (fun (m : gmap string nat) '(i, x) => <[key x := i]> m) m l !! k = Some i →
  m !! k = Some i ∨ ∃ x, (i, x) ∈ l ∧ key x = k.
Proof.
  revert m. induction l as [|[j x] l IH]; intros m; simpl; [by left|].
  intros Hk. destruct (IH _ Hk) as [Hm|(y & Hy & Hkey)].
  - destruct (decide (key x = k)) as [Heq|Hne].
    + rewrite Heq, lookup_insert_eq in Hm. simplify_eq.
      right. exists x. split; [by left|done].
    + rewrite lookup_insert_ne in Hm by done. by left.
  - right. exists y. split; [by right|done].
Qed.

(** The index of groups maps a name to the position of a group of that
    name. *)
Lemma index_groups_lookup (groups : list Group) (k : string) (i : nat) :
  index_groups groups !! k = Some i →
  ∃ group, groups !! i = Some group ∧ g_cn group = k.
Proof.
  intros Hk. apply index_fold_lookup in Hk as [Hk|(group & Hin & Hkey)].
  - by rewrite lookup_empty in Hk.
  - exists group. split; [|done].
    apply elem_of_lookup_imap in Hin as (j & y & Heq & Hj). by simplify_eq.
Qed.

(** The index of users maps a name to the position of a user of that
    name. *)
Lemma index_users_lookup (users : list (Value RawUser)) (k : string) (i : nat) :
  index_users users !! k = Some i →
  ∃ user, users !! i = Some user ∧ user_key user = k.
Proof.
  intros Hk. apply index_fold_lookup in Hk as [Hk|(user & Hin & Hkey)].
  - by rewrite lookup_empty in Hk.
  - exists user. split; [|done].
    apply elem_of_lookup_imap in Hin as (j & y & Heq & Hj). by simplify_eq.
Qed.

(** A name reads an object of the dictionary only as its own property. *)
Lemma lookup_name_own (inh : Inherited) (own : gmap string nat) (k : string) (i : nat) :
  lookup_name inh own k = Some (Own i) ↔ own !! k = Some i.
Proof.
  unfold lookup_name. destruct (own !! k) as [j|]; [naive_solver|].
  repeat case_decide; try done. by destruct (inh !! "__proto__").
Qed.

(** *** The loops, step by step *)

(** Once an exception is thrown, the loops do nothing more. *)
Lemma resolve_gids_thrown (groups : gmap string nat) (user : nat) (uid : string)
    (ids : list Scalar) (b : Build) (out : list (option Ref)) :
  is_Some (b_thrown b) →
  foldl (resolve_gid groups user uid) (b, out) ids = (b, out).
Proof.
  intros [err Hb]. induction ids as [|gid ids IH]; simpl; [done|].
  by rewrite Hb.
Qed.

Lemma fix_users_thrown (groups : gmap string nat) (users : list (Value RawUser))
    (b : Build) (fixed : list (Value User)) :
  is_Some (b_thrown b) → foldl (fix_user groups) (b, fixed) users = (b, fixed).
Proof.
  intros [err Hb]. induction users as [|user users IH]; simpl; [done|].
  by rewrite Hb.
Qed.

(** One identifier of a user, when no exception is thrown: it reads
    [undefined] and a warning is logged, or it reads an object, onto whose
    [members] the user is pushed. *)
Lemma resolve_gid_step (groups : gmap string nat) (user : nat) (uid : string)
    (b : Build) (out : list (option Ref)) (gid : Scalar) :
  b_thrown (resolve_gid groups user uid (b, out) gid).1 = None →
  b_thrown b = None ∧
  ((lookup_name (b_inherited b) groups (scalar_key gid) = None ∧
    resolve_gid groups user uid (b, out) gid
      = ({| b_heap := b_heap b; b_log := b_log b ++ [WarnGroupNotFound gid uid];
            b_inherited := b_inherited b; b_thrown := None |}, out ++ [None])) ∨
   (∃ r heap inh,
      lookup_name (b_inherited b) groups (scalar_key gid) = Some r ∧
      push_member user r (b_heap b) (b_inherited b) = Return (heap, inh) ∧
      resolve_gid groups user uid (b, out) gid
        = ({| b_heap := heap; b_log := b_log b; b_inherited := inh;
              b_thrown := None |}, out ++ [Some r]))).
Proof.
  unfold resolve_gid. destruct (b_thrown b) as [err|] eqn:Hb; simpl.
  { by rewrite Hb. }
  destruct (lookup_name (b_inherited b) groups (scalar_key gid)) as [r|]; simpl.
  - destruct (push_member user r (b_heap b) (b_inherited b)) as [err|[heap inh]]
      eqn:Hpush; simpl; [done|].
    intros _. split; [done|]. right. by exists r, heap, inh.
  - intros _. split; [done|]. by left.
Qed.

(** Induction over the identifiers of one user, for a loop that throws no
    exception: [Q pre b out] holds of the identifiers [pre] gone through,
    the state [b] and the array of results [out]. *)
Lemma resolve_gids_ind (groups : gmap string nat) (user : nat) (uid : string)
    (Q : list Scalar → Build → list (option Ref) → Prop)
    (b0 : Build) (ids : list Scalar) :
  Q [] b0 [] →
  (∀ pre b out gid,
     pre ++ [gid] `prefix_of` ids → Q pre b out → b_thrown b = None →
     lookup_name (b_inherited b) groups (scalar_key gid) = None →
     Q (pre ++ [gid])
       {| b_heap := b_heap b; b_log := b_log b ++ [WarnGroupNotFound gid uid];
          b_inherited := b_inherited b; b_thrown := None |} (out ++ [None])) →
  (∀ pre b out gid r heap inh,
     pre ++ [gid] `prefix_of` ids → Q pre b out → b_thrown b = None →
     lookup_name (b_inherited b) groups (scalar_key gid) = Some r →
     push_member user r (b_heap b) (b_inherited b) = Return (heap, inh) →
     Q (pre ++ [gid])
       {| b_heap := heap; b_log := b_log b; b_inherited := inh; b_thrown := None |}
       (out ++ [Some r])) →
  b_thrown (foldl (resolve_gid groups user uid) (b0, []) ids).1 = None →
  Q ids (foldl (resolve_gid groups user uid) (b0, []) ids).1
    (foldl (resolve_gid groups user uid) (b0, []) ids).2.
Proof.
  intros Hstart Hwarn Hpush.
  induction ids as [|gid ids IH] using rev_ind; [done|].
  rewrite foldl_app. simpl.
  destruct (foldl (resolve_gid groups user uid) (b0, []) ids) as [b out] eqn:Hfold.
  simpl in IH. intros Hend.
  destruct (resolve_gid_step groups user uid b out gid Hend)
    as [Hb [[Hlook Heq]|(r & heap & inh & Hlook & Hpushed & Heq)]];
    rewrite Heq; simpl.
  - apply Hwarn; [done| |done|done].
    apply IH; [| |done].
    + intros pre b' out' gid' Hpre. apply Hwarn. by apply prefix_app_r.
    + intros pre b' out' gid' r' heap' inh' Hpre. apply Hpush.
      by apply prefix_app_r.
  - eapply Hpush; [done| |done|done|done].
    apply IH; [| |done].
    + intros pre b' out' gid' Hpre. apply Hwarn. by apply prefix_app_r.
    + intros pre b' out' gid' r' heap' inh' Hpre. apply Hpush.
      by apply prefix_app_r.
Qed.

(** Induction over the users, for a loop that throws no exception:
    [P pre b fixed] holds of the users [pre] gone through, the state [b]
    and the users [fixed] made of them. *)
Lemma fix_users_ind (groups : gmap string nat)
    (P : list (Value RawUser) → Build → list (Value User) → Prop) (b0 : Build)
    (users : list (Value RawUser)) :
  P [] b0 [] →
  (∀ pre b fixed truthy,
     pre ++ [Prim truthy] `prefix_of` users → P pre b fixed → b_thrown b = None →
     P (pre ++ [Prim truthy]) (resolve_primary groups None None b).2
       (fixed ++ [Prim truthy])) →
  (∀ pre b fixed user,
     pre ++ [Rec user] `prefix_of` users → P pre b fixed → b_thrown b = None →
     let b1 := (resolve_primary groups (ru_primaryGroup user)
                  (Some (ru_uid user)) b).2 in
     let step := foldl (resolve_gid groups (length fixed) (ru_uid user)) (b1, [])
                   (uniq (default [] (ru_groups user))) in
     b_thrown step.1 = None →
     P (pre ++ [Rec user]) step.1
       (fixed ++ [Rec {| u_uid := ru_uid user; u_cn := ru_cn user;
                         u_publicKeys := ru_publicKeys user;
                         u_primaryGroup :=
                           (resolve_primary groups (ru_primaryGroup user)
                              (Some (ru_uid user)) b).1;
                         u_groups := compact step.2 |}])) →
  b_thrown (foldl (fix_user groups) (b0, []) users).1 = None →
  P users (foldl (fix_user groups) (b0, []) users).1
    (foldl (fix_user groups) (b0, []) users).2.
Proof.
  intros Hstart Hprim Hrec.
  induction users as [|user users IH] using rev_ind; [done|].
  rewrite foldl_app. simpl.
  destruct (foldl (fix_user groups) (b0, []) users) as [b fixed] eqn:Hfold.
  simpl in IH. unfold fix_user.
  destruct (b_thrown b) as [err|] eqn:Hb; simpl; [by rewrite Hb|].
  assert (P users b fixed) as HP.
  { apply IH; [| |done].
    - intros pre b' fixed' truthy Hpre. apply Hprim. by apply prefix_app_r.
    - intros pre b' fixed' user' Hpre. apply Hrec. by apply prefix_app_r. }
  clear IH.
  destruct user as [truthy|user].
  - intros Hend. by apply Hprim.
  - destruct (resolve_primary groups (ru_primaryGroup user) (Some (ru_uid user)) b)
      as [pg b1] eqn:Hprimary.
    destruct (foldl (resolve_gid groups (length fixed) (ru_uid user)) (b1, [])
                (uniq (default [] (ru_groups user)))) as [b2 out] eqn:Hids.
    simpl. intros Hend.
    specialize (Hrec users b fixed user (reflexivity _) HP Hb).
    rewrite Hprimary in Hrec. simpl in Hrec. rewrite Hids in Hrec.
    by apply Hrec.
Qed.

Lemma resolve_primary_state (groups : gmap string nat) (id : option Scalar)
    (uid : option string) (b : Build) :
  b_heap (resolve_primary groups id uid b).2 = b_heap b ∧
  b_inherited (resolve_primary groups id uid b).2 = b_inherited b ∧
  b_thrown (resolve_primary groups id uid b).2 = b_thrown b ∧
  b_log b `prefix_of` b_log (resolve_primary groups id uid b).2.
Proof.
  unfold resolve_primary.
  destruct (lookup_name (b_inherited b) groups (prop_key id)); simpl;
    repeat split; try done. by apply prefix_app_r.
Qed.

(** *** Members *)

(** What an object lists among its members it still lists when the
    inherited objects have got more members, as long as no object gets a
    [members] of its own while [Object.prototype] has one. *)
Lemma member_of_inherited (inh inh' : Inherited) (heap : list Group)
    (r : Ref) (u : nat) :
  (∀ name l, inh !! name = Some l →
             ∃ l', inh' !! name = Some l' ∧ (u ∈ l → u ∈ l')) →
  (∀ name, inh !! name = None → is_Some (inh' !! name) →
           inh !! "__proto__" = None) →
  member_of inh heap r u → member_of inh' heap r u.
Proof.
  intros Hsome Hnone (members & Hread & Hin). unfold member_of.
  destruct r as [g|name| |]; simpl in *.
  - destruct (g_members <$> heap !! g) as [[| |items pushed|]|]; try done.
    + destruct (Hsome _ _ Hread) as (l' & -> & Hl'). eauto.
    + eauto.
  - destruct (inh !! name) as [own|] eqn:Hname.
    + simplify_eq. destruct (Hsome _ _ Hname) as (l' & -> & Hl'). eauto.
    + destruct (inh' !! name) as [own'|] eqn:Hname'.
      * assert (inh !! "__proto__" = None) as Hshared
          by (apply (Hnone name); [done|by eexists]).
        congruence.
      * destruct (Hsome _ _ Hread) as (l' & -> & Hl'). eauto.
  - destruct (Hsome _ _ Hread) as (l' & -> & Hl'). eauto.
  - destruct (Hsome _ _ Hread) as (l' & -> & Hl'). eauto.
Qed.

Lemma member_of_shared (inh : Inherited) (heap : list Group) (shared : list nat)
    (user : nat) (r : Ref) (u : nat) :
  inh !! "__proto__" = Some shared →
  member_of inh heap r u →
  member_of (<["__proto__" := shared ++ [user]]> inh) heap r u.
Proof.
  intros Hshared. apply member_of_inherited.
  - intros name l Hl. destruct (decide (name = "__proto__")) as [->|Hne].
    + simplify_eq. exists (shared ++ [user]).
      split; [by rewrite lookup_insert_eq|]. set_solver.
    + exists l. by rewrite lookup_insert_ne.
  - intros name Hnone Hsome. destruct (decide (name = "__proto__")) as [->|Hne];
      [congruence|].
    rewrite lookup_insert_ne in Hsome by done. rewrite Hnone in Hsome.
    by destruct Hsome.
Qed.

Lemma member_of_push_inherited (user : nat) (name : string) (inh : Inherited)
    (heap : list Group) (r : Ref) (u : nat) :
  member_of inh heap r u → member_of (push_inherited user name inh) heap r u.
Proof.
  unfold push_inherited. destruct (inh !! name) as [own|] eqn:Hname.
  - apply member_of_inherited.
    + intros name' l Hl. destruct (decide (name' = name)) as [->|Hne].
      * simplify_eq. exists (own ++ [user]).
        split; [by rewrite lookup_insert_eq|]. set_solver.
      * exists l. by rewrite lookup_insert_ne.
    + intros name' Hnone Hsome. destruct (decide (name' = name)) as [->|Hne];
        [congruence|].
      rewrite lookup_insert_ne in Hsome by done. rewrite Hnone in Hsome.
      by destruct Hsome.
  - destruct (inh !! "__proto__") as [shared|] eqn:Hshared.
    + by apply member_of_shared.
    + apply member_of_inherited; [|done].
      intros name' l Hl. destruct (decide (name' = name)) as [->|Hne];
        [congruence|].
      exists l. by rewrite lookup_insert_ne.
Qed.

(** What an object lists it still lists when a group has got one more
    member. *)
Lemma member_of_pushed (inh : Inherited) (heap : list Group) (g : nat)
    (group : Group) (items : list Scalar) (pushed : list nat) (user : nat)
    (r : Ref) (u : nat) :
  heap !! g = Some group → g_members group = MArray items pushed →
  member_of inh heap r u →
  member_of inh (<[g := set_members (MArray items (pushed ++ [user])) group]> heap) r u.
Proof.
  intros Hg Hmembers (members & Hread & Hin). unfold member_of.
  destruct r as [g'|name| |]; simpl in *; eauto.
  destruct (decide (g = g')) as [<-|Hne].
  - rewrite list_lookup_insert_eq by (by eapply lookup_lt_Some). simpl.
    rewrite Hg in Hread. simpl in Hread. rewrite Hmembers in Hread.
    simplify_eq. eexists. split; [done|]. set_solver.
  - rewrite list_lookup_insert_ne by done. eauto.
Qed.

(** A group that lists nobody gets a [members] of its own. *)
Lemma member_of_fresh (inh : Inherited) (heap : list Group) (g : nat)
    (group : Group) (user : nat) (r : Ref) (u : nat) :
  heap !! g = Some group →
  g_members group = MFalsy ∨
    (g_members group = MAbsent ∧ inh !! "__proto__" = None) →
  member_of inh heap r u →
  member_of inh (<[g := set_members (MArray [] [user]) group]> heap) r u.
Proof.
  intros Hg Hmembers (members & Hread & Hin). unfold member_of.
  destruct r as [g'|name| |]; simpl in *; eauto.
  destruct (decide (g = g')) as [<-|Hne].
  - rewrite Hg in Hread. simpl in Hread.
    destruct Hmembers as [Hm|[Hm Hshared]]; rewrite Hm in Hread; congruence.
  - rewrite list_lookup_insert_ne by done. eauto.
Qed.

(** Lines 251-253 take no member off any object. *)
Lemma push_member_keeps (user : nat) (r : Ref) (heap heap' : list Group)
    (inh inh' : Inherited) (r' : Ref) (u : nat) :
  push_member user r heap inh = Return (heap', inh') →
  member_of inh heap r' u → member_of inh' heap' r' u.
Proof.
  unfold push_member. intros Hpush.
  destruct r as [g|name| |].
  - destruct (heap !! g) as [group|] eqn:Hg; [|by simplify_eq].
    destruct (g_members group) as [| |items pushed|] eqn:Hmembers.
    + destruct (inh !! "__proto__") as [shared|] eqn:Hshared; simplify_eq.
      * by apply member_of_shared.
      * apply member_of_fresh; [done|]. by right.
    + simplify_eq. apply member_of_fresh; [done|]. by left.
    + simplify_eq. by apply member_of_pushed.
    + done.
  - simplify_eq. apply member_of_push_inherited.
  - simplify_eq. apply member_of_push_inherited.
  - simplify_eq. apply member_of_push_inherited.
Qed.

(** After lines 251-253 the object lists the user. *)
Lemma push_member_lists (user : nat) (r : Ref) (heap heap' : list Group)
    (inh inh' : Inherited) :
  push_member user r heap inh = Return (heap', inh') →
  (∀ g, r = Own g → is_Some (heap !! g)) →
  member_of inh' heap' r user.
Proof.
  unfold push_member, member_of, push_inherited. intros Hpush Hown.
  destruct r as [g|name| |]; simpl.
  - destruct (Hown g eq_refl) as [group Hg]. rewrite Hg in Hpush.
    assert (g < length heap) as Hlt by (by eapply lookup_lt_Some).
    destruct (g_members group) as [| |items pushed|] eqn:Hmembers.
    + destruct (inh !! "__proto__") as [shared|] eqn:Hshared; simplify_eq.
      * rewrite Hg. simpl. rewrite Hmembers, lookup_insert_eq.
        eexists. split; [done|]. set_solver.
      * rewrite list_lookup_insert_eq by done. simpl.
        eexists. split; [done|]. set_solver.
    + simplify_eq. rewrite list_lookup_insert_eq by done. simpl.
      eexists. split; [done|]. set_solver.
    + simplify_eq. rewrite list_lookup_insert_eq by done. simpl.
      eexists. split; [done|]. set_solver.
    + done.
  - simplify_eq. destruct (inh !! name) as [own|] eqn:Hname.
    + rewrite lookup_insert_eq. eexists. split; [done|]. set_solver.
    + destruct (inh !! "__proto__") as [shared|] eqn:Hshared.
      * assert (name ≠ "__proto__") as Hne by congruence.
        rewrite lookup_insert_ne by done. rewrite Hname, lookup_insert_eq.
        eexists. split; [done|]. set_solver.
      * rewrite lookup_insert_eq. eexists. split; [done|]. set_solver.
  - simplify_eq. destruct (inh !! "__proto__") as [shared|] eqn:Hshared.
    + rewrite lookup_insert_eq. eexists. split; [done|]. set_solver.
    + rewrite lookup_insert_eq. eexists. split; [done|]. set_solver.
  - simplify_eq. destruct (inh !! "__proto__") as [shared|] eqn:Hshared.
    + rewrite lookup_insert_eq. eexists. split; [done|]. set_solver.
    + rewrite lookup_insert_eq. eexists. split; [done|]. set_solver.
Qed.

(** Lines 251-253 leave every group in its place, with its name and its
    [gidNumber]. *)
Lemma push_member_frame (user : nat) (r : Ref) (heap heap' : list Group)
    (inh inh' : Inherited) :
  push_member user r heap inh = Return (heap', inh') →
  g_cn <$> heap' = g_cn <$> heap ∧ g_gidNumber <$> heap' = g_gidNumber <$> heap.
Proof.
  unfold push_member. intros Hpush.
  assert (∀ g group members, heap !! g = Some group →
            g_cn <$> <[g := set_members members group]> heap = g_cn <$> heap ∧
            g_gidNumber <$> <[g := set_members members group]> heap
              = g_gidNumber <$> heap) as Hset.
  { intros g group members Hg. rewrite !list_fmap_insert. simpl.
    split; apply list_insert_id; by rewrite list_lookup_fmap, Hg. }
  destruct r as [g|name| |]; try by simplify_eq.
  destruct (heap !! g) as [group|] eqn:Hg; [|by simplify_eq].
  destruct (g_members group) as [| |items pushed|]; [|by simplify_eq; eauto..|done].
  destruct (inh !! "__proto__"); simplify_eq; eauto.
Qed.

Lemma push_member_length (user : nat) (r : Ref) (heap heap' : list Group)
    (inh inh' : Inherited) :
  push_member user r heap inh = Return (heap', inh') → length heap' = length heap.
Proof.
  intros Hpush. apply push_member_frame in Hpush as [Hcn _].
  apply (f_equal length) in Hcn. by rewrite !length_fmap in Hcn.
Qed.

(** *** The users and their groups *)

(** The state after the identifiers of one user: every object kept in the
    array of results lists the user, a group among them is a group of the
    store, and what any object listed before it still lists. *)
Lemma resolve_gids_resolved (gs : list Group) (user : nat) (uid : string)
    (b0 : Build) (ids : list Scalar) :
  let step := foldl (resolve_gid (index_groups gs) user uid) (b0, []) ids in
  length (b_heap b0) = length gs →
  b_thrown step.1 = None →
  length (b_heap step.1) = length gs ∧
  g_cn <$> b_heap step.1 = g_cn <$> b_heap b0 ∧
  g_gidNumber <$> b_heap step.1 = g_gidNumber <$> b_heap b0 ∧
  (∀ r u, member_of (b_inherited b0) (b_heap b0) r u →
          member_of (b_inherited step.1) (b_heap step.1) r u) ∧
  (∀ r, r ∈ compact step.2 →
        member_of (b_inherited step.1) (b_heap step.1) r user) ∧
  (∀ g, Own g ∈ compact step.2 → g < length gs).
Proof.
  intros step Hsize Hend. subst step.
  apply (resolve_gids_ind (index_groups gs) user uid
           (fun _ b out =>
              length (b_heap b) = length gs ∧
              g_cn <$> b_heap b = g_cn <$> b_heap b0 ∧
              g_gidNumber <$> b_heap b = g_gidNumber <$> b_heap b0 ∧
              (∀ r u, member_of (b_inherited b0) (b_heap b0) r u →
                      member_of (b_inherited b) (b_heap b) r u) ∧
              (∀ r, r ∈ compact out →
                    member_of (b_inherited b) (b_heap b) r user) ∧
              (∀ g, Own g ∈ compact out → g < length gs))); [| | |done].
  - split; [done|]. split; [done|]. split; [done|]. split; [done|].
    split; intros ? Hin; inversion Hin.
  - intros pre b out gid _ (Hlen & Hcn & Hgid & Hkeep & Hout & Hrange) _ _. simpl.
    unfold compact in *. rewrite omap_app. simpl. rewrite app_nil_r. done.
  - intros pre b out gid r heap inh _ (Hlen & Hcn & Hgid & Hkeep & Hout & Hrange)
      _ Hlook Hpush. simpl.
    destruct (push_member_frame _ _ _ _ _ _ Hpush) as [Hcn' Hgid'].
    split; [by rewrite (push_member_length _ _ _ _ _ _ Hpush)|].
    split; [by rewrite Hcn'|]. split; [by rewrite Hgid'|].
    assert (∀ g, r = Own g → g < length gs) as Hr.
    { intros g ->. apply lookup_name_own in Hlook.
      apply index_groups_lookup in Hlook as (group & Hg & _).
      by eapply lookup_lt_Some. }
    split; [|split].
    + intros r' u Hmember. eapply push_member_keeps; [done|]. by apply Hkeep.
    + intros r'. unfold compact. rewrite omap_app. simpl.
      intros [Hin| ->%list_elem_of_singleton]%elem_of_app.
      * eapply push_member_keeps; [done|]. by apply Hout.
      * eapply push_member_lists; [done|].
        intros g Heq. apply lookup_lt_is_Some. rewrite Hlen. by apply Hr.
    + intros g. unfold compact. rewrite omap_app. simpl.
      intros [Hin|Heq%list_elem_of_singleton]%elem_of_app.
      * by apply Hrange.
      * by apply Hr.
Qed.

(** The invariant of the loop over users. *)
Lemma fix_users_resolved (gs : list Group) (users : list (Value RawUser))
    (b0 : Build) :
  let step := foldl (fix_user (index_groups gs)) (b0, []) users in
  length (b_heap b0) = length gs →
  b_thrown step.1 = None →
  resolved (length gs) step.1 step.2 ∧
  length step.2 = length users ∧
  g_cn <$> b_heap step.1 = g_cn <$> b_heap b0 ∧
  g_gidNumber <$> b_heap step.1 = g_gidNumber <$> b_heap b0.
Proof.
  intros step Hsize Hend. subst step.
  destruct (fix_users_ind (index_groups gs)
              (fun pre b fixed =>
                 resolved (length gs) b fixed ∧
                 length fixed = length pre ∧
                 g_cn <$> b_heap b = g_cn <$> b_heap b0 ∧
                 g_gidNumber <$> b_heap b = g_gidNumber <$> b_heap b0)
              b0 users) as (Hres & Hlen & Hcn & Hgid); [| | |done|done].
  - split; [|done]. split; [done|]. split; intros i user r Hi; by rewrite lookup_nil in Hi.
  - intros pre b fixed truthy _ ((Hlen & Hmem & Hrange) & Hfixed & Hcn & Hgid) Hb.
    destruct (resolve_primary_state (index_groups gs) None None b)
      as (Hheap & Hinh & _ & _).
    unfold resolved. rewrite Hheap, Hinh.
    split; [|by rewrite !length_app, Hfixed]. split; [done|].
    split; intros i user r Hi.
    + apply lookup_app_Some in Hi as [Hi|[_ Hi]]; [by eapply Hmem|].
      apply list_lookup_singleton_Some in Hi as [_ Hi]. done.
    + apply lookup_app_Some in Hi as [Hi|[_ Hi]]; [by eapply Hrange|].
      apply list_lookup_singleton_Some in Hi as [_ Hi]. done.
  - intros pre b fixed user _ ((Hlen & Hmem & Hrange) & Hfixed & Hcn & Hgid) Hb
      b1 step Hstep.
    destruct (resolve_primary_state (index_groups gs) (ru_primaryGroup user)
                (Some (ru_uid user)) b) as (Hheap & Hinh & _ & _).
    fold b1 in Hheap, Hinh.
    destruct (resolve_gids_resolved gs (length fixed) (ru_uid user) b1
                (uniq (default [] (ru_groups user))))
      as (Hlen' & Hcn' & Hgid' & Hkeep & Hout & Hrange');
      [by rewrite Hheap|done|].
    fold step in Hlen', Hcn', Hgid', Hkeep, Hout, Hrange'.
    rewrite Hheap in Hcn', Hgid'. rewrite Hheap, Hinh in Hkeep.
    split; [|by rewrite !length_app, Hfixed, Hcn', Hgid'].
    split; [done|]. split; intros i user' r Hi.
    + apply lookup_app_Some in Hi as [Hi|[Hle Hi]].
      * intros Hr. apply Hkeep. by eapply Hmem.
      * apply list_lookup_singleton_Some in Hi as [Hi Heq].
        assert (i = length fixed) as -> by lia.
        injection Heq as <-. simpl. apply Hout.
    + apply lookup_app_Some in Hi as [Hi|[Hle Hi]]; [by eapply Hrange|].
      apply list_lookup_singleton_Some in Hi as [Hi Heq].
      injection Heq as <-. simpl. intros [Hprimary|Hin]; [|by apply Hrange'].
      unfold resolve_primary in Hprimary.
      destruct (lookup_name (b_inherited b) (index_groups gs)
                  (prop_key (ru_primaryGroup user))) as [r'|] eqn:Hlook;
        simpl in Hprimary; [|done].
      injection Hprimary as ->. apply lookup_name_own in Hlook.
      apply index_groups_lookup in Hlook as (group & Hg & _).
      by eapply lookup_lt_Some.
Qed.

(** *** When buildDataStore returns *)





(** *** The store that buildDataStore returns *)

(** When [buildDataStore] returns, the loop over users has thrown
    nothing, and the store is made of what the loops leave. *)
Lemma buildDataStore_returns (inh : Inherited) (raw : RawStore) (log : Log)
    (built : Store) :
  built_store (buildDataStore inh raw log) = Return built →
  ∃ b fixed,
    foldl (fix_user (index_groups (r_groups raw)))
      ({| b_heap := r_groups raw; b_log := log; b_inherited := inh;
          b_thrown := None |}, []) (r_users raw) = (b, fixed) ∧
    b_thrown b = None ∧
    built_log (buildDataStore inh raw log) = b_log b ∧
    built_inherited (buildDataStore inh raw log) = b_inherited b ∧
    built = {| s_dir := r_dir raw; s_users := fixed; s_groups := b_heap b;
               s_layers := fix_layer (b_inherited b) (index_users (r_users raw))
                             (r_users raw) <$> r_layers raw |}.
Proof.
  unfold buildDataStore.
  destruct (foldl _ _ (r_users raw)) as [b fixed] eqn:Hfold. simpl.
  destruct (b_thrown b) as [err|] eqn:Hb; [done|].
  intros [= <-]. by exists b, fixed.
Qed.

(** In the store that [buildDataStore] returns, every group of a user
    lists the user, and every reference to an object of the store is a
    position of the store's own array. *)
Lemma buildDataStore_inv (inh : Inherited) (raw : RawStore) (log : Log)
    (built : Store) :
  built_store (buildDataStore inh raw log) = Return built →
  members_consistent (built_inherited (buildDataStore inh raw log)) built ∧
  own_refs_in_range built.
Proof.
  intros Hbuilt.
  destruct (buildDataStore_returns inh raw log built Hbuilt)
    as (b & fixed & Hfold & Hb & _ & -> & ->).
  destruct (fix_users_resolved (r_groups raw) (r_users raw)
              {| b_heap := r_groups raw; b_log := log; b_inherited := inh;
                 b_thrown := None |})
    as ((Hlen & Hmem & Hrange) & Hfixed & _); [done|by rewrite Hfold|].
  rewrite Hfold in Hlen, Hmem, Hrange, Hfixed. simpl in *.
  split; [|split; [|split]]; simpl.
  - intros i user r Hi Hr. by eapply Hmem.
  - intros user g [i Hi]%list_elem_of_lookup Hprimary.
    apply lookup_lt_is_Some. rewrite Hlen. eapply Hrange; [done|by left].
  - intros user g [i Hi]%list_elem_of_lookup Hin.
    apply lookup_lt_is_Some. rewrite Hlen. eapply Hrange; [done|by right].
  - intros layer u [raw_layer [-> Hlayer]]%list_elem_of_fmap. simpl.
    unfold compact. intros (uid & Huid & Hread)%list_elem_of_omap.
    apply list_elem_of_fmap in Huid as (name & -> & Hname). simpl in Hread.
    unfold read_user in Hread.
    destruct (lookup_name (b_inherited b) (index_users (r_users raw)) name)
      as [[j|?| |]|] eqn:Hlook; try done.
    assert (j = u) as ->.
    { destruct (r_users raw !! j) as [[[]|]|]; by simplify_eq. }
    apply lookup_name_own in Hlook.
    apply index_users_lookup in Hlook as (user & Hu & _).
    apply lookup_lt_is_Some. rewrite Hfixed. by eapply lookup_lt_Some.
Qed.

(** ** Resolved references *)

(** C5, on the tree [Sample.tree_builtin]: the user [eve] names the primary
    group [toString] and the group [constructor], and the layer [prod]
    lists [valueOf]; no group and no user bears these names.  The load pass
    delivers and installs a store, and logs no warning: the three names
    read the functions that the dictionaries of line 231 inherit from
    [Object.prototype], which are stored as the user's primary group, in the
    user's groups and in the layer's users.  None of them is an object of
    the store's groups or users, so the references of the store are not
    closed. *)
Theorem builtin_names_escape_the_store :
  ∃ built eve prod,
    (Sample.pass Sample.tree_builtin).2 = [CbOk built] ∧
    store (Sample.pass Sample.tree_builtin).1 = Some built ∧
    logged (Sample.pass Sample.tree_builtin).1 = [DebugStore] ∧
    g_cn <$> s_groups built = ["staff"; "ops"] ∧
    s_users built = [Rec eve] ∧ u_uid eve = "eve" ∧
    u_primaryGroup eve = PGRef (Builtin "toString") ∧
    u_groups eve = [Builtin "constructor"] ∧
    s_layers built = [prod] ∧ l_users prod = [Own 0; Builtin "valueOf"] ∧
    ¬ refs_closed built.
Proof.
  eexists _, _, _. split; [vm_compute; reflexivity|].
  do 9 (split; [reflexivity|]).
  intros (Hprimary & _ & _).
  destruct (Hprimary _ (Builtin "toString") ltac:(by left) eq_refl) as (i & Hi & _).
  discriminate Hi.
Qed.

(** ** Members *)

(** C6: in a store delivered by a load pass, every group in the [groups] of
    a user lists that user in its [members]. *)
Theorem loaded_store_members_consistent
    (safeLoad : option string -> Completion (option Doc))
    (dir : string) (fs : FileSystem) (sched : Schedule) (g : Globals) (built : Store) :
  CbOk built ∈ (load safeLoad dir fs sched g).2 →
  members_consistent (inherited (load safeLoad dir fs sched g).1) built.
Proof.
  intros Hin.
  destruct (load_success safeLoad dir fs sched g built Hin)
    as (_ & _ & raw & log & Hbuilt & ->).
  by apply buildDataStore_inv.
Qed.

Lemma loaded_store_members_consistent_witness :
  ∃ built,
    (Sample.pass Sample.tree).2 = [CbOk built] ∧
    omap (fun user => u_groups <$> record user) (s_users built)
      = [[Own 0; Own 1]; [Own 1]] ∧
    g_members <$> s_groups built = [MArray [] [0]; MArray [] [0; 1]] ∧
    members_consistent (inherited (Sample.pass Sample.tree).1) built.
Proof.
  eexists. split; [vm_compute; reflexivity|].
  split; [reflexivity|]. split; [reflexivity|].
  refine (loaded_store_members_consistent Sample.safeLoad "/srv" Sample.tree
            Sample.in_order (globals fresh) _ _).
  vm_compute. by left.
Defined.

(** ** initialize *)

(** C7, as amended: a call of [initialize] made while a store is installed
    (a load pass has succeeded) fails at once with the usage error and
    changes nothing; a call made while no store is installed is accepted and
    starts a watch, whatever calls of [initialize] came before. *)
Theorem initialize_guard (dir : string) (ctl : Controller) :
  (is_Some (store (globals ctl)) →
   initialize dir ctl
     = (ctl, [Some (ErrorString "data store is already initialized")])) ∧
  (store (globals ctl) = None →
   initialize dir ctl
     = ({| globals := globals ctl;
           watchers := watchers ctl ++ [{| w_dir := dir; w_ready := false |}] |}, [])).
Proof.
  unfold initialize. split.
  - by intros [s ->].
  - by intros ->.
Qed.

Lemma initialize_guard_witness :
  let ctl := (run Sample.safeLoad fresh
                [Initialize "/srv"; WatchReady 0 Sample.tree Sample.in_order]).1 in
  is_Some (store (globals ctl)) ∧
  initialize "/srv" ctl
    = (ctl, [Some (ErrorString "data store is already initialized")]) ∧
  initialize "/srv" fresh
    = ({| globals := globals fresh;
          watchers := [{| w_dir := "/srv"; w_ready := false |}] |}, []).
Proof.
  intros ctl.
  assert (is_Some (store (globals ctl))) as Hstore by (vm_compute; eauto).
  split; [exact Hstore|]. split.
  - exact (proj1 (initialize_guard "/srv" ctl) Hstore).
  - exact (proj2 (initialize_guard "/srv" fresh) eq_refl).
Defined.

(** C7, as stated, fails: a second call of [initialize], made after the
    first has started its watch and before any load pass has succeeded, is
    not refused; it starts a second watch. *)
Lemma initialize_twice_is_accepted :
  let once := (initialize "/srv" fresh).1 in
  watchers once = [{| w_dir := "/srv"; w_ready := false |}] ∧
  initialize "/srv" once
    = ({| globals := globals fresh;
          watchers := [{| w_dir := "/srv"; w_ready := false |};
                       {| w_dir := "/srv"; w_ready := false |}] |}, []).
Proof. split; reflexivity. Qed.

(** ** Queries *)

(** C9: while no store is installed, [publicKeys] throws for every uid; it
    does not return [null]. *)
Theorem publicKeys_without_store_throws (g : Globals) (uid : string) :
  store g = None →
  publicKeys g uid = Throw (TypeError "Cannot read property 'users' of undefined") ∧
  publicKeys g uid ≠ Return None.
Proof. unfold publicKeys, findUser. by intros ->. Qed.

Lemma publicKeys_without_store_throws_witness :
  store (globals fresh) = None ∧
  publicKeys (globals fresh) "alice"
    = Throw (TypeError "Cannot read property 'users' of undefined") ∧
  publicKeys (globals fresh) "alice" ≠ Return None.
Proof.
  split; [reflexivity|].
  exact (publicKeys_without_store_throws (globals fresh) "alice" eq_refl).
Defined.

(** C10: when the password of the layer is unset or empty, [authenticate]
    fails with the invalid-credentials error for every credential; and it
    succeeds only with a non-empty stored password equal to the
    credential. *)
Theorem authenticate_needs_nonempty_password
    (toUpperCase : string -> string) (env : gmap string string) (layer : string) :
  (env !! ("LDAP_LAYER_" +:+ toUpperCase layer +:+ "_PASSWORD") = None ∨
   env !! ("LDAP_LAYER_" +:+ toUpperCase layer +:+ "_PASSWORD") = Some "" →
   ∀ credential,
     authenticate toUpperCase env layer credential
       = [CbErr (InvalidCredentialsError ("Invalid login for layer " +:+ layer))]) ∧
  (∀ credential password,
     CbOk password ∈ authenticate toUpperCase env layer credential →
     password ≠ "" ∧ credential = password ∧
     env !! ("LDAP_LAYER_" +:+ toUpperCase layer +:+ "_PASSWORD") = Some password).
Proof.
  unfold authenticate. split.
  - intros [->| ->] credential; done.
  - intros credential password.
    destruct (env !! _) as [pw|] eqn:Hpw.
    + unfold truthy.
      destruct (bool_decide (pw = "")) eqn:Hempty;
        destruct (bool_decide (credential = pw)) eqn:Hcred; simpl;
        intros Hin; apply list_elem_of_singleton in Hin; simplify_eq.
      apply bool_decide_eq_false in Hempty. by apply bool_decide_eq_true in Hcred.
    + intros Hin. by apply list_elem_of_singleton in Hin.
Qed.

Lemma authenticate_needs_nonempty_password_witness :
  ({["LDAP_LAYER_PROD_PASSWORD" := ""]} : gmap string string)
    !! ("LDAP_LAYER_" +:+ Sample.toUpperCase "prod" +:+ "_PASSWORD") = Some "" ∧
  authenticate Sample.toUpperCase {["LDAP_LAYER_PROD_PASSWORD" := ""]} "prod" ""
    = [CbErr (InvalidCredentialsError "Invalid login for layer prod")] ∧
  authenticate Sample.toUpperCase {["LDAP_LAYER_PROD_PASSWORD" := "right-secret"]}
    "prod" "right-secret" = [CbOk "right-secret"].
Proof.
  assert (({["LDAP_LAYER_PROD_PASSWORD" := ""]} : gmap string string)
            !! ("LDAP_LAYER_" +:+ Sample.toUpperCase "prod" +:+ "_PASSWORD") = Some "")
    as Hempty by (vm_compute; reflexivity).
  split; [exact Hempty|]. split.
  - exact (proj1 (authenticate_needs_nonempty_password Sample.toUpperCase
                    {["LDAP_LAYER_PROD_PASSWORD" := ""]} "prod") (or_intror Hempty) "").
  - vm_compute; reflexivity.
Defined.

(** * Further properties *)

(** ** The result of a directory load *)

Section LoadDirDelivery.
Context {S V : Type}.
Variable fn : string -> option string -> S -> S * Completion V.

(** What one entry does, with the call of the transform it makes. *)
Lemma on_entry_step (a : Acc S V) (e : Entry) :
  (∃ err, acc_c (on_entry fn a e) = acc_c a ∧
          acc_result (on_entry fn a e) = acc_result a ∧
          acc_calls (on_entry fn a e) = acc_calls a ++ [CbErr err]) ∨
  (e_kind e = OtherKind ∧ on_entry fn a e = a) ∨
  (∃ args s' v,
     entry_args e = Some args ∧
     fn (e_name e) args (acc_state a) = (s', Return v) ∧
     on_entry fn a e =
       {| acc_c := acc_c a - 1; acc_result := acc_result a ++ [v];
          acc_state := s';
          acc_calls := if decide (0 = acc_c a - 1)%Z
                       then acc_calls a ++ [CbOk (acc_result a ++ [v])]
                       else acc_calls a |}).
Proof.
  unfold on_entry, accumulate, fail, entry_args.
  destruct (e_kind e) as [err|[err|contents]| | |]; simpl;
    try (left; by eexists);
    try (right; left; by destruct a);
    match goal with |- context [fn ?x ?y ?z] => destruct (fn x y z) as [s' [err|v]] eqn:Hfn end;
    simpl; try (left; by eexists); right; right; by eexists _, _, _.
Qed.

(** A result is delivered only as the last call, after every entry has gone
    through the transform, and holds the values the transform returned, in
    the order of the entries. *)
Lemma run_delivery (es : list Entry) (a : Acc S V) (r : list V) :
  (Z.of_nat (length es) ≤ acc_c a)%Z → count_ok (acc_calls a) = 0 →
  CbOk r ∈ acc_calls (foldl (on_entry fn) a es) →
  ∃ vals, r = acc_result a ++ vals ∧
          threads fn (acc_state a) es vals (acc_state (foldl (on_entry fn) a es)) ∧
          acc_calls (foldl (on_entry fn) a es) = acc_calls a ++ [CbOk r].
Proof.
  revert a. induction es as [|e es IH]; intros a Hc Hnone Hin; simpl in *.
  { by apply count_ok_zero in Hin. }
  destruct (on_entry_step a e)
    as [(err & Hc' & _ & Hcalls)|[[_ Heq]|(args & s' & v & Hargs & Hfn & Heq)]].
  - exfalso. eapply count_ok_zero; [|exact Hin].
    rewrite run_short by lia. rewrite Hcalls, count_ok_app. simpl. lia.
  - exfalso. eapply count_ok_zero; [|exact Hin].
    rewrite Heq, run_short by lia. done.
  - rewrite Heq in Hin |- *. clear Heq.
    destruct (decide (0 = acc_c a - 1)%Z) as [Hz|Hz].
    + destruct es; [|simpl in *; lia]. simpl in *.
      apply elem_of_app in Hin as [Hin|Hin]; [by apply count_ok_zero in Hin|].
      apply list_elem_of_singleton in Hin. simplify_eq.
      exists [v]. split; [done|]. split; [|done].
      econstructor; [done..|constructor].
    + apply IH in Hin as (vals & -> & Hvals & Hcalls); [|simpl; lia|done].
      simpl in *. exists (v :: vals). split; [by rewrite <- (assoc_L (++))|].
      split; [|done]. by econstructor.
Qed.

Lemma loadDir_delivery (fs : FileSystem) (dir : string) (s : S) (result : list V) :
  CbOk result ∈ (loadDir fn fs dir s).2 →
  ∃ files, fs dir = inr files ∧ files ≠ [] ∧
           (loadDir fn fs dir s).2 = [CbOk result] ∧
           threads fn s files result (loadDir fn fs dir s).1.
Proof.
  unfold loadDir. destruct (fs dir) as [err|files]; simpl; intros Hin.
  { by apply list_elem_of_singleton in Hin. }
  pose proof Hin as Hin'.
  apply run_delivery in Hin' as (vals & -> & Hvals & Hcalls); [|simpl; lia|done].
  simpl in *.
  exists files. split; [done|]. split; [|done].
  intros ->. simpl in Hin. inversion Hin.
Qed.

(** One value is returned per entry. *)
Lemma threads_length (s s' : S) (es : list Entry) (vals : list V) :
  threads fn s es vals s' → length vals = length es.
Proof. induction 1; simpl; congruence. Qed.
End LoadDirDelivery.

(** X1: when [loadDir] delivers a result, the directory listed with at least
    one entry, the delivery is the only call [loadDir] makes of its callback
    (no error is reported before or after it), and the result holds one
    value per entry: the values returned by the transform, called for the
    entries in the order in which they completed, each call in the state
    left by the previous one. *)
Theorem loadDir_delivers_once {S V : Type}
    (fn : string -> option string -> S -> S * Completion V)
    (fs : FileSystem) (dir : string) (s : S) (result : list V) :
  CbOk result ∈ (loadDir fn fs dir s).2 →
  ∃ files, fs dir = inr files ∧ files ≠ [] ∧
           (loadDir fn fs dir s).2 = [CbOk result] ∧
           length result = length files ∧
           threads fn s files result (loadDir fn fs dir s).1.
Proof.
  intros Hin. destruct (loadDir_delivery fn fs dir s result Hin)
    as (files & Hfs & Hne & Hcalls & Hthreads).
  exists files. repeat split; [done..| |done]. by eapply threads_length.
Qed.

Lemma loadDir_delivers_once_witness :
  ∃ result files,
    CbOk result ∈ (loadGroups Sample.safeLoad Sample.tree "/srv" []).2 ∧
    Sample.tree "/srv/groups" = inr files ∧ files ≠ [] ∧
    (loadGroups Sample.safeLoad Sample.tree "/srv" []).2 = [CbOk result] ∧
    length result = length files.
Proof.
  assert (∃ result, CbOk result ∈ (loadGroups Sample.safeLoad Sample.tree "/srv" []).2)
    as [result Hin] by (eexists; vm_compute; by left).
  destruct (loadDir_delivers_once (groupTransform Sample.safeLoad) Sample.tree
              "/srv/groups" [] result Hin) as (files & Hfs & Hne & Hcalls & Hlen & _).
  by exists result, files.
Defined.

(** ** The users and groups read from files *)

Section LoaderResults.
Variable safeLoad : option string -> Completion (option Doc).

Lemma threads_users (files : list Entry) (users : list (Value RawUser))
    (s s' : unit) :
  threads (fun filename contents (s : unit) =>
             (s, userTransform safeLoad filename contents)) s files users s' →
  Forall2 (user_from safeLoad) files users.
Proof.
  induction 1 as [|s e args s' v es vals s'' Hargs Hfn _ IH]; constructor; [|done].
  unfold userTransform in Hfn. exists args.
  destruct (safeLoad args) as [err|[[truthy|fields]|]]; simplify_eq;
    by eexists.
Qed.

Lemma threads_groups (files : list Entry) (gs : list (option Group)) (log log' : Log) :
  threads (groupTransform safeLoad) log files gs log' →
  Forall2 (group_from safeLoad) files gs ∧
  log' = log ++ flat_map (missing_gid_log safeLoad) files.
Proof.
  induction 1 as [|s e args s' v es vals s'' Hargs Hfn _ [IH ->]].
  { split; [constructor|]. simpl. by rewrite app_nil_r. }
  change (flat_map (missing_gid_log safeLoad) (e :: es))
    with (missing_gid_log safeLoad e ++ flat_map (missing_gid_log safeLoad) es).
  assert (group_from safeLoad e v ∧ s' = s ++ missing_gid_log safeLoad e)
    as [Hv ->].
  { unfold group_from, missing_gid_log, groupTransform in *. rewrite Hargs.
    destruct (safeLoad args) as [err|[[[]|d]|]] eqn:Hdoc; simplify_eq.
    - split; [|done]. by exists args, (Some (DocPrim true)).
    - split; [|by rewrite app_nil_r]. by exists args, (Some (DocPrim false)).
    - simpl. destruct (y_gidNumber d) as [gid|] eqn:Hgid.
      + case_decide; simplify_eq.
        * split; [|done]. exists args, (Some (DocMap d)).
          split; [done|]. split; [done|]. simpl. rewrite Hgid.
          by rewrite decide_True.
        * split; [|by rewrite app_nil_r]. exists args, (Some (DocMap d)).
          split; [done|]. split; [done|]. simpl. rewrite Hgid.
          by rewrite decide_False.
      + simplify_eq. split; [|done]. exists args, (Some (DocMap d)).
        split; [done|]. split; [done|]. simpl. by rewrite Hgid.
    - split; [|by rewrite app_nil_r]. by exists args, None. }
  split; [by constructor|]. by rewrite <- (assoc_L (++)).
Qed.

Lemma loadUsers_result (fs : FileSystem) (dir : string)
    (users : list (Value RawUser)) :
  CbOk users ∈ loadUsers safeLoad fs dir →
  ∃ files, fs (Js.join "/" [dir; "users"]) = inr files ∧ files ≠ [] ∧
           loadUsers safeLoad fs dir = [CbOk users] ∧
           Forall2 (user_from safeLoad) files users.
Proof.
  unfold loadUsers. intros Hin.
  apply loadDir_delivery in Hin as (files & Hfs & Hne & Hcalls & Hthreads).
  exists files. repeat split; [done..|]. by eapply threads_users.
Qed.

Lemma loadGroups_result (fs : FileSystem) (dir : string) (log : Log)
    (gs : list (option Group)) :
  CbOk gs ∈ (loadGroups safeLoad fs dir log).2 →
  ∃ files, fs (Js.join "/" [dir; "groups"]) = inr files ∧ files ≠ [] ∧
           (loadGroups safeLoad fs dir log).2 = [CbOk gs] ∧
           Forall2 (group_from safeLoad) files gs ∧
           (loadGroups safeLoad fs dir log).1
             = log ++ flat_map (missing_gid_log safeLoad) files.
Proof.
  unfold loadGroups. intros Hin.
  apply loadDir_delivery in Hin as (files & Hfs & Hne & Hcalls & Hthreads).
  apply threads_groups in Hthreads as [Hgs Hlog].
  exists files. by repeat split.
Qed.
End LoaderResults.

(** ** The indexes of buildDataStore *)

Section Index.
Context {A : Type}.
Variable key : A -> string.

Lemma index_fold_snoc (l : list A) (x : A) :
  foldl (fun (m : gmap string nat) '(i, x) => <[key x := i]> m) ∅ (imap pair (l ++ [x]))
  = <[key x := length l]>
      (foldl (fun (m : gmap string nat) '(i, x) => <[key x := i]> m) ∅ (imap pair l)).
Proof. rewrite imap_app, foldl_app. simpl. by rewrite Nat.add_0_r. Qed.

(** The index maps a key to the last position that bears it. *)
Lemma index_fold_last (l : list A) (k : string) (i : nat) :
  foldl (fun (m : gmap string nat) '(i, x) => <[key x := i]> m) ∅ (imap pair l) !! k
    = Some i ↔
  last_with key l k i.
Proof.
  unfold last_with.
  revert i. induction l as [|x l IH] using rev_ind; intros i.
  { simpl. rewrite lookup_empty. split; [done|]. by intros [(x & Hx & _) _]. }
  rewrite index_fold_snoc. destruct (decide (key x = k)) as [Hk|Hk].
  - rewrite Hk, lookup_insert_eq. split.
    + intros [= <-]. split.
      * exists x. split; [|done]. by rewrite list_lookup_middle.
      * intros j y Hj Hy. apply lookup_lt_Some in Hy.
        rewrite length_app in Hy. simpl in Hy. lia.
    + intros [(y & Hy & _) Hlast]. f_equal.
      pose proof (lookup_lt_Some _ _ _ Hy) as Hi.
      rewrite length_app in Hi. simpl in Hi.
      destruct (decide (i = length l)) as [|Hne]; [done|]. exfalso.
      apply (Hlast (length l) x); [lia| |done]. by rewrite list_lookup_middle.
  - rewrite lookup_insert_ne by done. rewrite IH. split.
    + intros [(y & Hy & Hkey) Hlast]. split.
      * exists y. split; [|done]. by apply lookup_app_l_Some.
      * intros j z Hj Hz. apply lookup_app_Some in Hz as [Hz|[_ Hz]]; [by eapply Hlast|].
        apply list_lookup_singleton_Some in Hz as [_ <-]. done.
    + intros [(y & Hy & Hkey) Hlast].
      apply lookup_app_Some in Hy as [Hy|[_ Hy]].
      * split; [by exists y|]. intros j z Hj Hz. apply (Hlast j z Hj).
        by apply lookup_app_l_Some.
      * apply list_lookup_singleton_Some in Hy as [_ <-]. done.
Qed.

(** The index has no entry for a key that no element bears. *)
Lemma index_fold_none (l : list A) (k : string) :
  foldl (fun (m : gmap string nat) '(i, x) => <[key x := i]> m) ∅ (imap pair l) !! k
    = None ↔
  unborne key l k.
Proof.
  unfold unborne. rewrite Forall_forall.
  induction l as [|x l IH] using rev_ind.
  { simpl. rewrite lookup_empty. split; [|done]. intros _ x Hx. inversion Hx. }
  rewrite index_fold_snoc. destruct (decide (key x = k)) as [Hk|Hk].
  - rewrite Hk, lookup_insert_eq. split; [done|]. intros Hall.
    destruct (Hall x); [|done]. apply elem_of_app. right. by left.
  - rewrite lookup_insert_ne by done. rewrite IH. split.
    + intros Hall y Hy. apply elem_of_app in Hy as [Hy|Hy]; [by apply Hall|].
      by apply list_elem_of_singleton in Hy as ->.
    + intros Hall y Hy. apply Hall. apply elem_of_app. by left.
Qed.

Lemma builtin_not_proto : "__proto__" ∉ builtin_names.
Proof. apply (bool_decide_unpack _). by vm_compute. Qed.

(** What a name reads in the dictionary, while [Object.prototype] has no
    [members]. *)
Lemma lookup_fold_names (l : list A) (k : string) (r : Ref) :
  lookup_name ∅
    (foldl (fun (m : gmap string nat) '(i, x) => <[key x := i]> m) ∅ (imap pair l)) k
    = Some r ↔
  names key l k r.
Proof.
  unfold lookup_name.
  destruct (foldl _ ∅ (imap pair l) !! k) as [i|] eqn:Hk.
  - assert (¬ unborne key l k) as Hborne.
    { intros Hnone%index_fold_none. congruence. }
    destruct r as [j|name| |]; simpl.
    + rewrite <- index_fold_last, Hk. split; congruence.
    + split; [done|]. by intros (_ & _ & Hnone).
    + split; [done|]. by intros (_ & Hnone).
    + done.
  - pose proof (proj1 (index_fold_none l k) Hk) as Hnone.
    assert (∀ j, ¬ last_with key l k j) as Hlast.
    { intros j Hj%index_fold_last. congruence. }
    pose proof builtin_not_proto as Hproto.
    rewrite lookup_empty.
    destruct (decide (k = "__proto__")) as [->|Hp].
    { destruct r as [j|name| |]; simpl; split; try done.
      - intros Hj. by destruct (Hlast j).
      - by intros (_ & Hin & _). }
    destruct (decide (k ∈ builtin_names)) as [Hb|Hb].
    { destruct r as [j|name| |]; simpl; split; try done.
      - intros Hj. by destruct (Hlast j).
      - by intros [= <-].
      - by intros (-> & _).
      - by intros (-> & _). }
    assert ((if decide (k = "members") then None else None) = @None Ref) as ->
      by (by case_decide).
    destruct r as [j|name| |]; simpl; split; try done.
    + intros Hj. by destruct (Hlast j).
    + by intros (_ & Hin & _).
    + by intros (-> & _).
Qed.

Lemma lookup_fold_dangling (l : list A) (k : string) :
  lookup_name ∅
    (foldl (fun (m : gmap string nat) '(i, x) => <[key x := i]> m) ∅ (imap pair l)) k
    = None ↔
  dangling key l k.
Proof.
  unfold lookup_name, dangling. rewrite <- index_fold_none.
  destruct (foldl _ ∅ (imap pair l) !! k) as [i|] eqn:Hk.
  - split; [done|]. by intros (? & _).
  - rewrite lookup_empty.
    destruct (decide (k = "__proto__")) as [->|Hp].
    { split; [done|]. by intros (_ & ? & _). }
    destruct (decide (k ∈ builtin_names)) as [Hb|Hb].
    { split; [done|]. by intros (_ & _ & ?). }
    split; [done|]. by case_decide.
Qed.
End Index.

Lemma lookup_groups_names (gs : list Group) (k : string) (r : Ref) :
  lookup_name ∅ (index_groups gs) k = Some r ↔ names g_cn gs k r.
Proof. apply (lookup_fold_names g_cn). Qed.

Lemma lookup_groups_dangling (gs : list Group) (k : string) :
  lookup_name ∅ (index_groups gs) k = None ↔ dangling g_cn gs k.
Proof. apply (lookup_fold_dangling g_cn). Qed.

Lemma lookup_users_names (users : list (Value RawUser)) (k : string) (r : Ref) :
  lookup_name ∅ (index_users users) k = Some r ↔ names user_key users k r.
Proof. apply (lookup_fold_names user_key). Qed.

Lemma lookup_users_dangling (users : list (Value RawUser)) (k : string) :
  lookup_name ∅ (index_users users) k = None ↔ dangling user_key users k.
Proof. apply (lookup_fold_dangling user_key). Qed.

(** While [Object.prototype] has no [members], a name reads what it reads
    in the runtime as it started. *)
Lemma lookup_name_unpolluted (inh : Inherited) (own : gmap string nat) (k : string) :
  inh !! "__proto__" = None → lookup_name inh own k = lookup_name ∅ own k.
Proof. unfold lookup_name. intros ->. by rewrite lookup_empty. Qed.

(** ** What buildDataStore computes *)

Lemma uniq_from_spec (seen arr : list Scalar) :
  NoDup (uniq_from seen arr) ∧
  ∀ x, x ∈ uniq_from seen arr ↔ x ∈ arr ∧ x ∉ seen.
Proof.
  revert seen. induction arr as [|y arr IH]; intros seen; simpl.
  { split; [constructor|]. intros x. split; [intros Hx; inversion Hx|].
    intros [Hx _]. inversion Hx. }
  destruct (IH seen) as [Hnd Hin]. destruct (IH (seen ++ [y])) as [Hnd' Hin'].
  case_decide as Hy.
  - split; [done|]. intros x. rewrite Hin, elem_of_cons.
    split; [intros [? ?]; by auto|]. intros [[->|?] ?]; by auto.
  - split.
    + constructor; [|done]. rewrite Hin'. intros [_ Hnot]. apply Hnot.
      apply elem_of_app. right. by left.
    + intros x. rewrite !elem_of_cons, Hin'. split.
      * intros [->|[Hx Hnot]]; [by auto|]. split; [by auto|].
        intros Hseen. apply Hnot. apply elem_of_app. by left.
      * intros [[->|Hx] Hnot]; [by left|].
        destruct (decide (x = y)) as [->|Hne]; [by left|]. right. split; [done|].
        intros Hseen. apply elem_of_app in Hseen as [?|Hseen]; [done|].
        by apply list_elem_of_singleton in Hseen.
Qed.

(** [uniq] keeps every element once. *)
Lemma uniq_spec (arr : list Scalar) :
  NoDup (uniq arr) ∧ ∀ x, x ∈ uniq arr ↔ x ∈ arr.
Proof.
  destruct (uniq_from_spec [] arr) as [Hnd Hin]. split; [done|].
  intros x. rewrite Hin. split; [by intros [? _]|]. intros Hx. split; [done|].
  intros Hnil. inversion Hnil.
Qed.

Lemma compact_fmap {A B} (f : A -> option B) (l : list A) :
  compact (f <$> l) = omap f l.
Proof. unfold compact. induction l as [|x l IH]; csimpl; [done|]. by rewrite IH. Qed.

Lemma set_members_same (group : Group) :
  set_members (g_members group) group = group.
Proof. by destruct group. Qed.

Lemma set_members_twice (m m' : Members) (group : Group) :
  set_members m' (set_members m group) = set_members m' group.
Proof. done. Qed.

(** One more push, onto an array. *)
Lemma push_all_array (members : Members) (js : list nat) (user : nat)
    (items : list Scalar) (pushed : list nat) :
  push_all members js = MArray items pushed →
  push_all members (js ++ [user]) = MArray items (pushed ++ [user]).
Proof.
  destruct js as [|j js]; simpl.
  - by intros ->.
  - destruct members; intros ?; simplify_eq; simpl; try done.
    by rewrite <- (assoc_L (++)).
Qed.

(** The first push, onto a group without members. *)
Lemma push_all_first (members : Members) (js : list nat) (user : nat) :
  push_all members js = MAbsent ∨ push_all members js = MFalsy →
  push_all members (js ++ [user]) = MArray [] [user].
Proof.
  destruct js as [|j js]; simpl.
  - by intros [-> | ->].
  - destruct members; by intros [?|?].
Qed.

Lemma pushed_ext (gs : list Group) (js js' : nat → list nat) (heap : list Group) :
  (∀ g, js g = js' g) → pushed gs js heap → pushed gs js' heap.
Proof.
  intros Hjs [Hlen Hheap]. split; [done|].
  intros g group Hg. rewrite <- Hjs. by apply Hheap.
Qed.

Lemma pushed_start (gs : list Group) : pushed gs (fun _ => []) gs.
Proof.
  split; [done|]. intros g group Hg. simpl. by rewrite set_members_same.
Qed.

Lemma pushes_snoc (groups : gmap string nat) (g position : nat)
    (ids : list Scalar) (gid : Scalar) :
  pushes groups g position (ids ++ [gid])
  = pushes groups g position ids
      ++ (if decide (groups !! scalar_key gid = Some g) then [position] else []).
Proof.
  unfold pushes. rewrite filter_app, fmap_app. f_equal.
  rewrite filter_cons, filter_nil. by case_decide.
Qed.

Lemma all_pushes_snoc (groups : gmap string nat) (users : list (Value RawUser))
    (user : Value RawUser) (g : nat) :
  all_pushes groups (users ++ [user]) g
  = all_pushes groups users g ++ pushes_of groups g (length users) user.
Proof.
  unfold all_pushes. rewrite imap_app, concat_app. simpl.
  by rewrite app_nil_r, Nat.add_0_r.
Qed.

Section PlainLoops.
Variable gs : list Group.

(** The identifiers of one user, while [Object.prototype] has no
    [members] and none of them reads [__proto__]: the array of results, the
    warnings and the pushes. *)
Lemma resolve_gids_plain (user : nat) (uid : string) (b0 : Build)
    (ids : list Scalar) (js : nat → list nat) :
  let step := foldl (resolve_gid (index_groups gs) user uid) (b0, []) ids in
  b_inherited b0 !! "__proto__" = None →
  Forall (fun gid => scalar_key gid ≠ "__proto__") ids →
  pushed gs js (b_heap b0) →
  b_thrown step.1 = None →
  b_inherited step.1 !! "__proto__" = None ∧
  step.2 = (fun gid => lookup_name ∅ (index_groups gs) (scalar_key gid)) <$> ids ∧
  b_log step.1
    = b_log b0 ++ omap (fun gid =>
                          match lookup_name ∅ (index_groups gs) (scalar_key gid) with
                          | Some _ => None
                          | None => Some (WarnGroupNotFound gid uid)
                          end) ids ∧
  pushed gs (fun g => js g ++ pushes (index_groups gs) g user ids) (b_heap step.1).
Proof.
  intros step Hinh Hids Hheap Hend. subst step.
  apply (resolve_gids_ind (index_groups gs) user uid
           (fun pre b out =>
              b_inherited b !! "__proto__" = None ∧
              out = (fun gid => lookup_name ∅ (index_groups gs) (scalar_key gid))
                      <$> pre ∧
              b_log b
                = b_log b0 ++ omap (fun gid =>
                                      match lookup_name ∅ (index_groups gs)
                                              (scalar_key gid) with
                                      | Some _ => None
                                      | None => Some (WarnGroupNotFound gid uid)
                                      end) pre ∧
              pushed gs (fun g => js g ++ pushes (index_groups gs) g user pre)
                (b_heap b))); [| | |done].
  - split; [done|]. split; [done|]. split; [by rewrite app_nil_r|].
    eapply pushed_ext; [|done]. intros g. by rewrite app_nil_r.
  - intros pre b out gid Hpre (Hinh' & -> & Hlog & Hheap') Hb Hlook. simpl.
    rewrite (lookup_name_unpolluted _ _ _ Hinh') in Hlook.
    split; [done|]. split; [by rewrite fmap_app; simpl; rewrite Hlook|].
    split.
    + rewrite Hlog, omap_app. simpl. rewrite Hlook. by rewrite <- (assoc_L (++)).
    + eapply pushed_ext; [|done]. intros g. rewrite pushes_snoc.
      case_decide as Hg; [|by rewrite app_nil_r].
      apply lookup_name_own with (inh := ∅) in Hg. congruence.
  - intros pre b out gid r heap inh Hpre (Hinh' & -> & Hlog & Hlen & Hheap')
      Hb Hlook Hpush. simpl.
    rewrite (lookup_name_unpolluted _ _ _ Hinh') in Hlook.
    assert (scalar_key gid ≠ "__proto__") as Hkey.
    { rewrite Forall_forall in Hids. apply Hids.
      eapply elem_of_prefix; [|done]. apply elem_of_app. right. by left. }
    assert (out_ok : (fun gid => lookup_name ∅ (index_groups gs) (scalar_key gid))
                       <$> (pre ++ [gid])
                     = ((fun gid => lookup_name ∅ (index_groups gs) (scalar_key gid))
                          <$> pre) ++ [Some r])
      by (by rewrite fmap_app; simpl; rewrite Hlook).
    assert (log_ok : omap (fun gid =>
                             match lookup_name ∅ (index_groups gs)
                                     (scalar_key gid) with
                             | Some _ => None
                             | None => Some (WarnGroupNotFound gid uid)
                             end) (pre ++ [gid])
                     = omap (fun gid =>
                               match lookup_name ∅ (index_groups gs)
                                       (scalar_key gid) with
                               | Some _ => None
                               | None => Some (WarnGroupNotFound gid uid)
                               end) pre)
      by (by rewrite omap_app; simpl; rewrite Hlook, app_nil_r).
    rewrite out_ok, log_ok. clear out_ok log_ok.
    unfold push_member in Hpush.
    destruct r as [g|name| |].
    + apply lookup_name_own in Hlook.
      destruct (index_groups_lookup _ _ _ Hlook) as (group & Hg & _).
      pose proof (Hheap' g group Hg) as Hbg. rewrite Hbg in Hpush. simpl in Hpush.
      assert (g < length (b_heap b)) as Hlt by (by eapply lookup_lt_Some).
      assert (∀ members inh',
                push_all (g_members group)
                  ((js g ++ pushes (index_groups gs) g user pre) ++ [user]) = members →
                heap = <[g := set_members members
                                (set_members
                                   (push_all (g_members group)
                                      (js g ++ pushes (index_groups gs) g user pre))
                                   group)]> (b_heap b) →
                inh' = b_inherited b →
                inh' !! "__proto__" = None ∧
                ((fun gid => lookup_name ∅ (index_groups gs) (scalar_key gid)) <$> pre)
                  ++ [Some (Own g)]
                = ((fun gid => lookup_name ∅ (index_groups gs) (scalar_key gid)) <$> pre)
                  ++ [Some (Own g)] ∧
                b_log b = b_log b0 ++ omap (fun gid =>
                                      match lookup_name ∅ (index_groups gs)
                                              (scalar_key gid) with
                                      | Some _ => None
                                      | None => Some (WarnGroupNotFound gid uid)
                                      end) pre ∧
                pushed gs (fun g0 => js g0 ++ pushes (index_groups gs) g0 user
                                               (pre ++ [gid])) heap) as Hdone.
      { intros members inh' Hmembers -> ->. split; [done|]. split; [done|].
        split; [done|]. split; [by rewrite length_insert|].
        intros g' group' Hg'. rewrite pushes_snoc.
        destruct (decide (g = g')) as [<-|Hne].
        - rewrite list_lookup_insert_eq by done.
          rewrite Hg in Hg'. injection Hg' as <-.
          rewrite decide_True by done. rewrite set_members_twice.
          by rewrite (assoc_L (++)), Hmembers.
        - rewrite list_lookup_insert_ne by done.
          rewrite decide_False by congruence. rewrite app_nil_r.
          by apply Hheap'. }
      destruct (push_all (g_members group)
                  (js g ++ pushes (index_groups gs) g user pre)) as [| |items ps|]
        eqn:Hmembers; simpl in Hpush.
      * rewrite Hinh' in Hpush. injection Hpush as <- <-.
        eapply Hdone; [|done|done]. apply push_all_first. by left.
      * injection Hpush as <- <-.
        eapply Hdone; [|done|done]. apply push_all_first. by right.
      * injection Hpush as <- <-.
        eapply Hdone; [|done|done]. by apply push_all_array.
      * done.
    + injection Hpush as <- <-.
      assert (index_groups gs !! scalar_key gid = None) as Hnone.
      { destruct (index_groups gs !! scalar_key gid) as [i|] eqn:Hi; [|done].
        apply lookup_name_own with (inh := ∅) in Hi. congruence. }
      assert (name ≠ "__proto__") as Hname.
      { apply lookup_groups_names in Hlook as (-> & Hin & _).
        intros Heq. rewrite Heq in Hin. by apply builtin_not_proto in Hin. }
      split; [|split; [done|split; [done|]]].
      * unfold push_inherited. destruct (b_inherited b !! name).
        -- by rewrite lookup_insert_ne.
        -- rewrite Hinh'. by rewrite lookup_insert_ne.
      * apply (pushed_ext gs (fun g => js g ++ pushes (index_groups gs) g user pre));
          [|by split].
        intros g. rewrite pushes_snoc.
        rewrite decide_False by congruence. by rewrite app_nil_r.
    + by apply lookup_groups_names in Hlook as [Heq _].
    + by apply lookup_groups_names in Hlook.
Qed.

(** The loop over users, while [Object.prototype] has no [members] and no
    user declares a group that reads [__proto__]. *)
Lemma fix_users_plain (users : list (Value RawUser)) (b0 : Build) :
  let step := foldl (fix_user (index_groups gs)) (b0, []) users in
  b_inherited b0 !! "__proto__" = None →
  (∀ user gid, Rec user ∈ users → gid ∈ default [] (ru_groups user) →
               scalar_key gid ≠ "__proto__") →
  b_heap b0 = gs →
  b_thrown step.1 = None →
  b_inherited step.1 !! "__proto__" = None ∧
  step.2 = fixed_user (index_groups gs) <$> users ∧
  b_log step.1 = b_log b0 ++ flat_map (lookup_warnings (index_groups gs)) users ∧
  pushed gs (all_pushes (index_groups gs) users) (b_heap step.1).
Proof.
  intros step Hinh Hids Hheap Hend. subst step.
  apply (fix_users_ind (index_groups gs)
           (fun pre b fixed =>
              b_inherited b !! "__proto__" = None ∧
              fixed = fixed_user (index_groups gs) <$> pre ∧
              b_log b = b_log b0 ++ flat_map (lookup_warnings (index_groups gs)) pre ∧
              pushed gs (all_pushes (index_groups gs) pre) (b_heap b)));
    [| | |done].
  - split; [done|]. split; [done|]. split; [by rewrite app_nil_r|].
    rewrite Hheap. apply pushed_start.
  - intros pre b fixed truthy Hpre (Hinh' & -> & Hlog & Hheap') Hb.
    unfold resolve_primary. rewrite (lookup_name_unpolluted _ _ _ Hinh').
    assert (flat_map (lookup_warnings (index_groups gs)) (pre ++ [Prim truthy])
            = flat_map (lookup_warnings (index_groups gs)) pre
                ++ lookup_warnings (index_groups gs) (Prim truthy)) as ->.
    { rewrite flat_map_app. simpl. by rewrite app_nil_r. }
    rewrite fmap_app. simpl.
    assert (pushed gs (all_pushes (index_groups gs) (pre ++ [Prim truthy])) (b_heap b))
      as Hheap''.
    { eapply pushed_ext; [|done]. intros g. rewrite all_pushes_snoc. simpl.
      by rewrite app_nil_r. }
    change (prop_key None) with "undefined".
    destruct (lookup_name ∅ (index_groups gs) "undefined"); simpl.
    + split; [done|]. split; [done|]. split; [by rewrite app_nil_r|done].
    + split; [done|]. split; [done|]. split; [|done].
      by rewrite Hlog, <- (assoc_L (++)).
  - intros pre b fixed user Hpre (Hinh' & -> & Hlog & Hheap') Hb b1 step Hstep.
    destruct (resolve_primary_state (index_groups gs) (ru_primaryGroup user)
                (Some (ru_uid user)) b) as (Hheap1 & Hinh1 & _ & _).
    fold b1 in Hheap1, Hinh1.
    assert (b_log b1 = b_log b
                       ++ match lookup_name ∅ (index_groups gs)
                                  (prop_key (ru_primaryGroup user)) with
                          | Some _ => []
                          | None => [WarnPrimaryGroupNotFound (ru_primaryGroup user)
                                       (Some (ru_uid user))]
                          end) as Hlog1.
    { subst b1. unfold resolve_primary.
      rewrite (lookup_name_unpolluted _ _ _ Hinh').
      destruct (lookup_name ∅ (index_groups gs) (prop_key (ru_primaryGroup user)));
        simpl; [by rewrite app_nil_r|done]. }
    destruct (resolve_gids_plain (length (fixed_user (index_groups gs) <$> pre))
                (ru_uid user) b1 (uniq (default [] (ru_groups user)))
                (all_pushes (index_groups gs) pre))
      as (Hinh2 & Hout & Hlog2 & Hheap2);
      [by rewrite Hinh1| |rewrite Hheap1; exact Hheap'|done|].
    { apply Forall_forall. intros gid Hgid.
      apply (proj1 (proj2 (uniq_spec _) gid)) in Hgid.
      apply (Hids user); [|done].
      eapply elem_of_prefix; [|done]. apply elem_of_app. right. by left. }
    fold step in Hinh2, Hout, Hlog2, Hheap2.
    split; [done|]. split; [|split].
    + rewrite fmap_app. simpl. f_equal. f_equal. unfold resolve_primary.
      rewrite (lookup_name_unpolluted _ _ _ Hinh').
      destruct (lookup_name ∅ (index_groups gs) (prop_key (ru_primaryGroup user)));
        simpl; rewrite Hout; by rewrite compact_fmap.
    + rewrite Hlog2, Hlog1, Hlog, flat_map_app. simpl.
      by rewrite app_nil_r, <- !(assoc_L (++)).
    + eapply pushed_ext; [|done]. intros g. rewrite all_pushes_snoc. simpl.
      by rewrite length_fmap.
Qed.
End PlainLoops.

(** [users[uid]] while [Object.prototype] has no [members]. *)
Lemma fix_layer_unpolluted (inh : Inherited) (own : gmap string nat)
    (users : list (Value RawUser)) (layer : RawLayer) :
  inh !! "__proto__" = None →
  fix_layer inh own users layer = fix_layer ∅ own users layer.
Proof.
  intros Hinh. unfold fix_layer. f_equal. f_equal. apply list_fmap_ext.
  intros i uid _. unfold read_user. by rewrite (lookup_name_unpolluted _ _ _ Hinh).
Qed.

(** What [buildDataStore] returns, while [Object.prototype] has no
    [members] and no user declares a group that reads [__proto__]. *)
Lemma buildDataStore_plain (inh : Inherited) (raw : RawStore) (log : Log)
    (built : Store) :
  unpolluted inh raw →
  built_store (buildDataStore inh raw log) = Return built →
  built_inherited (buildDataStore inh raw log) !! "__proto__" = None ∧
  s_dir built = r_dir raw ∧
  s_users built = fixed_user (index_groups (r_groups raw)) <$> r_users raw ∧
  pushed (r_groups raw) (all_pushes (index_groups (r_groups raw)) (r_users raw))
    (s_groups built) ∧
  s_layers built
    = fix_layer ∅ (index_users (r_users raw)) (r_users raw) <$> r_layers raw ∧
  built_log (buildDataStore inh raw log)
    = log ++ flat_map (lookup_warnings (index_groups (r_groups raw))) (r_users raw).
Proof.
  intros [Hinh Hclean] Hbuilt.
  assert (∀ user gid, Rec user ∈ r_users raw → gid ∈ default [] (ru_groups user) →
                      scalar_key gid ≠ "__proto__") as Hids.
  { intros user gid Huser Hgid Hkey. rewrite Forall_forall in Hclean.
    apply (Hclean (Rec user) Huser). simpl. apply Exists_exists. by exists gid. }
  destruct (buildDataStore_returns inh raw log built Hbuilt)
    as (b & fixed & Hfold & Hb & -> & -> & ->).
  destruct (fix_users_plain (r_groups raw) (r_users raw)
              {| b_heap := r_groups raw; b_log := log; b_inherited := inh;
                 b_thrown := None |})
    as (Hinh' & Hfixed & Hlog & Hheap); [done|done|done|by rewrite Hfold|].
  rewrite Hfold in Hinh', Hfixed, Hlog, Hheap. simpl in *.
  split; [done|]. split; [done|]. split; [done|]. split; [done|].
  split; [|done]. apply list_fmap_ext. intros i layer _.
  by apply fix_layer_unpolluted.
Qed.

(** [buildDataStore] keeps every user in its place, with its uid, cn and
    public keys. *)
Lemma buildDataStore_users (inh : Inherited) (raw : RawStore) (log : Log)
    (built : Store) :
  built_store (buildDataStore inh raw log) = Return built →
  Forall2 same_user (r_users raw) (s_users built).
Proof.
  intros Hbuilt.
  destruct (buildDataStore_returns inh raw log built Hbuilt)
    as (b & fixed & Hfold & Hb & _ & _ & ->). simpl.
  pose proof (fix_users_ind (index_groups (r_groups raw))
                (fun pre _ fixed => Forall2 same_user pre fixed)
                {| b_heap := r_groups raw; b_log := log; b_inherited := inh;
                   b_thrown := None |} (r_users raw)) as Hind.
  rewrite Hfold in Hind. apply Hind; [constructor| | |done].
  - intros pre b' fixed' truthy _ Hpre _. apply Forall2_app; [done|].
    by constructor.
  - intros pre b' fixed' user _ Hpre _ b1 step _. apply Forall2_app; [done|].
    by constructor.
Qed.

(** [buildDataStore] keeps every group in its place, with its name and its
    [gidNumber], and every layer with its id. *)
Lemma buildDataStore_groups (inh : Inherited) (raw : RawStore) (log : Log)
    (built : Store) :
  built_store (buildDataStore inh raw log) = Return built →
  g_cn <$> s_groups built = g_cn <$> r_groups raw ∧
  g_gidNumber <$> s_groups built = g_gidNumber <$> r_groups raw ∧
  l_id <$> s_layers built = rl_id <$> r_layers raw ∧
  s_dir built = r_dir raw.
Proof.
  intros Hbuilt.
  destruct (buildDataStore_returns inh raw log built Hbuilt)
    as (b & fixed & Hfold & Hb & _ & _ & ->). simpl.
  destruct (fix_users_resolved (r_groups raw) (r_users raw)
              {| b_heap := r_groups raw; b_log := log; b_inherited := inh;
                 b_thrown := None |})
    as (_ & _ & Hcn & Hgid); [done|by rewrite Hfold|].
  rewrite Hfold in Hcn, Hgid. simpl in *.
  split; [done|]. split; [done|]. split; [|done].
  rewrite <- list_fmap_compose. by apply list_fmap_ext.
Qed.

(** ** The resolved store *)

Lemma omap_same {A B} (f h : A → option B) (l : list A) :
  (∀ x, f x = h x) → omap f l = omap h l.
Proof. intros Hfh. induction l as [|x l IH]; csimpl; [done|]. by rewrite Hfh, IH. Qed.

(** The warnings the dictionary gives are the warnings for the names that
    name nothing. *)
Lemma lookup_warnings_dangling (gs : list Group) (user : Value RawUser) :
  lookup_warnings (index_groups gs) user = user_warnings gs user.
Proof.
  assert (∀ (k : string) (A : Type) (x y : A),
            match lookup_name ∅ (index_groups gs) k with
            | Some _ => x
            | None => y
            end = if decide (dangling g_cn gs k) then y else x) as Hcase.
  { intros k A x y.
    destruct (lookup_name ∅ (index_groups gs) k) as [r|] eqn:Hk.
    - rewrite decide_False; [done|]. intros Hd%lookup_groups_dangling. congruence.
    - rewrite decide_True; [done|]. by apply lookup_groups_dangling. }
  destruct user as [truthy|user]; simpl; [apply Hcase|].
  rewrite Hcase. f_equal. apply omap_same. intros gid. apply Hcase.
Qed.

(** The pushes onto a group are made for the users that have the group
    among their groups. *)
Lemma pushes_listed (gs : list Group) (g position : nat) (ids : list Scalar) :
  pushes (index_groups gs) g position ids
  = (fun _ : Ref => position)
      <$> filter (fun r => r = Own g)
            (omap (fun gid => lookup_name ∅ (index_groups gs) (scalar_key gid)) ids).
Proof.
  unfold pushes. induction ids as [|gid ids IH]; [done|].
  rewrite filter_cons. csimpl.
  destruct (lookup_name ∅ (index_groups gs) (scalar_key gid)) as [r|] eqn:Hr.
  - rewrite filter_cons.
    destruct (decide (r = Own g)) as [->|Hne].
    + apply lookup_name_own in Hr. rewrite decide_True by done. csimpl.
      by rewrite IH.
    + rewrite decide_False; [done|]. intros Hg.
      apply lookup_name_own with (inh := ∅) in Hg. congruence.
  - rewrite decide_False; [done|]. intros Hg.
    apply lookup_name_own with (inh := ∅) in Hg. congruence.
Qed.

Lemma all_pushes_listed (gs : list Group) (users : list (Value RawUser)) (g : nat) :
  all_pushes (index_groups gs) users g
  = listed (fixed_user (index_groups gs) <$> users) g.
Proof.
  unfold all_pushes, listed. rewrite imap_fmap. f_equal. apply imap_ext.
  intros i [truthy|user] _; simpl; [done|]. apply pushes_listed.
Qed.

(** A user is listed as often as it has the group. *)
Lemma elem_of_listed (users : list (Value User)) (g j : nat) :
  j ∈ listed users g ↔ ∃ user, users !! j = Some (Rec user) ∧ Own g ∈ u_groups user.
Proof.
  unfold listed. rewrite list_elem_of_In, in_concat. split.
  - intros (js & Hjs & Hj). apply list_elem_of_In in Hjs, Hj.
    apply elem_of_lookup_imap in Hjs as (i & [truthy|user] & -> & Hi).
    { inversion Hj. }
    apply list_elem_of_fmap in Hj as (r & -> & Hr).
    apply list_elem_of_filter in Hr as [-> Hr]. by exists user.
  - intros (user & Hj & Hg).
    exists ((fun _ : Ref => j) <$> filter (fun r => r = Own g) (u_groups user)).
    split; apply list_elem_of_In.
    + apply elem_of_lookup_imap. by exists j, (Rec user).
    + apply list_elem_of_fmap. exists (Own g). split; [done|].
      by apply list_elem_of_filter.
Qed.

(** What each name of a list reads, and the objects kept. *)
Lemma picks_of {A} (key : A → string) (l : list A) (own : gmap string nat)
    (P : string → option Ref → Prop) (ks : list string) :
  (∀ k, k ∈ ks → P k (lookup_name ∅ own k)) →
  Forall2 P ks (lookup_name ∅ own <$> ks).
Proof.
  intros HP. apply Forall2_fmap_r, Forall_Forall2_diag, Forall_forall.
  intros k Hk. by apply HP.
Qed.

(** X2: when [buildDataStore] returns, it has kept the directory and
    every record in its place: a primitive among the users is as it was,
    a user has its uid, cn and public keys, a group its cn and gidNumber, a
    layer its id; no record is added, dropped or reordered. *)
Theorem buildDataStore_keeps_records (inh : Inherited) (raw : RawStore)
    (log : Log) (built : Store) :
  built_store (buildDataStore inh raw log) = Return built →
  s_dir built = r_dir raw ∧
  Forall2 same_user (r_users raw) (s_users built) ∧
  Forall2 (fun group group' => g_cn group' = g_cn group ∧
                               g_gidNumber group' = g_gidNumber group)
    (r_groups raw) (s_groups built) ∧
  Forall2 (fun layer layer' => l_id layer' = rl_id layer)
    (r_layers raw) (s_layers built).
Proof.
  intros Hbuilt.
  destruct (buildDataStore_groups inh raw log built Hbuilt)
    as (Hcn & Hgid & Hlayers & Hdir).
  split; [done|]. split; [by eapply buildDataStore_users|]. split.
  - apply Forall2_same_length_lookup. split.
    + apply (f_equal length) in Hcn. by rewrite !length_fmap in Hcn.
    + intros i group group' Hi Hi'.
      apply (f_equal (fun l => l !! i)) in Hcn.
      apply (f_equal (fun l => l !! i)) in Hgid. simpl in Hcn, Hgid.
      rewrite !list_lookup_fmap, Hi, Hi' in Hcn.
      rewrite !list_lookup_fmap, Hi, Hi' in Hgid. simpl in *.
      split; congruence.
  - apply Forall2_same_length_lookup. split.
    + apply (f_equal length) in Hlayers. by rewrite !length_fmap in Hlayers.
    + intros i layer layer' Hi Hi'.
      apply (f_equal (fun l => l !! i)) in Hlayers. simpl in Hlayers.
      rewrite !list_lookup_fmap, Hi, Hi' in Hlayers. simpl in *. congruence.
Qed.

Lemma buildDataStore_keeps_records_witness :
  ∃ built,
    built_store Cases.built_odd = Return built ∧
    Forall2 same_user [Prim true; Rec Cases.eve] (s_users built) ∧
    g_cn <$> s_groups built = ["staff"; "100"].
Proof.
  eexists. split; [reflexivity|]. split; [|reflexivity].
  exact (proj1 (proj2 (buildDataStore_keeps_records ∅ Cases.raw_odd [] _ eq_refl))).
Defined.

(** X3: while no group is named [__proto__] and [Object.prototype] has no
    [members], the primary group of a user becomes what its name reads in
    the dictionary of groups: the last group of that name, or, when no
    group bears the name, the property of that name that
    [Object.prototype] defines (an absent field reads as the name
    [undefined]); when the name reads nothing, the field is left as it was
    and a warning with the field and the uid is logged. *)
Theorem primary_group_resolution (inh : Inherited) (raw : RawStore) (log : Log)
    (built : Store) (i : nat) (ru : RawUser) :
  plain_groups raw → unpolluted inh raw →
  built_store (buildDataStore inh raw log) = Return built →
  r_users raw !! i = Some (Rec ru) →
  ∃ user,
    s_users built !! i = Some (Rec user) ∧
    match u_primaryGroup user with
    | PGRef r => names g_cn (r_groups raw) (prop_key (ru_primaryGroup ru)) r
    | PGRaw id =>
        id = ru_primaryGroup ru ∧
        dangling g_cn (r_groups raw) (prop_key id) ∧
        WarnPrimaryGroupNotFound id (Some (ru_uid ru))
          ∈ built_log (buildDataStore inh raw log)
    end.
Proof.
  intros _ Hclean Hbuilt Hru.
  destruct (buildDataStore_plain inh raw log built Hclean Hbuilt)
    as (_ & _ & Husers & _ & _ & Hlog).
  rewrite Husers, Hlog, list_lookup_fmap, Hru. simpl. eexists. split; [done|].
  simpl.
  destruct (lookup_name ∅ (index_groups (r_groups raw))
              (prop_key (ru_primaryGroup ru))) as [r|] eqn:Hlook.
  - by apply lookup_groups_names.
  - split; [done|]. split; [by apply lookup_groups_dangling|].
    apply elem_of_app. right. apply list_elem_of_In, in_flat_map.
    exists (Rec ru). split; [by eapply list_elem_of_In, list_elem_of_lookup_2|].
    apply list_elem_of_In. simpl. rewrite Hlook. apply elem_of_app. left. by left.
Qed.

Lemma primary_group_resolution_witness :
  ∃ built user,
    built_store Cases.built_odd = Return built ∧
    s_users built !! 1 = Some (Rec user) ∧
    u_primaryGroup user = PGRef (Builtin "toString") ∧
    names g_cn (r_groups Cases.raw_odd) "toString" (Builtin "toString").
Proof.
  assert (plain_groups Cases.raw_odd) as Hplain
    by (apply (bool_decide_unpack _); by vm_compute).
  assert (unpolluted ∅ Cases.raw_odd) as Hclean
    by (apply (bool_decide_unpack _); by vm_compute).
  destruct (primary_group_resolution ∅ Cases.raw_odd [] _ 1 Cases.eve
              Hplain Hclean eq_refl eq_refl) as (user & Huser & Hprimary).
  vm_compute in Huser. injection Huser as <-.
  eexists _, _. split; [reflexivity|]. split; [reflexivity|].
  split; [reflexivity|]. exact Hprimary.
Defined.

(** X4: while no group is named [__proto__] and [Object.prototype] has no
    [members], the groups of a user become, for the distinct identifiers it
    declares, in the order in which it declares them, what each reads in
    the dictionary of groups: the last group of that name, or, when no
    group bears the name, the property of that name that
    [Object.prototype] defines; an identifier that reads nothing is left
    out and a warning with the identifier and the uid is logged.  Two
    identifiers that are different values and read the same group (a
    number and its decimal form) put the group twice. *)
Theorem user_groups_resolution (inh : Inherited) (raw : RawStore) (log : Log)
    (built : Store) (i : nat) (ru : RawUser) :
  plain_groups raw → unpolluted inh raw →
  built_store (buildDataStore inh raw log) = Return built →
  r_users raw !! i = Some (Rec ru) →
  ∃ user picks,
    s_users built !! i = Some (Rec user) ∧
    Forall2 (fun gid pick =>
               match pick with
               | Some r => names g_cn (r_groups raw) (scalar_key gid) r
               | None =>
                   dangling g_cn (r_groups raw) (scalar_key gid) ∧
                   WarnGroupNotFound gid (ru_uid ru)
                     ∈ built_log (buildDataStore inh raw log)
               end)
      (uniq (default [] (ru_groups ru))) picks ∧
    u_groups user = compact picks.
Proof.
  intros _ Hclean Hbuilt Hru.
  destruct (buildDataStore_plain inh raw log built Hclean Hbuilt)
    as (_ & _ & Husers & _ & _ & Hlog).
  rewrite Husers, Hlog, list_lookup_fmap, Hru. simpl.
  eexists _, ((fun gid => lookup_name ∅ (index_groups (r_groups raw)) (scalar_key gid))
                <$> uniq (default [] (ru_groups ru))).
  split; [done|]. simpl. split; [|by rewrite compact_fmap].
  apply Forall2_fmap_r, Forall_Forall2_diag, Forall_forall.
  intros gid Hgid. simpl.
  destruct (lookup_name ∅ (index_groups (r_groups raw)) (scalar_key gid))
    as [r|] eqn:Hlook.
  - by apply lookup_groups_names.
  - split; [by apply lookup_groups_dangling|].
    apply elem_of_app. right. apply list_elem_of_In, in_flat_map.
    exists (Rec ru). split; [by eapply list_elem_of_In, list_elem_of_lookup_2|].
    apply list_elem_of_In. simpl. apply elem_of_app. right.
    apply list_elem_of_omap. exists gid. split; [done|]. by rewrite Hlook.
Qed.

Lemma user_groups_resolution_witness :
  ∃ built user,
    built_store Cases.built_odd = Return built ∧
    s_users built !! 1 = Some (Rec user) ∧
    uniq (default [] (ru_groups Cases.eve))
      = [SNum "100"; SStr "100"; SStr "constructor"] ∧
    u_groups user = [Own 1; Own 1; Builtin "constructor"].
Proof.
  assert (plain_groups Cases.raw_odd) as Hplain
    by (apply (bool_decide_unpack _); by vm_compute).
  assert (unpolluted ∅ Cases.raw_odd) as Hclean
    by (apply (bool_decide_unpack _); by vm_compute).
  destruct (user_groups_resolution ∅ Cases.raw_odd [] _ 1 Cases.eve
              Hplain Hclean eq_refl eq_refl) as (user & picks & Huser & _ & _).
  vm_compute in Huser. injection Huser as <-.
  eexists _, _. split; [reflexivity|]. split; [reflexivity|].
  split; reflexivity.
Defined.

(** X5: while no group is named [__proto__] and [Object.prototype] has no
    [members], the [members] of a group in the store that
    [buildDataStore] returns are those it came in with, followed by the
    users that have the group among their groups, in the order of the
    users, each as often as it has the group; a group that no user has
    keeps its [members] as they were, absent when they were absent. *)
Theorem group_members_exact (inh : Inherited) (raw : RawStore) (log : Log)
    (built : Store) (g : nat) (group0 : Group) :
  plain_groups raw → unpolluted inh raw →
  built_store (buildDataStore inh raw log) = Return built →
  r_groups raw !! g = Some group0 →
  ∃ group,
    s_groups built !! g = Some group ∧
    g_members group = push_all (g_members group0) (listed (s_users built) g) ∧
    ∀ j, j ∈ listed (s_users built) g ↔
         ∃ user, s_users built !! j = Some (Rec user) ∧ Own g ∈ u_groups user.
Proof.
  intros _ Hclean Hbuilt Hg.
  destruct (buildDataStore_plain inh raw log built Hclean Hbuilt)
    as (_ & _ & Husers & [_ Hheap] & _ & _).
  eexists. split; [by apply Hheap|]. simpl.
  split; [by rewrite all_pushes_listed, Husers|]. apply elem_of_listed.
Qed.

Lemma group_members_exact_witness :
  ∃ built group,
    built_store Cases.built_odd = Return built ∧
    s_groups built !! 1 = Some group ∧
    listed (s_users built) 1 = [1; 1] ∧
    g_members group = MArray [SStr "root"] [1; 1].
Proof.
  assert (plain_groups Cases.raw_odd) as Hplain
    by (apply (bool_decide_unpack _); by vm_compute).
  assert (unpolluted ∅ Cases.raw_odd) as Hclean
    by (apply (bool_decide_unpack _); by vm_compute).
  destruct (group_members_exact ∅ Cases.raw_odd [] _ 1 Cases.hundred
              Hplain Hclean eq_refl eq_refl) as (group & Hgroup & Hmembers & _).
  eexists _, group. split; [reflexivity|]. split; [exact Hgroup|].
  split; [reflexivity|]. exact Hmembers.
Defined.

(** X6: while no user is named [__proto__] and [Object.prototype] has no
    [members], the users of a layer become, for the names it declares, in
    their order, what each reads in the dictionary of users: the last user
    of that uid (a primitive among the users bears the uid [undefined]),
    or, when no user bears the name, the property of that name that
    [Object.prototype] defines; a name that reads nothing, or a falsy
    primitive, is left out. *)
Theorem layer_users_resolution (inh : Inherited) (raw : RawStore) (log : Log)
    (built : Store) (i : nat) (rl : RawLayer) :
  plain_users raw → unpolluted inh raw →
  built_store (buildDataStore inh raw log) = Return built →
  r_layers raw !! i = Some rl →
  ∃ layer picks,
    s_layers built !! i = Some layer ∧ l_id layer = rl_id rl ∧
    Forall2 (fun uid pick =>
               match pick with
               | Some r =>
                   names user_key (r_users raw) uid r ∧
                   ∀ j, r = Own j → r_users raw !! j ≠ Some (Prim false)
               | None =>
                   dangling user_key (r_users raw) uid ∨
                   ∃ j, last_with user_key (r_users raw) uid j ∧
                        r_users raw !! j = Some (Prim false)
               end)
      (default [] (rl_users rl)) picks ∧
    l_users layer = compact picks.
Proof.
  intros _ Hclean Hbuilt Hrl.
  destruct (buildDataStore_plain inh raw log built Hclean Hbuilt)
    as (_ & _ & _ & _ & Hlayers & _).
  rewrite Hlayers, list_lookup_fmap, Hrl. simpl.
  eexists _, (read_user ∅ (index_users (r_users raw)) (r_users raw)
                <$> default [] (rl_users rl)).
  split; [done|]. split; [done|]. split; [|done].
  apply Forall2_fmap_r, Forall_Forall2_diag, Forall_forall.
  intros uid _. simpl. unfold read_user.
  destruct (lookup_name ∅ (index_users (r_users raw)) uid) as [r|] eqn:Hlook.
  - apply lookup_users_names in Hlook.
    destruct r as [j|name| |]; try (split; [done|]; by intros j [=]).
    destruct (r_users raw !! j) as [[[]|ru]|] eqn:Hj.
    + split; [done|]. intros j' [= <-]. congruence.
    + right. by exists j.
    + split; [done|]. intros j' [= <-]. congruence.
    + split; [done|]. intros j' [= <-]. congruence.
  - left. by apply lookup_users_dangling.
Qed.

Lemma layer_users_resolution_witness :
  ∃ built layer,
    built_store Cases.built_odd = Return built ∧
    s_layers built !! 0 = Some layer ∧
    l_users layer = [Own 1; Own 0; Builtin "valueOf"].
Proof.
  assert (plain_users Cases.raw_odd) as Hplain
    by (apply (bool_decide_unpack _); by vm_compute).
  assert (unpolluted ∅ Cases.raw_odd) as Hclean
    by (apply (bool_decide_unpack _); by vm_compute).
  destruct (layer_users_resolution ∅ Cases.raw_odd [] _ 0 _
              Hplain Hclean eq_refl eq_refl) as (layer & picks & Hlayer & _).
  eexists _, layer. split; [reflexivity|]. split; [exact Hlayer|].
  vm_compute in Hlayer. by injection Hlayer as <-.
Defined.

(** X7: while no group is named [__proto__] and [Object.prototype] has no
    [members], [buildDataStore], when it returns, has appended to the log
    exactly the warnings for the names that name nothing, user by user in
    the order of the users: for each user one warning when its primary
    group reads nothing, then one for each distinct identifier among its
    groups that reads nothing, in the order in which it declares them.
    Nothing is logged for a layer. *)
Theorem resolver_warnings (inh : Inherited) (raw : RawStore) (log : Log)
    (built : Store) :
  plain_groups raw → unpolluted inh raw →
  built_store (buildDataStore inh raw log) = Return built →
  built_log (buildDataStore inh raw log)
    = log ++ flat_map (user_warnings (r_groups raw)) (r_users raw).
Proof.
  intros _ Hclean Hbuilt.
  destruct (buildDataStore_plain inh raw log built Hclean Hbuilt)
    as (_ & _ & _ & _ & _ & ->).
  f_equal. apply flat_map_ext. intros user. apply lookup_warnings_dangling.
Qed.

Lemma resolver_warnings_witness :
  built_log Cases.built
    = [WarnGroupNotFound (SStr "nope") "alice";
       WarnPrimaryGroupNotFound (Some (SStr "wheel")) (Some "bob")].
Proof.
  assert (plain_groups Cases.raw) as Hplain
    by (apply (bool_decide_unpack _); by vm_compute).
  assert (unpolluted ∅ Cases.raw) as Hclean
    by (apply (bool_decide_unpack _); by vm_compute).
  unfold Cases.built.
  rewrite (resolver_warnings ∅ Cases.raw [] _ Hplain Hclean eq_refl).
  reflexivity.
Defined.

(** The names that users and layers declare, one by one. *)
Lemma declared_primary (raw : RawStore) (user : RawUser) :
  Rec user ∈ r_users raw → prop_key (ru_primaryGroup user) ∈ declared_names raw.
Proof.
  intros Huser. unfold declared_names. apply elem_of_app. left.
  apply list_elem_of_In, in_flat_map. exists (Rec user).
  split; [by apply list_elem_of_In|]. by left.
Qed.

Lemma declared_group (raw : RawStore) (user : RawUser) (gid : Scalar) :
  Rec user ∈ r_users raw → gid ∈ default [] (ru_groups user) →
  scalar_key gid ∈ declared_names raw.
Proof.
  intros Huser Hgid. unfold declared_names. apply elem_of_app. left.
  apply list_elem_of_In, in_flat_map. exists (Rec user).
  split; [by apply list_elem_of_In|]. right.
  apply list_elem_of_In, list_elem_of_fmap. by exists gid.
Qed.

Lemma declared_layer_user (raw : RawStore) (layer : RawLayer) (uid : string) :
  layer ∈ r_layers raw → uid ∈ default [] (rl_users layer) →
  uid ∈ declared_names raw.
Proof.
  intros Hlayer Huid. unfold declared_names. apply elem_of_app. right.
  apply list_elem_of_In, in_flat_map. exists layer.
  split; by apply list_elem_of_In.
Qed.

(** A resolved name that [Object.prototype] does not define is an object
    of the dictionary. *)
Lemma names_plain {A} (key : A → string) (l : list A) (k : string) (r : Ref) :
  ¬ inherited_name k → names key l k r → ∃ i, r = Own i ∧ is_Some (l !! i).
Proof.
  intros Hk. destruct r as [i|name| |]; simpl.
  - intros [(x & Hx & _) _]. exists i. split; [done|by eexists].
  - intros (_ & Hin & _). destruct Hk. by right.
  - intros (-> & _). destruct Hk. by left.
  - done.
Qed.

(** When no declared name is one that [Object.prototype] defines, the
    references of the store are closed. *)
Lemma buildDataStore_closed (inh : Inherited) (raw : RawStore) (log : Log)
    (built : Store) :
  inh !! "__proto__" = None →
  Forall (fun k => ¬ inherited_name k) (declared_names raw) →
  built_store (buildDataStore inh raw log) = Return built →
  refs_closed built.
Proof.
  intros Hinh Hnames Hbuilt. rewrite Forall_forall in Hnames.
  assert (unpolluted inh raw) as Hclean.
  { split; [done|]. apply Forall_forall. intros [truthy|user] Huser; [by intros []|].
    simpl. intros (gid & Hgid & Hkey)%Exists_exists.
    apply (Hnames (scalar_key gid)); [by eapply declared_group|]. by left. }
  destruct (buildDataStore_plain inh raw log built Hclean Hbuilt)
    as (_ & _ & Husers & [Hlen _] & Hlayers & _).
  assert (∀ user, Rec user ∈ s_users built →
            ∃ ru, Rec ru ∈ r_users raw ∧
                  Rec user = fixed_user (index_groups (r_groups raw)) (Rec ru))
    as Hfrom.
  { intros user Huser. rewrite Husers in Huser.
    apply list_elem_of_fmap in Huser as ([truthy|ru] & Heq & Hru); [done|].
    by exists ru. }
  assert (∀ r i, r = Own i → is_Some (r_groups raw !! i) →
                 in_store (s_groups built) r) as Hgroup.
  { intros r i -> Hi. exists i. split; [done|].
    apply lookup_lt_is_Some. rewrite Hlen. by apply lookup_lt_is_Some. }
  split; [|split].
  - intros user r Huser Hprimary.
    destruct (Hfrom user Huser) as (ru & Hru & Heq). injection Heq as ->.
    simpl in Hprimary.
    destruct (lookup_name ∅ (index_groups (r_groups raw))
                (prop_key (ru_primaryGroup ru))) as [r'|] eqn:Hlook; [|done].
    injection Hprimary as ->. apply lookup_groups_names in Hlook.
    apply names_plain in Hlook as (i & -> & Hi);
      [by eapply Hgroup|by apply Hnames, declared_primary].
  - intros user r Huser Hr.
    destruct (Hfrom user Huser) as (ru & Hru & Heq). injection Heq as ->.
    simpl in Hr. apply list_elem_of_omap in Hr as (gid & Hgid & Hlook).
    apply (proj1 (proj2 (uniq_spec _) gid)) in Hgid.
    apply lookup_groups_names in Hlook.
    apply names_plain in Hlook as (i & -> & Hi);
      [by eapply Hgroup|by eapply Hnames, declared_group].
  - intros layer r Hlayer Hr. rewrite Hlayers in Hlayer.
    apply list_elem_of_fmap in Hlayer as (rl & -> & Hrl). simpl in Hr.
    unfold compact in Hr. apply list_elem_of_omap in Hr as (pick & Hpick & Heq).
    simpl in Heq. subst pick.
    apply list_elem_of_fmap in Hpick as (uid & Hread & Huid).
    unfold read_user in Hread.
    destruct (lookup_name ∅ (index_users (r_users raw)) uid) as [r'|] eqn:Hlook;
      [|done].
    apply lookup_users_names in Hlook.
    apply names_plain in Hlook as (j & -> & Hj);
      [|by eapply Hnames, declared_layer_user].
    assert (r = Own j) as ->.
    { destruct (r_users raw !! j) as [[[]|ru]|]; by simplify_eq. }
    exists j. split; [done|]. apply lookup_lt_is_Some.
    rewrite Husers, length_fmap. by apply lookup_lt_is_Some.
Qed.

(** X25: while [Object.prototype] has no [members], no group and no user
    is named [__proto__], and no name that a user or a layer declares (a
    primary group, a group, a user of a layer) is one that
    [Object.prototype] defines, every resolved reference of the store that
    [buildDataStore] returns is an object of that store's own groups or
    users. *)
Theorem plain_names_close_the_store (inh : Inherited) (raw : RawStore)
    (log : Log) (built : Store) :
  plain_groups raw → plain_users raw →
  inh !! "__proto__" = None →
  Forall (fun k => ¬ inherited_name k) (declared_names raw) →
  built_store (buildDataStore inh raw log) = Return built →
  refs_closed built.
Proof. intros _ _. apply buildDataStore_closed. Qed.

Lemma plain_names_close_the_store_witness :
  ∃ built, built_store Cases.built = Return built ∧ refs_closed built.
Proof.
  eexists. split; [reflexivity|].
  apply (plain_names_close_the_store ∅ Cases.raw []).
  - apply (bool_decide_unpack _). by vm_compute.
  - apply (bool_decide_unpack _). by vm_compute.
  - reflexivity.
  - apply (bool_decide_unpack _). by vm_compute.
  - reflexivity.
Defined.

(** ** The layers read from directories *)

Lemma sum_list_full {A} (f : A -> nat) (l : list A) :
  Forall (fun x => f x ≤ 1) l → length l ≤ sum_list (f <$> l) →
  Forall (fun x => f x = 1) l.
Proof.
  induction 1 as [|x l Hx Hl IH]; csimpl; [constructor|]. intros Hsum.
  pose proof (sum_list_at_most_one f l Hl).
  constructor; [lia|]. apply IH. lia.
Qed.

Lemma count_ok_pos {A} (calls : list (Callback A)) :
  0 < count_ok calls → ∃ v, CbOk v ∈ calls.
Proof.
  induction calls as [|[err|v] calls IH]; simpl; [lia|..].
  - intros Hpos. destruct (IH Hpos) as [v Hv]. exists v. by right.
  - intros _. exists v. by left.
Qed.

(** A delivery of the layers is the value handed in, and takes as many
    completed scans as the countdown started from. *)
Lemma join_scans_delivery (layers x : list RawLayer) (c : Z)
    (evs : list (nat * Callback (list unit))) :
  CbOk x ∈ join_scans layers c evs →
  x = layers ∧ (0 < c ≤ Z.of_nat (count_ok evs.*2))%Z.
Proof.
  revert c. induction evs as [|[i [err|v]] evs IH]; intros c;
    rewrite ?fmap_cons; simpl.
  - intros Hin. inversion Hin.
  - intros Hin. apply elem_of_cons in Hin as [?|Hin]; [done|]. by apply IH.
  - case_decide as Hc.
    + intros Hin. apply elem_of_cons in Hin as [Hin|Hin].
      * simplify_eq. split; [done|lia].
      * apply IH in Hin as [_ ?]. lia.
    + intros Hin. apply IH in Hin as [-> ?]. split; [done|lia].
Qed.

(** When every scan completes and none fails, the layers are delivered,
    once. *)
Lemma join_scans_all_ok (layers : list RawLayer) (c : Z)
    (evs : list (nat * Callback (list unit))) :
  count_err evs.*2 = 0 → (0 < c)%Z → c = Z.of_nat (count_ok evs.*2) →
  join_scans layers c evs = [CbOk layers].
Proof.
  revert c. induction evs as [|[i [err|v]] evs IH]; intros c;
    rewrite ?fmap_cons; simpl; [lia|lia|].
  intros Herr Hpos Hc. case_decide as Hz.
  - assert (evs = []) as ->; [|done].
    assert (evs.*2 = []) as Hnil by (apply count_zero_nil; [lia|done]).
    by destruct evs.
  - apply IH; [done|lia..].
Qed.

Section LayersResult.
Local Arguments Js.join : simpl never.
Variable fs : FileSystem.
Variable dir : string.

Lemma threads_stubs (es : list Entry) (layers : list RawLayer) (s s' : unit) :
  threads (fun dirname (_ : option string) (s : unit) =>
             (s, Return {| rl_id := dirname; rl_users := None |})) s es layers s' →
  layers = (fun e => {| rl_id := e_name e; rl_users := None |}) <$> es ∧
  ∀ e, e ∈ es → is_Some (entry_args e).
Proof.
  induction 1 as [|s e args s' v es vals s'' Hargs Hfn _ [-> IH]].
  { split; [done|]. intros e He. inversion He. }
  simplify_eq. split; [done|]. intros e' He'.
  apply elem_of_cons in He' as [->|He']; [by eexists|by apply IH].
Qed.

(** The membership scan of layer [i] pushes, onto that layer only, the names
    of the entries without their last segment. *)
Lemma threads_members (i : nat) (ms : list Entry) (vals : list unit)
    (layers layers' : list RawLayer) (layer : RawLayer) (users : list string) :
  threads (memberTransform i) layers ms vals layers' →
  layers !! i = Some layer → rl_users layer = Some users →
  (∀ m, m ∈ ms → is_Some (entry_args m)) ∧
  layers' !! i
    = Some {| rl_id := rl_id layer;
              rl_users := Some (users ++ ((fun m => fileUid (e_name m)) <$> ms)) |} ∧
  ∀ j, j ≠ i → layers' !! j = layers !! j.
Proof.
  intros Hthreads. revert layer users.
  induction Hthreads as [|s e args s' v es vals s'' Hargs Hfn _ IH];
    intros layer users Hlayer Husers.
  { split; [intros m Hm; inversion Hm|]. split; [|done].
    rewrite app_nil_r, Hlayer. f_equal. destruct layer. simpl in *. by subst. }
  unfold memberTransform in Hfn. simplify_eq.
  destruct (IH (push_layer_user (fileUid (e_name e)) layer)
              (users ++ [fileUid (e_name e)])) as (Hms & Hi & Hother).
  { by rewrite list_lookup_alter_eq, Hlayer. }
  { unfold push_layer_user. simpl. by rewrite Husers. }
  split; [|split].
  - intros m Hm. apply elem_of_cons in Hm as [->|Hm]; [by eexists|by apply Hms].
  - rewrite Hi. simpl. by rewrite <- (assoc_L (++)).
  - intros j Hj. rewrite (Hother j Hj). by apply list_lookup_alter_ne.
Qed.

(** The scans of the first [k] layers: a scan that delivers makes that one
    call, and has given its layer the names found in the layer's directory;
    the layers not yet scanned are as they were. *)
Lemma scan_layers_result (layers : list RawLayer) (k : nat) :
  k ≤ length layers →
  (∀ i layer t r,
     i < k → layers !! i = Some layer →
     (foldl (scan_layer fs dir) (layers, []) (seq 0 k)).2 !! i = Some t →
     CbOk r ∈ t →
     t = [CbOk r] ∧
     ∃ ms, fs (Js.join "/" [dir; "layers"; rl_id layer]) = inr ms ∧ ms ≠ [] ∧
           (∀ m, m ∈ ms → is_Some (entry_args m)) ∧
           (foldl (scan_layer fs dir) (layers, []) (seq 0 k)).1 !! i
             = Some {| rl_id := rl_id layer;
                       rl_users := Some ((fun m => fileUid (e_name m)) <$> ms) |}) ∧
  (∀ i, k ≤ i →
        (foldl (scan_layer fs dir) (layers, []) (seq 0 k)).1 !! i = layers !! i).
Proof.
  induction k as [|k IH]; intros Hk.
  { simpl. split; [intros; lia|done]. }
  destruct IH as [Hdone Hrest]; [lia|].
  destruct (scan_layers_inv fs dir layers k) as (Hids & Hlen & _ & _); [lia|].
  rewrite seq_S, foldl_app. simpl.
  destruct (foldl (scan_layer fs dir) (layers, []) (seq 0 k)) as [ls ts].
  simpl in *.
  assert (is_Some (layers !! k)) as [layer Hlayer] by (apply lookup_lt_is_Some; lia).
  rewrite (Hrest k) by lia. rewrite Hlayer.
  pose (ls1 := <[k:={| rl_id := rl_id layer; rl_users := Some [] |}]> ls).
  assert (k < length ls) as Hkls.
  { rewrite <- (length_fmap rl_id), Hids, length_fmap. lia. }
  pose proof (loadDir_delivery (memberTransform k) fs
                (Js.join "/" [dir; "layers"; rl_id layer]) ls1) as Hdelivery.
  pose proof (loadDir_state_inv (memberTransform k)
                (fun s => ∀ j, j ≠ k → s !! j = ls1 !! j) fs
                (Js.join "/" [dir; "layers"; rl_id layer]) ls1) as Hframe.
  fold ls1.
  destruct (loadDir (memberTransform k) fs
              (Js.join "/" [dir; "layers"; rl_id layer]) ls1) as [ls2 calls].
  simpl in *.
  assert (∀ j, j ≠ k → ls2 !! j = ls !! j) as Hother.
  { intros j Hj. rewrite Hframe; [|intros file contents s Hs j' Hj'|done|done].
    - unfold ls1. by rewrite list_lookup_insert_ne.
    - unfold memberTransform. simpl. rewrite list_lookup_alter_ne by done.
      by apply Hs. }
  split.
  - intros i layer' t r Hi Hlayer' Ht Hr.
    destruct (decide (i = k)) as [->|Hne].
    + assert (layer' = layer) as -> by congruence.
      rewrite lookup_app_r in Ht by lia.
      rewrite Hlen, Nat.sub_diag in Ht. simpl in Ht. injection Ht as <-.
      destruct (Hdelivery r Hr) as (ms & Hfs & Hne & -> & Hthreads).
      split; [done|]. exists ms. split; [done|]. split; [done|].
      destruct (threads_members k ms r ls1 ls2
                  {| rl_id := rl_id layer; rl_users := Some [] |} [] Hthreads)
        as (Hms & Hk' & _); [|done|by split].
      unfold ls1. by rewrite list_lookup_insert_eq.
    + rewrite lookup_app_l in Ht by lia.
      destruct (Hdone i layer' t r) as (Ht' & ms & Hfs & Hms & Hargs & Hls);
        [lia|done..|].
      split; [done|]. exists ms. repeat split; [done..|].
      by rewrite Hother.
  - intros i Hi. rewrite Hother by lia. apply Hrest. lia.
Qed.
End LayersResult.

Section LayersDelivery.
Local Arguments Js.join : simpl never.
Variable fs : FileSystem.
Variable dir : string.

Lemma sum_list_zero {A} (f : A -> nat) (l : list A) :
  Forall (fun x => f x = 0) l → sum_list (f <$> l) = 0.
Proof. induction 1; csimpl; lia. Qed.

Lemma sum_list_ones {A} (f : A -> nat) (l : list A) :
  Forall (fun x => f x = 1) l → sum_list (f <$> l) = length l.
Proof. induction 1; csimpl; lia. Qed.

(** When [loadLayers] delivers, it makes that one call, whatever the order
    in which the scans complete; [layers/] listed with at least one entry,
    and each layer bears the name of its entry and the names found in its
    own directory. *)
Lemma loadLayers_delivery (sched : list nat) (ls : list RawLayer) :
  CbOk ls ∈ loadLayers fs dir sched →
  ∃ es, fs (Js.join "/" [dir; "layers"]) = inr es ∧ es ≠ [] ∧
        (∀ e, e ∈ es → is_Some (entry_args e)) ∧
        Forall2 (layer_from fs dir) es ls ∧
        ∀ sched', loadLayers fs dir sched' = [CbOk ls].
Proof.
  unfold loadLayers. intros Hin.
  apply list_elem_of_In, in_flat_map in Hin as (ev & Hev & Hin).
  apply list_elem_of_In in Hev, Hin.
  destruct ev as [err|layers0]; [by apply list_elem_of_singleton in Hin|].
  unfold layerStubs in Hev |- *.
  apply loadDir_delivery in Hev as (es & Hfs & Hne & Hstubs & Hthreads).
  apply threads_stubs in Hthreads as [Hlayers0 Hargs].
  rewrite Hstubs. simpl flat_map. rewrite ?app_nil_r.
  assert (length layers0 = length es) as Hlen0 by (by rewrite Hlayers0, length_fmap).
  unfold on_layers in Hin |- *.
  destruct (scan_layers_inv fs dir layers0 (length layers0))
    as (Hids & Hlen & Hcount & _); [done|].
  destruct (scan_layers_result fs dir layers0 (length layers0)) as [Hresult _]; [done|].
  destruct (foldl (scan_layer fs dir) (layers0, []) (seq 0 (length layers0)))
    as [ls' ts]. simpl in *.
  apply join_scans_delivery in Hin as [-> Hn].
  rewrite interleave_count_ok in Hn.
  assert (Forall (fun t => count_ok t = 1) ts) as Hones.
  { apply sum_list_full; [done|lia]. }
  assert (∀ i t, ts !! i = Some t →
                 ∃ r e, t = [CbOk r] ∧ es !! i = Some e ∧
                        ∃ l, ls' !! i = Some l ∧ layer_from fs dir e l) as Hscan.
  { intros i t Ht. pose proof (lookup_lt_Some _ _ _ Ht) as Hi.
    assert (is_Some (es !! i)) as [e He] by (apply lookup_lt_is_Some; lia).
    assert (layers0 !! i = Some {| rl_id := e_name e; rl_users := None |}) as Hl0.
    { by rewrite Hlayers0, list_lookup_fmap, He. }
    destruct (count_ok_pos t) as [r Hr].
    { rewrite (proj1 (Forall_lookup _ _) Hones i t Ht). lia. }
    destruct (Hresult i _ t r ltac:(lia) Hl0 Ht Hr) as (-> & ms & Hms & Hmne & Hmargs & Hl).
    exists r, e. split; [done|]. split; [done|]. eexists. split; [exact Hl|].
    split; [done|]. by exists ms. }
  exists es. split; [done|]. split; [done|]. split; [done|]. split.
  - apply Forall2_same_length_lookup. split.
    { rewrite <- Hlen0, <- (length_fmap rl_id layers0), <- Hids. by rewrite length_fmap. }
    intros i e l He Hl.
    assert (is_Some (ts !! i)) as [t Ht].
    { apply lookup_lt_is_Some. apply lookup_lt_Some in He. lia. }
    destruct (Hscan i t Ht) as (r & e' & _ & He' & l' & Hl' & Hfrom). congruence.
  - intros sched'. rewrite app_nil_r. apply join_scans_all_ok.
    + rewrite interleave_count_err. apply sum_list_zero, Forall_lookup.
      intros i t Ht. by destruct (Hscan i t Ht) as (r & e & -> & _).
    + destruct es; [done|]. simpl in *. lia.
    + rewrite interleave_count_ok, (sum_list_ones _ _ Hones). lia.
Qed.
End LayersDelivery.

(** X8: when [loadLayers] delivers, it makes that one call, and would
    deliver the same layers for every order in which the membership scans
    complete; [layers/] lists at least one entry, and the layers delivered
    are, entry by entry, a layer of the entry's name whose users are the
    names found in the directory of that name, each without its last
    segment. *)
Theorem loadLayers_delivers (fs : FileSystem) (dir : string) (sched : list nat)
    (ls : list RawLayer) :
  CbOk ls ∈ loadLayers fs dir sched →
  ∃ es, fs (Js.join "/" [dir; "layers"]) = inr es ∧ es ≠ [] ∧
        (∀ e, e ∈ es → is_Some (entry_args e)) ∧
        Forall2 (layer_from fs dir) es ls ∧
        ∀ sched', loadLayers fs dir sched' = [CbOk ls].
Proof. apply loadLayers_delivery. Qed.

Lemma loadLayers_delivers_witness :
  ∃ ls,
    CbOk ls ∈ loadLayers Sample.tree "/srv" [1; 0] ∧
    ls = [ {| rl_id := "prod"; rl_users := Some ["alice"; "carol"] |};
           {| rl_id := "dev"; rl_users := Some ["bob"] |} ] ∧
    ∀ sched', loadLayers Sample.tree "/srv" sched' = [CbOk ls].
Proof.
  eexists. split; [vm_compute; by left|]. split; [reflexivity|].
  destruct (loadLayers_delivers Sample.tree "/srv" [1; 0] _
              ltac:(vm_compute; by left)) as (es & _ & _ & _ & _ & Hall).
  exact Hall.
Defined.

(** ** Loads that deliver *)

Section LoadDirComplete.
Context {S V : Type}.
Variable fn : string -> option string -> S -> S * Completion V.

(** When the transform goes through every entry, the result is delivered
    after the last one, and nothing else is reported. *)
Lemma run_threads (es : list Entry) (a : Acc S V) (vals : list V) (s' : S) :
  threads fn (acc_state a) es vals s' →
  acc_c a = Z.of_nat (length es) → es ≠ [] →
  acc_state (foldl (on_entry fn) a es) = s' ∧
  acc_calls (foldl (on_entry fn) a es) = acc_calls a ++ [CbOk (acc_result a ++ vals)].
Proof.
  revert a vals. induction es as [|e es IH]; intros a vals Hthreads Hc Hne; [done|].
  inversion Hthreads as [|s0 e0 args s1 v es0 vals0 s2 Hargs Hfn Hrest]; subst.
  assert (on_entry fn a e =
          {| acc_c := acc_c a - 1; acc_result := acc_result a ++ [v];
             acc_state := s1;
             acc_calls := if decide (0 = acc_c a - 1)%Z
                          then acc_calls a ++ [CbOk (acc_result a ++ [v])]
                          else acc_calls a |}) as Hstep.
  { unfold entry_args in Hargs. unfold on_entry, accumulate.
    destruct (e_kind e) as [?|[?|contents]| | |]; simplify_eq; by rewrite Hfn. }
  simpl foldl. rewrite Hstep. destruct es as [|e' es].
  - inversion Hrest; subst. simpl. rewrite decide_True by (simpl in *; lia). done.
  - destruct (IH {| acc_c := acc_c a - 1; acc_result := acc_result a ++ [v];
                    acc_state := s1;
                    acc_calls := if decide (0 = acc_c a - 1)%Z
                                 then acc_calls a ++ [CbOk (acc_result a ++ [v])]
                                 else acc_calls a |} vals0) as [Hstate Hcalls];
      [done|simpl in *; lia|done|].
    split; [done|]. rewrite Hcalls. simpl.
    rewrite decide_False by (simpl in *; lia). by rewrite <- (assoc_L (++)).
Qed.

Lemma loadDir_threads (fs : FileSystem) (dir : string) (s s' : S)
    (files : list Entry) (result : list V) :
  fs dir = inr files → files ≠ [] → threads fn s files result s' →
  loadDir fn fs dir s = (s', [CbOk result]).
Proof.
  intros Hfs Hne Hthreads. unfold loadDir. rewrite Hfs.
  destruct (run_threads files
              {| acc_c := Z.of_nat (length files); acc_result := [];
                 acc_state := s; acc_calls := [] |} result s') as [-> ->]; done.
Qed.
End LoadDirComplete.

Section LoaderComplete.
Variable safeLoad : option string -> Completion (option Doc).

Lemma users_threads (files : list Entry) (users : list (Value RawUser)) :
  Forall2 (user_from safeLoad) files users →
  threads (fun filename contents (s : unit) =>
             (s, userTransform safeLoad filename contents)) tt files users tt.
Proof.
  induction 1 as [|e user files users (args & doc & Hargs & Hdoc & ->) _ IH];
    [constructor|].
  econstructor; [exact Hargs| |exact IH].
  unfold userTransform. rewrite Hdoc. by destruct doc.
Qed.

Lemma groups_threads (files : list Entry) (gs : list (option Group)) (log : Log) :
  Forall2 (group_from safeLoad) files gs →
  threads (groupTransform safeLoad) log files gs
    (log ++ flat_map (missing_gid_log safeLoad) files).
Proof.
  intros Hgs. revert log.
  induction Hgs as [|e v files gs (args & doc & Hargs & Hdoc & ->) _ IH]; intros log.
  { simpl. rewrite app_nil_r. constructor. }
  change (flat_map (missing_gid_log safeLoad) (e :: files))
    with (missing_gid_log safeLoad e ++ flat_map (missing_gid_log safeLoad) files).
  rewrite (assoc_L (++)).
  econstructor; [exact Hargs| |apply IH].
  unfold groupTransform, missing_gid_log, truthy_gid. rewrite Hargs, Hdoc.
  destruct doc as [[[]|d]|]; simpl; [done|by rewrite app_nil_r| |by rewrite app_nil_r].
  destruct (y_gidNumber d) as [gid|]; [|done].
  case_decide; [done|]. by rewrite app_nil_r.
Qed.

Lemma loadUsers_complete (fs : FileSystem) (dir : string) (files : list Entry)
    (users : list (Value RawUser)) :
  fs (Js.join "/" [dir; "users"]) = inr files → files ≠ [] →
  Forall2 (user_from safeLoad) files users →
  loadUsers safeLoad fs dir = [CbOk users].
Proof.
  intros Hfs Hne Husers. unfold loadUsers.
  by rewrite (loadDir_threads _ fs _ tt tt files users Hfs Hne (users_threads _ _ Husers)).
Qed.

Lemma loadGroups_complete (fs : FileSystem) (dir : string) (log : Log)
    (files : list Entry) (gs : list (option Group)) :
  fs (Js.join "/" [dir; "groups"]) = inr files → files ≠ [] →
  Forall2 (group_from safeLoad) files gs →
  loadGroups safeLoad fs dir log
    = (log ++ flat_map (missing_gid_log safeLoad) files, [CbOk gs]).
Proof.
  intros Hfs Hne Hgs. unfold loadGroups.
  by apply (loadDir_threads _ fs _ _ _ files), groups_threads.
Qed.
End LoaderComplete.

(** X9: [loadUsers] delivers the users [users] exactly when [users/] lists
    at least one entry and, entry by entry, the entry is a regular file
    that can be read, a directory or a symbolic link, the parser returns a
    document for it (not [null] or [undefined]), and the user is what lines
    173-176 make of the document: a primitive (a string, a number, a
    boolean) as it is, without uid; an object with [uid] and [cn] set to the
    file name without its last segment and [publicKeys] defaulting to the
    empty array.  The delivery is then the only call [loadUsers] makes of
    its callback. *)
Theorem loadUsers_delivers
    (safeLoad : option string -> Completion (option Doc))
    (fs : FileSystem) (dir : string) (users : list (Value RawUser)) :
  (CbOk users ∈ loadUsers safeLoad fs dir ↔
   ∃ files, fs (Js.join "/" [dir; "users"]) = inr files ∧ files ≠ [] ∧
            Forall2 (user_from safeLoad) files users) ∧
  (CbOk users ∈ loadUsers safeLoad fs dir →
   loadUsers safeLoad fs dir = [CbOk users]).
Proof.
  split; [split|].
  - intros Hin.
    destruct (loadUsers_result safeLoad fs dir users Hin) as (files & ? & ? & _ & ?).
    by exists files.
  - intros (files & Hfs & Hne & Husers).
    rewrite (loadUsers_complete safeLoad fs dir files users Hfs Hne Husers). by left.
  - intros Hin.
    by destruct (loadUsers_result safeLoad fs dir users Hin) as (files & _ & _ & ? & _).
Qed.

Lemma loadUsers_delivers_witness :
  ∃ files,
    Sample.tree_primitives "/srv/users" = inr files ∧ files ≠ [] ∧
    Forall2 (user_from Sample.safeLoad) files
      [Prim false; Prim true; Rec Cases.bob].
Proof.
  apply (proj1 (proj1 (loadUsers_delivers Sample.safeLoad Sample.tree_primitives
                         "/srv" [Prim false; Prim true; Rec Cases.bob]))).
  vm_compute. by left.
Defined.

(** X10: [loadGroups] delivers [gs] exactly when [groups/] lists at least
    one entry and, entry by entry, the entry reaches the transform, the
    parser returns for it, and the value is a group named after the file
    (without its last segment), with the [members] of the document, when
    the document has a [gidNumber] that is not zero, and the skip marker
    otherwise; the delivery is then the only call made, and the log has
    grown by one line for each truthy document (an object or a truthy
    primitive) without such a [gidNumber], in the order of the entries. *)
Theorem loadGroups_delivers
    (safeLoad : option string -> Completion (option Doc))
    (fs : FileSystem) (dir : string) (log : Log) (gs : list (option Group)) :
  (CbOk gs ∈ (loadGroups safeLoad fs dir log).2 ↔
   ∃ files, fs (Js.join "/" [dir; "groups"]) = inr files ∧ files ≠ [] ∧
            Forall2 (group_from safeLoad) files gs) ∧
  (∀ files, CbOk gs ∈ (loadGroups safeLoad fs dir log).2 →
            fs (Js.join "/" [dir; "groups"]) = inr files →
            loadGroups safeLoad fs dir log
              = (log ++ flat_map (missing_gid_log safeLoad) files, [CbOk gs])).
Proof.
  split; [split|].
  - intros Hin.
    destruct (loadGroups_result safeLoad fs dir log gs Hin) as (files & ? & ? & _ & ? & _).
    by exists files.
  - intros (files & Hfs & Hne & Hgs).
    rewrite (loadGroups_complete safeLoad fs dir log files gs Hfs Hne Hgs). by left.
  - intros files Hin Hfs.
    destruct (loadGroups_result safeLoad fs dir log gs Hin)
      as (files' & Hfs' & Hne & _ & Hgs & _).
    assert (files' = files) as -> by congruence.
    by apply loadGroups_complete.
Qed.

Lemma loadGroups_delivers_witness :
  loadGroups Sample.safeLoad Sample.tree_empty_group "/srv" []
    = ([], [CbOk [Some {| g_cn := "staff"; g_gidNumber := 100; g_members := MAbsent |};
                  Some {| g_cn := "ops"; g_gidNumber := 100; g_members := MAbsent |};
                  None]]).
Proof.
  apply (proj2 (loadGroups_delivers Sample.safeLoad Sample.tree_empty_group "/srv" []
                  [Some {| g_cn := "staff"; g_gidNumber := 100; g_members := MAbsent |};
                   Some {| g_cn := "ops"; g_gidNumber := 100; g_members := MAbsent |};
                   None])
               (Sample.groups_ok ++ [Sample.file "blank.yaml" ""])).
  - vm_compute. by left.
  - reflexivity.
Defined.

(** ** A load pass that delivers *)

(** The calls left over when the schedule is exhausted arrive operation by
    operation. *)
Lemma flush_arrival {A} (pre traces : list (list A)) :
  Forall (fun trace => trace = []) pre →
  arrival (pre ++ traces)
    (concat (imap (fun i trace => pair (length pre + i) <$> trace) traces)).
Proof.
  revert pre. induction traces as [|t traces IH]; intros pre Hpre.
  { simpl. rewrite app_nil_r. by constructor. }
  simpl. induction t as [|x t IHt].
  - simpl. replace (pre ++ [] :: traces) with ((pre ++ [[]]) ++ traces)
      by (by rewrite <- (assoc_L (++))).
    erewrite imap_ext; [apply (IH (pre ++ [[]]))|].
    + apply Forall_app. split; [done|]. by constructor.
    + intros i trace _. simpl. rewrite length_app. simpl.
      by replace (length pre + 1 + i) with (length pre + Datatypes.S i) by lia.
  - simpl. apply arrival_cons with (trace := t).
    + replace (length pre + 0) with (length pre) by lia. apply list_lookup_middle. done.
    + replace (length pre + 0) with (length pre + 0)%nat by done.
      rewrite insert_app_r. simpl. exact IHt.
Qed.

(** Every interleaving is an arrival order. *)
Lemma interleave_sound {A} (sched : list nat) (traces : list (list A)) :
  arrival traces (interleave sched traces).
Proof.
  revert traces. induction sched as [|i sched IH]; intros traces; simpl.
  - exact (flush_arrival [] traces (Forall_nil_2 _)).
  - destruct (traces !! i) as [[|x t]|] eqn:Hi; [apply IH| |apply IH].
    by apply arrival_cons with (trace := t).
Qed.

Lemma sum_length_insert {A} (traces : list (list A)) (i : nat) (x : A) (t : list A) :
  traces !! i = Some (x :: t) →
  sum_list (length <$> traces) = Datatypes.S (sum_list (length <$> <[i := t]> traces)).
Proof.
  revert i. induction traces as [|t' traces IH]; intros [|i] Hi; simplify_eq/=; csimpl.
  - done.
  - rewrite (IH i Hi). lia.
Qed.

Lemma sum_length_zero {A} (traces : list (list A)) (j : nat) (t : list A) :
  sum_list (length <$> traces) = 0 → traces !! j = Some t → t = [].
Proof.
  revert j. induction traces as [|t' traces IH]; intros [|j] Hsum Hj;
    simplify_eq/=; csimpl in *.
  - destruct t; [done|simpl in *; lia].
  - apply (IH j); [lia|done].
Qed.

Lemma sum_length_nil {A} (traces : list (list A)) :
  Forall (fun trace => trace = []) traces → sum_list (length <$> traces) = 0.
Proof. induction 1 as [|t traces -> _ IH]; csimpl; [done|]. exact IH. Qed.

(** When each of the tasks makes one call, a delivery, [async.parallel]
    calls the final callback once, with the values in the order of the
    tasks, whatever the order in which the calls arrive. *)
Lemma parallel_deliveries {V} (vs : list V) (traces : list (list (Callback V)))
    (evs : list (nat * Callback V)) :
  arrival traces evs →
  ∀ results completed,
    length traces = length vs → length results = length vs →
    (∀ j v, vs !! j = Some v →
       (traces !! j = Some [CbOk v] ∧ results !! j = Some None) ∨
       (traces !! j = Some [] ∧ results !! j = Some (Some v))) →
    completed + sum_list (length <$> traces) = length vs →
    0 < sum_list (length <$> traces) →
    parallel (length vs) results completed evs = [CbOk (Some <$> vs)].
Proof.
  induction 1 as [traces Hnil|traces i x trace evs Hi _ IH];
    intros results completed Hlent Hlen Hinv Hsum Hpos.
  { rewrite (sum_length_nil _ Hnil) in Hpos. lia. }
  pose proof (sum_length_insert _ _ _ _ Hi) as Hins.
  destruct (vs !! i) as [v|] eqn:Hv.
  2:{ apply lookup_ge_None in Hv. apply lookup_lt_Some in Hi. lia. }
  destruct (Hinv i v Hv) as [[Hi' Hr]|[Hi' _]]; [|congruence].
  assert (x = CbOk v ∧ trace = []) as [-> ->] by (split; congruence).
  simpl. case_decide as Hn.
  - f_equal. f_equal. apply list_eq. intros j.
    rewrite list_lookup_fmap.
    destruct (decide (j = i)) as [->|Hji].
    + rewrite list_lookup_insert_eq by (apply lookup_lt_Some in Hr; lia).
      by rewrite Hv.
    + rewrite list_lookup_insert_ne by done.
      destruct (vs !! j) as [v'|] eqn:Hv'; simpl.
      * destruct (Hinv j v' Hv') as [[Hj _]|[_ Hj]]; [|done].
        exfalso.
        assert (<[i := []]> traces !! j = Some [CbOk v']) as Hj'
          by (by rewrite list_lookup_insert_ne).
        apply sum_length_zero in Hj'; [done|lia].
      * apply lookup_ge_None. apply lookup_ge_None in Hv'. lia.
  - apply IH.
    + by rewrite length_insert.
    + by rewrite length_insert.
    + intros j v' Hv'. destruct (decide (j = i)) as [->|Hji].
      * right. assert (v' = v) as -> by congruence.
        rewrite !list_lookup_insert_eq; [done| |].
        -- apply lookup_lt_Some in Hr. lia.
        -- apply lookup_lt_Some in Hi. lia.
      * rewrite !list_lookup_insert_ne by done. by apply Hinv.
    + lia.
    + lia.
Qed.

Section LoadDelivery.
Variable safeLoad : option string -> Completion (option Doc).

(** When the three tasks deliver, the load pass runs [buildDataStore] on
    their results, the users and groups compacted; when that returns a
    store, the pass installs it and delivers it. *)
Lemma load_exact (dir : string) (fs : FileSystem) (sched : Schedule) (g : Globals)
    (log' : Log) (gs : list (option Group)) (users : list (Value RawUser))
    (layers : list RawLayer) :
  loadGroups safeLoad fs dir (logged g) = (log', [CbOk gs]) →
  loadUsers safeLoad fs dir = [CbOk users] →
  loadLayers fs dir (sched_scans sched) = [CbOk layers] →
  load safeLoad dir fs sched g =
    load_done dir ({| store := store g; logged := log'; inherited := inherited g |}, [])
      (CbOk [Some (GroupsResult gs); Some (UsersResult users);
             Some (LayersResult layers)]).
Proof.
  intros Hgroups Husers Hlayers. unfold load, load_tasks.
  rewrite Hgroups, Husers, Hlayers. csimpl.
  rewrite (parallel_deliveries [GroupsResult gs; UsersResult users; LayersResult layers]
             _ _ (interleave_sound _ _)); [done| done | done | | done | simpl; lia].
  intros [|[|[|j]]] v Hv; simplify_eq/=; by left.
Qed.

(** A load pass delivers only when each of the three tasks has delivered. *)
Lemma load_delivery (dir : string) (fs : FileSystem) (sched : Schedule) (g : Globals)
    (built : Store) :
  CbOk built ∈ (load safeLoad dir fs sched g).2 →
  ∃ gs users layers,
    CbOk gs ∈ (loadGroups safeLoad fs dir (logged g)).2 ∧
    CbOk users ∈ loadUsers safeLoad fs dir ∧
    CbOk layers ∈ loadLayers fs dir (sched_scans sched).
Proof.
  intros Hin.
  destruct (load_cases safeLoad dir fs sched g)
    as [Hl|[(err & Hl & _)|[(result & err & _ & Hl & _)|(result & b & _ & _ & Hcount)]]].
  - rewrite Hl in Hin. inversion Hin.
  - rewrite Hl in Hin. by apply list_elem_of_singleton in Hin.
  - rewrite Hl in Hin. inversion Hin.
  - unfold task_calls, load_tasks in Hcount.
    pose proof (loadDir_count_ok (groupTransform safeLoad) fs
                  (Js.join "/" [dir; "groups"]) (logged g)) as Hg.
    pose proof (loadDir_count_ok
                  (fun filename contents (s : unit) =>
                     (s, userTransform safeLoad filename contents)) fs
                  (Js.join "/" [dir; "users"]) tt) as Hu.
    pose proof (loadLayers_count_ok fs dir (sched_scans sched)) as Hl.
    fold (loadGroups safeLoad fs dir (logged g)) in Hg.
    fold (loadUsers safeLoad fs dir) in Hu.
    destruct (loadGroups safeLoad fs dir (logged g)) as [log' groups]. simpl in *.
    rewrite interleave_count_ok in Hcount. csimpl in Hcount.
    rewrite !count_ok_fmap in Hcount.
    destruct (count_ok_pos groups) as [gs Hgs]; [lia|].
    destruct (count_ok_pos (loadUsers safeLoad fs dir)) as [users Husers]; [lia|].
    destruct (count_ok_pos (loadLayers fs dir (sched_scans sched)))
      as [layers Hlayers]; [lia|].
    by exists gs, users, layers.
Qed.
End LoadDelivery.

(** X11: a load pass delivers the store [built] exactly when [loadGroups],
    [loadUsers] and [loadLayers] each deliver and [buildDataStore] returns
    [built] for the users without the falsy primitives, the groups without
    the skip markers, and the layers; the pass then makes that one call,
    installs the store it delivers, and does the same for every order in
    which the callbacks of the tasks and of the membership scans arrive.
    When the three loaders deliver and [buildDataStore] throws, the pass
    makes no call at all and leaves [store] as it was. *)
Theorem load_delivers
    (safeLoad : option string -> Completion (option Doc))
    (dir : string) (fs : FileSystem) (sched : Schedule) (g : Globals)
    (built : Store) :
  (CbOk built ∈ (load safeLoad dir fs sched g).2 ↔
   ∃ gs users layers,
     CbOk gs ∈ (loadGroups safeLoad fs dir (logged g)).2 ∧
     CbOk users ∈ loadUsers safeLoad fs dir ∧
     CbOk layers ∈ loadLayers fs dir (sched_scans sched) ∧
     built_store (buildDataStore (outlived (inherited g))
                    {| r_dir := dir; r_users := compact_values users;
                       r_groups := compact gs; r_layers := layers |}
                    (loadGroups safeLoad fs dir (logged g)).1) = Return built) ∧
  (CbOk built ∈ (load safeLoad dir fs sched g).2 →
   (load safeLoad dir fs sched g).2 = [CbOk built] ∧
   store (load safeLoad dir fs sched g).1 = Some built ∧
   ∀ sched', load safeLoad dir fs sched' g = load safeLoad dir fs sched g) ∧
  (∀ gs users layers err,
     CbOk gs ∈ (loadGroups safeLoad fs dir (logged g)).2 →
     CbOk users ∈ loadUsers safeLoad fs dir →
     CbOk layers ∈ loadLayers fs dir (sched_scans sched) →
     built_store (buildDataStore (outlived (inherited g))
                    {| r_dir := dir; r_users := compact_values users;
                       r_groups := compact gs; r_layers := layers |}
                    (loadGroups safeLoad fs dir (logged g)).1) = Throw err →
     (load safeLoad dir fs sched g).2 = [] ∧
     store (load safeLoad dir fs sched g).1 = store g).
Proof.
  assert (∀ gs users layers,
            CbOk gs ∈ (loadGroups safeLoad fs dir (logged g)).2 →
            CbOk users ∈ loadUsers safeLoad fs dir →
            CbOk layers ∈ loadLayers fs dir (sched_scans sched) →
            ∀ sched',
              load safeLoad dir fs sched' g =
              load_done dir
                ({| store := store g;
                    logged := (loadGroups safeLoad fs dir (logged g)).1;
                    inherited := inherited g |}, [])
                (CbOk [Some (GroupsResult gs); Some (UsersResult users);
                       Some (LayersResult layers)])) as Hexact.
  { intros gs users layers Hgs Husers Hlayers sched'.
    destruct (loadGroups_result safeLoad fs dir _ gs Hgs) as (_ & _ & _ & Hg & _).
    destruct (loadUsers_result safeLoad fs dir users Husers) as (_ & _ & _ & Hu & _).
    destruct (loadLayers_delivery fs dir _ layers Hlayers) as (_ & _ & _ & _ & _ & Hl).
    apply load_exact; [|done|apply Hl].
    destruct (loadGroups safeLoad fs dir (logged g)) as [log' groups].
    simpl in *. by rewrite Hg. }
  split; [split|split].
  - intros Hin.
    destruct (load_delivery safeLoad dir fs sched g built Hin)
      as (gs & users & layers & Hgs & Husers & Hlayers).
    exists gs, users, layers. split; [done|]. split; [done|]. split; [done|].
    rewrite (Hexact gs users layers Hgs Husers Hlayers sched) in Hin.
    unfold load_done, raw_store in Hin. simpl in Hin.
    destruct (built_store _) as [err|built'] eqn:Hbuilt; simpl in Hin.
    + inversion Hin.
    + apply list_elem_of_singleton in Hin. by simplify_eq.
  - intros (gs & users & layers & Hgs & Husers & Hlayers & Hbuilt).
    rewrite (Hexact gs users layers Hgs Husers Hlayers sched).
    unfold load_done, raw_store. simpl. rewrite Hbuilt. by left.
  - intros Hin.
    destruct (load_success safeLoad dir fs sched g built Hin) as (Hcalls & Hstore & _).
    split; [done|]. split; [done|].
    destruct (load_delivery safeLoad dir fs sched g built Hin)
      as (gs & users & layers & Hgs & Husers & Hlayers).
    intros sched'.
    by rewrite (Hexact gs users layers Hgs Husers Hlayers sched'),
               (Hexact gs users layers Hgs Husers Hlayers sched).
  - intros gs users layers err Hgs Husers Hlayers Hbuilt.
    rewrite (Hexact gs users layers Hgs Husers Hlayers sched).
    unfold load_done, raw_store. simpl. by rewrite Hbuilt.
Qed.

Lemma load_delivers_witness :
  ∃ built,
    (load Sample.safeLoad "/srv" Sample.tree Sample.in_order (globals fresh)).2
      = [CbOk built] ∧
    ∀ sched', load Sample.safeLoad "/srv" Sample.tree sched' (globals fresh)
              = load Sample.safeLoad "/srv" Sample.tree Sample.in_order (globals fresh).
Proof.
  assert (∃ built, CbOk built ∈ (load Sample.safeLoad "/srv" Sample.tree
                                   Sample.in_order (globals fresh)).2)
    as [built Hin] by (eexists; vm_compute; by left).
  destruct (proj1 (proj2 (load_delivers Sample.safeLoad "/srv" Sample.tree
                            Sample.in_order (globals fresh) built)) Hin)
    as (Hcalls & _ & Hall).
  by exists built.
Defined.

(** ** The loaded store and the tree *)

Lemma Forall2_compose {A B C} (R : A → B → Prop) (R' : B → C → Prop)
    (R'' : A → C → Prop) (l : list A) (k : list B) (m : list C) :
  (∀ x y z, R x y → R' y z → R'' x z) →
  Forall2 R l k → Forall2 R' k m → Forall2 R'' l m.
Proof.
  intros Hcomp Hlk. revert m.
  induction Hlk as [|x y l k Hxy _ IH]; intros m Hkm; inversion Hkm; subst;
    constructor; eauto.
Qed.

Lemma find_filter_all {A} (f : A → bool) (P : A → Prop) `{∀ x, Decision (P x)}
    (l : list A) :
  (∀ x, f x = true → P x) → List.find f (filter P l) = List.find f l.
Proof.
  intros Hfp. induction l as [|x l IH]; [done|].
  rewrite filter_cons. simpl. destruct (f x) eqn:Hf.
  - rewrite decide_True by (by apply Hfp). simpl. by rewrite Hf.
  - case_decide; simpl; [by rewrite Hf|done].
Qed.

Lemma fmap_pair_eq {A B C} (f : A → B) (h : A → C) (l l' : list A) :
  f <$> l = f <$> l' → h <$> l = h <$> l' →
  (fun x => (f x, h x)) <$> l = (fun x => (f x, h x)) <$> l'.
Proof.
  revert l'. induction l as [|x l IH]; intros [|x' l'] Hf Hh; simplify_eq/=;
    [done|]. f_equal; [congruence|]. by apply IH.
Qed.

Section LoadedStore.
Variable safeLoad : option string -> Completion (option Doc).

(** A store delivered by a load pass is what [buildDataStore] returns for
    the users, groups and layers made of the entries of the tree. *)
Lemma loaded_store_raw (dir : string) (fs : FileSystem) (sched : Schedule)
    (g : Globals) (built : Store) :
  CbOk built ∈ (load safeLoad dir fs sched g).2 →
  ∃ ufiles gfiles lfiles users gs layers,
    fs (Js.join "/" [dir; "users"]) = inr ufiles ∧
    fs (Js.join "/" [dir; "groups"]) = inr gfiles ∧
    fs (Js.join "/" [dir; "layers"]) = inr lfiles ∧
    Forall2 (user_from safeLoad) ufiles users ∧
    Forall2 (group_from safeLoad) gfiles gs ∧
    Forall2 (layer_from fs dir) lfiles layers ∧
    built_store (buildDataStore (outlived (inherited g))
                   {| r_dir := dir; r_users := compact_values users;
                      r_groups := compact gs; r_layers := layers |}
                   (logged g ++ flat_map (missing_gid_log safeLoad) gfiles))
      = Return built ∧
    load safeLoad dir fs sched g
      = ({| store := Some built;
            logged := built_log
                        (buildDataStore (outlived (inherited g))
                           {| r_dir := dir; r_users := compact_values users;
                              r_groups := compact gs; r_layers := layers |}
                           (logged g ++ flat_map (missing_gid_log safeLoad) gfiles))
                      ++ [DebugStore];
            inherited := built_inherited
                           (buildDataStore (outlived (inherited g))
                              {| r_dir := dir; r_users := compact_values users;
                                 r_groups := compact gs; r_layers := layers |}
                              (logged g ++ flat_map (missing_gid_log safeLoad) gfiles))
         |}, [CbOk built]).
Proof.
  intros Hin.
  destruct (load_delivery safeLoad dir fs sched g built Hin)
    as (gs & users & layers & Hgs & Husers & Hlayers).
  destruct (loadGroups_result safeLoad fs dir _ gs Hgs)
    as (gfiles & Hgfs & _ & Hgcalls & Hgfrom & Hglog).
  destruct (loadUsers_result safeLoad fs dir users Husers)
    as (ufiles & Hufs & _ & Hucalls & Hufrom).
  destruct (loadLayers_delivery fs dir _ layers Hlayers)
    as (lfiles & Hlfs & _ & _ & Hlfrom & Hlcalls).
  assert (loadGroups safeLoad fs dir (logged g)
          = (logged g ++ flat_map (missing_gid_log safeLoad) gfiles, [CbOk gs]))
    as Hgeq.
  { destruct (loadGroups safeLoad fs dir (logged g)). simpl in *. by subst. }
  exists ufiles, gfiles, lfiles, users, gs, layers.
  do 6 (split; [done|]).
  rewrite (load_exact safeLoad dir fs sched g _ gs users layers Hgeq Hucalls
             (Hlcalls _)) in Hin |- *.
  unfold load_done, raw_store in Hin |- *. simpl in Hin |- *.
  destruct (built_store _) as [err|built'] eqn:Hbuilt; simpl in Hin.
  - inversion Hin.
  - apply list_elem_of_singleton in Hin. by simplify_eq.
Qed.

(** The users that [u.compact] keeps are made of the entries whose
    document is not a falsy primitive. *)
Lemma users_kept (files : list Entry) (users : list (Value RawUser)) :
  Forall2 (user_from safeLoad) files users →
  Forall2 (fun e user => falsy_entry safeLoad e = false ∧ user_from safeLoad e user)
    (filter (fun e => falsy_entry safeLoad e = false) files)
    (compact_values users).
Proof.
  unfold compact_values.
  induction 1 as [|e user files users Huser _ IH]; [constructor|].
  rewrite !filter_cons.
  assert (falsy_entry safeLoad e = false ↔ truthy_value user = true) as Hiff.
  { destruct Huser as (args & doc & Hargs & Hdoc & ->).
    unfold falsy_entry, doc_of. rewrite Hargs, Hdoc. by destruct doc as [[]|]. }
  destruct (decide (falsy_entry safeLoad e = false)) as [He|He],
           (decide (truthy_value user = true)) as [Hu|Hu];
    [by constructor|by apply Hiff in He|by apply Hiff in Hu|done].
Qed.

Lemma user_from_mirrors (e : Entry) (raw : Value RawUser) (user : Value User) :
  falsy_entry safeLoad e = false ∧ user_from safeLoad e raw →
  same_user raw user → user_mirrors safeLoad e user.
Proof.
  intros [He (args & doc & Hargs & Hdoc & ->)]. unfold user_mirrors.
  unfold falsy_entry in He. unfold doc_of in *. rewrite Hargs, Hdoc in He |- *.
  by destruct doc as [[]|fields], user as [truthy'|user].
Qed.

Lemma groups_from_files (files : list Entry) (gs : list (option Group)) :
  Forall2 (group_from safeLoad) files gs →
  (fun group => (g_cn group, g_gidNumber group)) <$> compact gs
    = omap (group_of safeLoad) files.
Proof.
  unfold compact.
  induction 1 as [|e v files gs (args & doc & Hargs & Hdoc & ->) _ IH]; [done|].
  csimpl. unfold group_of at 1. rewrite Hargs, Hdoc.
  destruct (truthy_gid doc) as [gid|]; csimpl; by rewrite IH.
Qed.

Lemma group_of_nonzero (e : Entry) (cn : string) (gid : Z) :
  group_of safeLoad e = Some (cn, gid) → gid ≠ 0%Z ∧ cn = fileUid (e_name e).
Proof.
  unfold group_of, truthy_gid.
  destruct (entry_args e) as [args|]; [|done].
  destruct (safeLoad args) as [err|[[truthy|doc]|]]; [done|done| |done].
  destruct (y_gidNumber doc) as [gid'|]; [|done].
  case_decide; [done|]. simpl. intros [= <- <-]. done.
Qed.

Lemma layers_from_files (fs : FileSystem) (dir : string) (files : list Entry)
    (layers : list RawLayer) :
  Forall2 (layer_from fs dir) files layers → rl_id <$> layers = e_name <$> files.
Proof. induction 1 as [|e l files layers [Hid _] _ IH]; csimpl; congruence. Qed.


(** The users, groups and layers of a store that a load pass delivers, in
    terms of the tree. *)
Lemma loaded_store_files (dir : string) (fs : FileSystem) (sched : Schedule)
    (g : Globals) (built : Store) :
  CbOk built ∈ (load safeLoad dir fs sched g).2 →
  ∃ ufiles gfiles lfiles,
    fs (Js.join "/" [dir; "users"]) = inr ufiles ∧
    fs (Js.join "/" [dir; "groups"]) = inr gfiles ∧
    fs (Js.join "/" [dir; "layers"]) = inr lfiles ∧
    s_dir built = dir ∧
    Forall2 (user_mirrors safeLoad)
      (filter (fun e => falsy_entry safeLoad e = false) ufiles) (s_users built) ∧
    (fun group => (g_cn group, g_gidNumber group)) <$> s_groups built
      = omap (group_of safeLoad) gfiles ∧
    l_id <$> s_layers built = e_name <$> lfiles.
Proof.
  intros Hin.
  destruct (loaded_store_raw dir fs sched g built Hin)
    as (ufiles & gfiles & lfiles & users & gs & layers & Hufs & Hgfs & Hlfs
        & Hufrom & Hgfrom & Hlfrom & Hbuilt & _).
  pose proof (buildDataStore_users _ _ _ _ Hbuilt) as Husers.
  destruct (buildDataStore_groups _ _ _ _ Hbuilt) as (Hcn & Hgid & Hlayers & Hdir).
  simpl in *.
  exists ufiles, gfiles, lfiles. do 4 (split; [done|]). split; [|split].
  - eapply Forall2_compose; [|apply users_kept, Hufrom|exact Husers].
    intros e raw user. apply user_from_mirrors.
  - rewrite <- (groups_from_files gfiles gs Hgfrom). by apply fmap_pair_eq.
  - by rewrite Hlayers, (layers_from_files fs dir lfiles layers Hlfrom).
Qed.

(** [find] over the users follows [find] over the entries they were made
    from. *)
Lemma find_user_entry (uid : string) (files : list Entry) (users : list (Value User)) :
  Forall2 (user_mirrors safeLoad) files users →
  u_publicKeys <$> (List.find (has_uid uid) users ≫= record)
    = keys_from safeLoad <$> List.find (names_uid safeLoad uid) files.
Proof.
  induction 1 as [|e u files users Hmirror _ IH]; [done|].
  simpl. unfold user_mirrors in Hmirror. unfold names_uid at 1.
  destruct (doc_of safeLoad e) as [[truthy|fields]|] eqn:Hdoc,
           u as [truthy'|u]; try done.
  destruct Hmirror as (Huid & _ & Hkeys). simpl. rewrite Huid.
  destruct (bool_decide (fileUid (e_name e) = uid)); simpl; [|done].
  unfold keys_from. by rewrite Hdoc, Hkeys.
Qed.

Lemma publicKeys_loaded (dir : string) (fs : FileSystem) (sched : Schedule)
    (g : Globals) (built : Store) (uid : string) :
  CbOk built ∈ (load safeLoad dir fs sched g).2 →
  ∃ files,
    fs (Js.join "/" [dir; "users"]) = inr files ∧
    publicKeys (load safeLoad dir fs sched g).1 uid
      = Return (keys_from safeLoad <$> List.find (names_uid safeLoad uid) files).
Proof.
  intros Hin.
  destruct (loaded_store_files dir fs sched g built Hin)
    as (ufiles & _ & _ & Hfs & _ & _ & _ & Husers & _).
  destruct (load_success safeLoad dir fs sched g built Hin) as (_ & Hstore & _).
  exists ufiles. split; [done|].
  unfold publicKeys, findUser. rewrite Hstore.
  rewrite <- (find_filter_all (names_uid safeLoad uid)
                (fun e => falsy_entry safeLoad e = false)).
  - rewrite <- (find_user_entry uid _ (s_users built) Husers).
    by destruct (List.find _ (s_users built) ≫= record).
  - intros e. unfold names_uid, falsy_entry.
    by destruct (doc_of safeLoad e) as [[[]|]|].
Qed.
End LoadedStore.

(** X12: a store that a load pass delivers holds one user for each entry of
    [users/] whose document is not a falsy primitive, in the order of the
    entries: a truthy primitive as it is, and for an object a user with
    [uid] and [cn] the file name without its last segment and the public
    keys of the document (the empty array when it has none); one group for
    each entry of [groups/] whose document has a [gidNumber] that is not
    zero, named after the file, the other entries being left out; and one
    layer for each entry of [layers/], bearing the name of the entry. *)
Theorem loaded_store_mirrors_tree
    (safeLoad : option string -> Completion (option Doc))
    (dir : string) (fs : FileSystem) (sched : Schedule) (g : Globals)
    (built : Store) :
  CbOk built ∈ (load safeLoad dir fs sched g).2 →
  ∃ ufiles gfiles lfiles,
    fs (Js.join "/" [dir; "users"]) = inr ufiles ∧
    fs (Js.join "/" [dir; "groups"]) = inr gfiles ∧
    fs (Js.join "/" [dir; "layers"]) = inr lfiles ∧
    s_dir built = dir ∧
    Forall2 (user_mirrors safeLoad)
      (filter (fun e => falsy_entry safeLoad e = false) ufiles) (s_users built) ∧
    (fun group => (g_cn group, g_gidNumber group)) <$> s_groups built
      = omap (group_of safeLoad) gfiles ∧
    (∀ group, group ∈ s_groups built → g_gidNumber group ≠ 0%Z) ∧
    l_id <$> s_layers built = e_name <$> lfiles.
Proof.
  intros Hin.
  destruct (loaded_store_files safeLoad dir fs sched g built Hin)
    as (ufiles & gfiles & lfiles & ? & ? & ? & ? & ? & Hgroups & ?).
  exists ufiles, gfiles, lfiles. do 6 (split; [done|]). split; [|done].
  intros group Hgroup.
  assert ((g_cn group, g_gidNumber group) ∈ omap (group_of safeLoad) gfiles) as Hof.
  { rewrite <- Hgroups. apply list_elem_of_fmap. by exists group. }
  apply list_elem_of_omap in Hof as (e & _ & He).
  by apply group_of_nonzero in He as [? _].
Qed.

Lemma loaded_store_mirrors_tree_witness :
  ∃ built,
    CbOk built ∈ (Sample.pass Sample.tree_primitives).2 ∧
    omap (fun user => u_uid <$> record user) (s_users built) = ["bob"] ∧
    length (s_users built) = 2 ∧
    g_cn <$> s_groups built = ["staff"; "ops"] ∧
    l_id <$> s_layers built = ["prod"; "dev"] ∧
    ∀ group, group ∈ s_groups built → g_gidNumber group ≠ 0%Z.
Proof.
  assert (∃ built, CbOk built ∈ (Sample.pass Sample.tree_primitives).2 ∧
                   omap (fun user => u_uid <$> record user) (s_users built) = ["bob"] ∧
                   length (s_users built) = 2 ∧
                   g_cn <$> s_groups built = ["staff"; "ops"] ∧
                   l_id <$> s_layers built = ["prod"; "dev"])
    as (built & Hin & Hu & Hn & Hg & Hl).
  { eexists. split; [vm_compute; by left|]. by vm_compute. }
  destruct (loaded_store_mirrors_tree Sample.safeLoad "/srv" Sample.tree_primitives
              Sample.in_order (globals fresh) built Hin)
    as (_ & _ & _ & _ & _ & _ & _ & _ & _ & Hnz & _).
  by exists built.
Defined.

(** X13: once a load pass has delivered, [publicKeys] answers a uid from
    the entries of [users/]: [null] when no entry whose document is an
    object bears the uid once its last segment is dropped, and otherwise
    the keys of the first such entry in completion order (the empty array
    when its document has none).  An entry whose document is a primitive
    answers for no uid. *)
Theorem publicKeys_after_load
    (safeLoad : option string -> Completion (option Doc))
    (dir : string) (fs : FileSystem) (sched : Schedule) (g : Globals)
    (built : Store) (uid : string) :
  CbOk built ∈ (load safeLoad dir fs sched g).2 →
  ∃ files,
    fs (Js.join "/" [dir; "users"]) = inr files ∧
    publicKeys (load safeLoad dir fs sched g).1 uid
      = Return (keys_from safeLoad <$> List.find (names_uid safeLoad uid) files).
Proof. apply publicKeys_loaded. Qed.

Lemma publicKeys_after_load_witness :
  publicKeys (Sample.pass Sample.tree_primitives).1 "bob" = Return (Some []) ∧
  publicKeys (Sample.pass Sample.tree_primitives).1 "carol" = Return None ∧
  publicKeys (Sample.pass Sample.tree_primitives).1 "zero" = Return None.
Proof.
  assert (∃ built, CbOk built ∈ (Sample.pass Sample.tree_primitives).2)
    as [built Hin] by (eexists; vm_compute; by left).
  assert (∀ uid, publicKeys (Sample.pass Sample.tree_primitives).1 uid
                 = Return (keys_from Sample.safeLoad
                     <$> List.find (names_uid Sample.safeLoad uid)
                           [Sample.file "zero.yaml" "0";
                            Sample.file "carol.yaml" "hello";
                            Sample.file "bob.yml"
                              "{primaryGroup: wheel, groups: [ops]}"])) as Hkeys.
  { intros uid.
    destruct (publicKeys_after_load Sample.safeLoad "/srv" Sample.tree_primitives
                Sample.in_order (globals fresh) built uid Hin) as (files & Hfs & Heq).
    assert (Sample.tree_primitives (Js.join "/" ["/srv"; "users"])
            = inr [Sample.file "zero.yaml" "0"; Sample.file "carol.yaml" "hello";
                   Sample.file "bob.yml" "{primaryGroup: wheel, groups: [ops]}"])
      as Hok by reflexivity.
    rewrite Hok in Hfs. injection Hfs as <-. exact Heq. }
  rewrite !Hkeys. by vm_compute.
Defined.

(** ** The module over time *)

Section ControllerFacts.
Variable safeLoad : option string -> Completion (option Doc).

(** What one event does to [store] and to the watchers. *)
Lemma step_shape (ctl : Controller) (ev : Event) :
  (store (globals (step safeLoad ctl ev).1) = store (globals ctl) ∨
   ∃ inh raw log built,
     built_store (buildDataStore inh raw log) = Return built ∧
     store (globals (step safeLoad ctl ev).1) = Some built) ∧
  (watchers (step safeLoad ctl ev).1 = watchers ctl ∨
   (store (globals ctl) = None ∧ store (globals (step safeLoad ctl ev).1) = None ∧
    ∃ dir, watchers (step safeLoad ctl ev).1
           = watchers ctl ++ [{| w_dir := dir; w_ready := false |}]) ∨
   (is_Some (store (globals (step safeLoad ctl ev).1)) ∧
    ∃ w, watchers (step safeLoad ctl ev).1 = alter mark_ready w (watchers ctl))).
Proof.
  destruct ev as [dir|w error|w fs sched|w fs sched]; simpl.
  - unfold initialize. destruct (store (globals ctl)) eqn:Hstore; simpl.
    + split; by left.
    + split; [by left|]. right; left. repeat split; [done|]. by exists dir.
  - unfold on_error. destruct (watchers ctl !! w); simpl; split; by left.
  - unfold on_ready. destruct (watchers ctl !! w) as [watcher|]; simpl;
      [|split; by left].
    destruct (load_cases safeLoad (w_dir watcher) fs sched (globals ctl))
      as [->|[(err & -> & _)|[(result & err & _ & -> & _)
                              |(result & built & Hbuilt & -> & _)]]]; simpl.
    + split; by left.
    + split; by left.
    + split; by left.
    + split; [right; by eexists _, _, _, _|]. right; right. split; [done|].
      by exists w.
  - unfold on_all. destruct (watchers ctl !! w) as [watcher|]; simpl;
      [|split; by left].
    destruct (w_ready watcher); simpl; [|split; by left].
    destruct (load_cases safeLoad (w_dir watcher) fs sched (reload_globals ctl))
      as [->|[(err & -> & _)|[(result & err & _ & -> & _)
                              |(result & built & Hbuilt & -> & _)]]]; simpl.
    + split; by left.
    + split; by left.
    + split; by left.
    + split; [right; by eexists _, _, _, _|]. by left.
Qed.


Lemma step_kept (ctl : Controller) (ev : Event) :
  watchers_kept (watchers ctl) (watchers (step safeLoad ctl ev).1) ∧
  (is_Some (store (globals ctl)) →
   is_Some (store (globals (step safeLoad ctl ev).1)) ∧
   length (watchers (step safeLoad ctl ev).1) = length (watchers ctl)).
Proof.
  destruct (step_shape ctl ev) as [Hs Hw]. split.
  - intros w watcher Hlook.
    destruct Hw as [->|[(_ & _ & dir & ->)|[_ [w' ->]]]].
    + by exists watcher.
    + exists watcher. split; [|done]. by apply lookup_app_l_Some.
    + destruct (decide (w = w')) as [->|Hne].
      * exists (mark_ready watcher).
        rewrite list_lookup_alter_eq, Hlook. done.
      * exists watcher. by rewrite list_lookup_alter_ne.
  - intros [s Hsome]. split.
    + destruct Hs as [->|(inh & raw & log & built & _ & ->)]; by eexists.
    + destruct Hw as [->|[(Hnone & _)|[_ [w' ->]]]]; [done|congruence|].
      by rewrite length_alter.
Qed.

Lemma run_snoc (ctl : Controller) (evs : list Event) (ev : Event) :
  run safeLoad ctl (evs ++ [ev]) =
  ((step safeLoad (run safeLoad ctl evs).1 ev).1,
   (run safeLoad ctl evs).2 ++ (step safeLoad (run safeLoad ctl evs).1 ev).2).
Proof.
  unfold run. rewrite foldl_app. simpl.
  destruct (foldl _ (ctl, []) evs) as [ctl' replies]. simpl.
  by destruct (step safeLoad ctl' ev).
Qed.


Lemma watchers_kept_trans (ws1 ws2 ws3 : list Watcher) :
  watchers_kept ws1 ws2 → watchers_kept ws2 ws3 → watchers_kept ws1 ws3.
Proof.
  intros H12 H23 w watcher Hlook.
  destruct (H12 w watcher Hlook) as (watcher2 & Hlook2 & Hdir2 & Hready2).
  destruct (H23 w watcher2 Hlook2) as (watcher3 & Hlook3 & Hdir3 & Hready3).
  exists watcher3. split; [done|]. split; [congruence|]. auto.
Qed.

Lemma run_kept (ctl : Controller) (evs : list Event) :
  watchers_kept (watchers ctl) (watchers (run safeLoad ctl evs).1) ∧
  (is_Some (store (globals ctl)) →
   is_Some (store (globals (run safeLoad ctl evs).1)) ∧
   length (watchers (run safeLoad ctl evs).1) = length (watchers ctl)).
Proof.
  induction evs as [|ev evs [IHw IHs]] using rev_ind.
  { split; [|done]. intros w watcher Hlook. by exists watcher. }
  rewrite run_snoc. simpl.
  destruct (step_kept (run safeLoad ctl evs).1 ev) as [Hw Hs]. split.
  - by eapply watchers_kept_trans.
  - intros Hsome. destruct (IHs Hsome) as [Hsome' Hlen].
    destruct (Hs Hsome') as [Hsome'' Hlen']. split; [done|]. congruence.
Qed.
End ControllerFacts.


(** X15: the module never drops a watcher, never changes its directory and
    never takes its readiness back; and once a store is installed, a store
    stays installed and no further watcher is started, whatever happens
    next. *)
Theorem installed_store_is_kept
    (safeLoad : option string -> Completion (option Doc))
    (ctl : Controller) (evs : list Event) :
  watchers_kept (watchers ctl) (watchers (run safeLoad ctl evs).1) ∧
  (is_Some (store (globals ctl)) →
   is_Some (store (globals (run safeLoad ctl evs).1)) ∧
   length (watchers (run safeLoad ctl evs).1) = length (watchers ctl)).
Proof. apply run_kept. Qed.

Lemma installed_store_is_kept_witness :
  let ctl := (run Sample.safeLoad fresh
                [Initialize "/srv"; WatchReady 0 Sample.tree Sample.in_order]).1 in
  let evs := [Initialize "/etc"; WatchAll 0 Sample.tree_bad_user Sample.in_order;
              WatchAll 0 Sample.tree_no_users Sample.in_order] in
  is_Some (store (globals ctl)) ∧
  is_Some (store (globals (run Sample.safeLoad ctl evs).1)) ∧
  length (watchers (run Sample.safeLoad ctl evs).1) = 1.
Proof.
  intros ctl evs.
  assert (is_Some (store (globals ctl))) as Hsome by (vm_compute; by eexists).
  split; [exact Hsome|].
  destruct (proj2 (installed_store_is_kept Sample.safeLoad ctl evs) Hsome)
    as [Hkept Hlen].
  split; [exact Hkept|]. rewrite Hlen. reflexivity.
Defined.

(** X16: the ['ready'] handler answers the callback of [initialize] once
    for each call [load] makes of its callback, so at most once: with
    [null] when the load pass delivers, and then the store is installed, the
    watcher is ready and the load is logged; with the error when the pass
    fails.  Unless the pass delivers, the watcher stays as it was, so changes
    to the tree keep being ignored. *)
Theorem ready_handler_outcome
    (safeLoad : option string -> Completion (option Doc))
    (w : nat) (fs : FileSystem) (sched : Schedule) (ctl : Controller)
    (watcher : Watcher) :
  watchers ctl !! w = Some watcher →
  (on_ready safeLoad w fs sched ctl).2
    = reply_of <$> (load safeLoad (w_dir watcher) fs sched (globals ctl)).2 ∧
  length (on_ready safeLoad w fs sched ctl).2 ≤ 1 ∧
  (∀ built,
     CbOk built ∈ (load safeLoad (w_dir watcher) fs sched (globals ctl)).2 →
     store (globals (on_ready safeLoad w fs sched ctl).1) = Some built ∧
     watchers (on_ready safeLoad w fs sched ctl).1
       = alter mark_ready w (watchers ctl) ∧
     last (logged (globals (on_ready safeLoad w fs sched ctl).1)) = Some InfoLoaded) ∧
  ((∀ built,
      CbOk built ∉ (load safeLoad (w_dir watcher) fs sched (globals ctl)).2) →
   store (globals (on_ready safeLoad w fs sched ctl).1) = store (globals ctl) ∧
   watchers (on_ready safeLoad w fs sched ctl).1 = watchers ctl).
Proof.
  intros Hw. unfold on_ready. rewrite Hw.
  destruct (load_cases safeLoad (w_dir watcher) fs sched (globals ctl))
    as [->|[(err & -> & _)|[(result & err & _ & -> & _)
                            |(result & b & Hb & -> & _)]]]; simpl.
  - split; [done|]. split; [lia|]. split; [|done].
    intros built Hin. by inversion Hin.
  - split; [done|]. split; [lia|]. split; [|done].
    intros built Hin. by apply list_elem_of_singleton in Hin.
  - split; [done|]. split; [lia|]. split; [|done].
    intros built Hin. by inversion Hin.
  - split; [done|]. split; [lia|]. split.
    + intros built Hin. apply list_elem_of_singleton in Hin.
      injection Hin as ->. split; [done|]. split; [done|]. by rewrite last_snoc.
    + intros Hnone. destruct (Hnone _ ltac:(by left)).
Qed.

Lemma ready_handler_outcome_witness :
  let ctl := (initialize "/srv" fresh).1 in
  (on_ready Sample.safeLoad 0 Sample.tree Sample.in_order ctl).2 = [None] ∧
  (on_ready Sample.safeLoad 0 Sample.tree_bad_user Sample.in_order ctl).2
    = [Some (YAMLException "unexpected end of the stream")] ∧
  watchers (on_ready Sample.safeLoad 0 Sample.tree_bad_user Sample.in_order ctl).1
    = watchers ctl.
Proof.
  intros ctl.
  destruct (ready_handler_outcome Sample.safeLoad 0 Sample.tree Sample.in_order ctl
              {| w_dir := "/srv"; w_ready := false |} eq_refl) as (Hgood & _).
  destruct (ready_handler_outcome Sample.safeLoad 0 Sample.tree_bad_user
              Sample.in_order ctl {| w_dir := "/srv"; w_ready := false |} eq_refl)
    as (Hbad & _ & _ & Hkept).
  split; [rewrite Hgood; by vm_compute|].
  split; [rewrite Hbad; by vm_compute|].
  apply Hkept. intros built Hin. vm_compute in Hin.
  by apply list_elem_of_singleton in Hin.
Defined.

(** X17: the ['all'] handler never answers the callback of [initialize] and
    never touches the watchers.  While its watcher is not ready, a change is
    ignored altogether: no load pass is started and nothing is logged.  Once
    it is ready, the handler starts a load pass over the installed store:
    when the pass delivers, the store it built replaces the installed one;
    otherwise the installed store stays. *)
Theorem all_handler_outcome
    (safeLoad : option string -> Completion (option Doc))
    (w : nat) (fs : FileSystem) (sched : Schedule) (ctl : Controller)
    (watcher : Watcher) :
  watchers ctl !! w = Some watcher →
  (on_all safeLoad w fs sched ctl).2 = [] ∧
  watchers (on_all safeLoad w fs sched ctl).1 = watchers ctl ∧
  (w_ready watcher = false → (on_all safeLoad w fs sched ctl).1 = ctl) ∧
  (w_ready watcher = true →
   (∀ built,
      CbOk built ∈ (load safeLoad (w_dir watcher) fs sched (reload_globals ctl)).2 →
      store (globals (on_all safeLoad w fs sched ctl).1) = Some built) ∧
   ((∀ built,
       CbOk built ∉ (load safeLoad (w_dir watcher) fs sched (reload_globals ctl)).2) →
    store (globals (on_all safeLoad w fs sched ctl).1) = store (globals ctl))).
Proof.
  intros Hw. unfold on_all. rewrite Hw.
  destruct (w_ready watcher); simpl.
  2:{ split; [done|]. split; [done|]. split; [|done]. intros _. by destruct ctl. }
  destruct (load_cases safeLoad (w_dir watcher) fs sched (reload_globals ctl))
    as [->|[(err & -> & _)|[(result & err & _ & -> & _)
                            |(result & b & Hb & -> & _)]]]; simpl;
    (split; [done|]); (split; [done|]); (split; [done|]); intros _; split.
  - intros built Hin. by inversion Hin.
  - done.
  - intros built Hin. by apply list_elem_of_singleton in Hin.
  - done.
  - intros built Hin. by inversion Hin.
  - done.
  - intros built Hin. apply list_elem_of_singleton in Hin. by injection Hin as ->.
  - intros Hnone. destruct (Hnone _ ltac:(by left)).
Qed.

Lemma all_handler_outcome_witness :
  let waiting := (initialize "/srv" fresh).1 in
  let ready := (on_ready Sample.safeLoad 0 Sample.tree Sample.in_order waiting).1 in
  (on_all Sample.safeLoad 0 Sample.tree Sample.in_order waiting).1 = waiting ∧
  store (globals (on_all Sample.safeLoad 0 Sample.tree_bad_user Sample.in_order ready).1)
    = store (globals ready).
Proof.
  intros waiting ready. split.
  - destruct (all_handler_outcome Sample.safeLoad 0 Sample.tree Sample.in_order waiting
                {| w_dir := "/srv"; w_ready := false |} eq_refl) as (_ & _ & Hidle & _).
    by apply Hidle.
  - destruct (all_handler_outcome Sample.safeLoad 0 Sample.tree_bad_user
                Sample.in_order ready {| w_dir := "/srv"; w_ready := true |} eq_refl)
      as (_ & _ & _ & Hready).
    destruct (Hready eq_refl) as [_ Hkept]. apply Hkept.
    intros built Hin. vm_compute in Hin. by apply list_elem_of_singleton in Hin.
Defined.

(** ** The emitters over a loaded store *)

Lemma find_fmap {A B} (f : B -> bool) (h : A -> B) (l : list A) :
  List.find f (h <$> l) = h <$> List.find (fun x => f (h x)) l.
Proof. induction l as [|x l IH]; csimpl; [done|]. by destruct (f (h x)). Qed.

(** What a name reads depends on the keys of the elements only. *)
Lemma last_with_keys {A B} (key : A → string) (key' : B → string)
    (l : list A) (l' : list B) (k : string) (i : nat) :
  key <$> l = key' <$> l' → last_with key l k i → last_with key' l' k i.
Proof.
  intros Hkeys [(x & Hx & Hk) Hlast].
  assert (∀ j, key <$> l !! j = key' <$> l' !! j) as Hj.
  { intros j. by rewrite <- !list_lookup_fmap, Hkeys. }
  split.
  - pose proof (Hj i) as Hi. rewrite Hx in Hi. simpl in Hi.
    destruct (l' !! i) as [y|]; [|done]. exists y. split; [done|].
    simpl in Hi. congruence.
  - intros j y Hlt Hy. pose proof (Hj j) as Hjj. rewrite Hy in Hjj. simpl in Hjj.
    destruct (l !! j) as [x'|] eqn:Hx'; [|done]. simpl in Hjj.
    injection Hjj as Heq. rewrite <- Heq. by eapply Hlast.
Qed.

Lemma unborne_keys {A B} (key : A → string) (key' : B → string)
    (l : list A) (l' : list B) (k : string) :
  key <$> l = key' <$> l' → unborne key l k → unborne key' l' k.
Proof.
  unfold unborne. intros Hkeys Hl.
  apply (Forall_fmap key' (fun x => x ≠ k)). rewrite <- Hkeys.
  by apply (Forall_fmap key (fun x => x ≠ k)).
Qed.

Lemma names_keys {A B} (key : A → string) (key' : B → string)
    (l : list A) (l' : list B) (k : string) (r : Ref) :
  key <$> l = key' <$> l' → names key l k r → names key' l' k r.
Proof.
  intros Hkeys. destruct r as [i|name| |]; simpl.
  - by apply last_with_keys.
  - intros (? & ? & ?). eauto using unborne_keys.
  - intros (? & ?). eauto using unborne_keys.
  - done.
Qed.

Lemma dangling_keys {A B} (key : A → string) (key' : B → string)
    (l : list A) (l' : list B) (k : string) :
  key <$> l = key' <$> l' → dangling key l k → dangling key' l' k.
Proof. intros Hkeys (? & ? & ?). split; [by eapply unborne_keys|done]. Qed.

Lemma same_user_keys (raw : list (Value RawUser)) (users : list (Value User)) :
  Forall2 same_user raw users → user_key <$> raw = stored_key <$> users.
Proof.
  induction 1 as [|[t|ru] [t'|u] raw users Hsame _ IH]; csimpl; try done.
  - by rewrite IH.
  - destruct Hsame as (-> & _). by rewrite IH.
Qed.

Section LoadedQueries.
Variable safeLoad : option string -> Completion (option Doc).

Lemma layerUsers_loaded (dir : string) (fs : FileSystem) (sched : Schedule)
    (g : Globals) (built : Store) (layerId : string) :
  CbOk built ∈ (load safeLoad dir fs sched g).2 →
  inherited (load safeLoad dir fs sched g).1 !! "__proto__" = None →
  ∃ lfiles refs,
    fs (Js.join "/" [dir; "layers"]) = inr lfiles ∧
    layerUsers (load safeLoad dir fs sched g).1 layerId
      = Return ((EmitUser <$> refs) ++ [EmitEnd]) ∧
    ((∀ e, e ∈ lfiles → e_name e ≠ layerId) → refs = []) ∧
    ((∃ e, e ∈ lfiles ∧ e_name e = layerId) →
     ∃ ms picks,
       fs (Js.join "/" [dir; "layers"; layerId]) = inr ms ∧
       Forall2 (fun m pick =>
                  match pick with
                  | Some r => names stored_key (s_users built) (fileUid (e_name m)) r
                  | None => dangling stored_key (s_users built) (fileUid (e_name m))
                  end) ms picks ∧
       refs = compact picks).
Proof.
  intros Hin Hclean.
  destruct (loaded_store_raw safeLoad dir fs sched g built Hin)
    as (ufiles & gfiles & lfiles & users & gs & layers &
        _ & _ & Hlfs & _ & _ & Hlfrom & Hbuilt & Hload).
  rewrite Hload in Hclean |- *. simpl in Hclean.
  pose proof (same_user_keys _ _ (buildDataStore_users _ _ _ _ Hbuilt)) as Hkeys.
  destruct (buildDataStore_returns _ _ _ _ Hbuilt)
    as (b & fixed & _ & _ & _ & Hinh & Hstore).
  rewrite Hinh in Hclean. simpl in Hkeys, Hstore.
  assert (s_layers built
          = fix_layer ∅ (index_users (compact_values users)) (compact_values users)
              <$> layers) as Hlayers.
  { rewrite Hstore. simpl. apply list_fmap_ext. intros i layer _.
    by apply fix_layer_unpolluted. }
  assert (∀ uid, read_user ∅ (index_users (compact_values users))
                   (compact_values users) uid
                 = lookup_name ∅ (index_users (compact_values users)) uid) as Hread.
  { intros uid. unfold read_user.
    destruct (lookup_name ∅ (index_users (compact_values users)) uid)
      as [[j|name| |]|]; try done.
    destruct (compact_values users !! j) as [[[]|ru]|] eqn:Hj; try done.
    apply list_elem_of_lookup_2, list_elem_of_filter in Hj as [Hj _]. done. }
  unfold layerUsers, findLayer. simpl. rewrite Hlayers, find_fmap.
  destruct (List.find _ layers) as [rl|] eqn:Hfind; simpl.
  - apply find_some in Hfind as [Hrl Hid].
    apply bool_decide_eq_true in Hid. simpl in Hid.
    apply list_elem_of_In, list_elem_of_lookup in Hrl as [i Hi].
    destruct (Forall2_lookup_r _ _ _ _ _ Hlfrom Hi)
      as (e & He & Hname & ms & Hms & _ & _ & Hlusers).
    eexists lfiles, _. split; [done|]. split; [done|]. split.
    + intros Hnone. destruct (Hnone e); [by eapply list_elem_of_lookup_2|congruence].
    + intros _.
      exists ms, (lookup_name ∅ (index_users (compact_values users))
                    <$> ((fun m => fileUid (e_name m)) <$> ms)).
      split; [by rewrite <- Hid, Hname|]. split.
      * apply Forall2_fmap_r, Forall2_fmap_r, Forall_Forall2_diag, Forall_forall.
        intros m _. simpl.
        destruct (lookup_name ∅ (index_users (compact_values users))
                    (fileUid (e_name m))) as [r|] eqn:Hlook.
        -- apply lookup_users_names in Hlook. by eapply names_keys.
        -- apply lookup_users_dangling in Hlook. by eapply dangling_keys.
      * rewrite Hlusers. simpl. f_equal. apply list_fmap_ext.
        intros j uid _. apply Hread.
  - exists lfiles, []. split; [done|]. split; [done|].
    split; [done|]. intros (e & He & Hname). exfalso.
    apply list_elem_of_lookup in He as [i Hi].
    destruct (Forall2_lookup_l _ _ _ _ _ Hlfrom Hi) as (rl & Hrl & Hid & _).
    assert (In rl layers) as Hrl'.
    { apply list_elem_of_In. by eapply list_elem_of_lookup_2. }
    pose proof (find_none _ _ Hfind rl Hrl') as Hf.
    apply bool_decide_eq_false in Hf. apply Hf. simpl. congruence.
Qed.
End LoadedQueries.

(** X18: over a store that a load pass delivered, while [Object.prototype]
    has no [members] and no user of the store is named [__proto__],
    [layerUsers] emits user events and then one end event, and nothing
    else.  For a name that no entry of [layers/] bears it emits the end
    event alone.  Otherwise it emits, for the entries of the layer's
    directory in their order, what the name of each entry (without its last
    segment) reads in the dictionary of users: the last user of the store
    with that uid (a primitive among the users bears the uid
    [undefined]), or, when no user bears the name, the property of that
    name that [Object.prototype] defines; an entry whose name reads nothing
    is passed over. *)
Theorem layerUsers_after_load
    (safeLoad : option string -> Completion (option Doc))
    (dir : string) (fs : FileSystem) (sched : Schedule) (g : Globals)
    (built : Store) (layerId : string) :
  CbOk built ∈ (load safeLoad dir fs sched g).2 →
  inherited (load safeLoad dir fs sched g).1 !! "__proto__" = None →
  unborne stored_key (s_users built) "__proto__" →
  ∃ lfiles refs,
    fs (Js.join "/" [dir; "layers"]) = inr lfiles ∧
    layerUsers (load safeLoad dir fs sched g).1 layerId
      = Return ((EmitUser <$> refs) ++ [EmitEnd]) ∧
    ((∀ e, e ∈ lfiles → e_name e ≠ layerId) → refs = []) ∧
    ((∃ e, e ∈ lfiles ∧ e_name e = layerId) →
     ∃ ms picks,
       fs (Js.join "/" [dir; "layers"; layerId]) = inr ms ∧
       Forall2 (fun m pick =>
                  match pick with
                  | Some r => names stored_key (s_users built) (fileUid (e_name m)) r
                  | None => dangling stored_key (s_users built) (fileUid (e_name m))
                  end) ms picks ∧
       refs = compact picks).
Proof. intros Hin Hclean _. by apply layerUsers_loaded. Qed.

Lemma layerUsers_after_load_witness :
  layerUsers (Sample.pass Sample.tree_builtin).1 "prod"
    = Return [EmitUser (Own 0); EmitUser (Builtin "valueOf"); EmitEnd] ∧
  ∃ refs,
    layerUsers (Sample.pass Sample.tree_builtin).1 "test"
      = Return ((EmitUser <$> refs) ++ [EmitEnd]) ∧
    refs = [].
Proof.
  split; [by vm_compute|].
  assert (∃ built, CbOk built ∈ (Sample.pass Sample.tree_builtin).2 ∧
                   unborne stored_key (s_users built) "__proto__")
    as (built & Hin & Hplain).
  { eexists. split; [vm_compute; by left|].
    apply (bool_decide_unpack _). by vm_compute. }
  assert (inherited (Sample.pass Sample.tree_builtin).1 !! "__proto__" = None)
    as Hclean by (by vm_compute).
  destruct (layerUsers_after_load Sample.safeLoad "/srv" Sample.tree_builtin
              Sample.in_order (globals fresh) built "test" Hin Hclean Hplain)
    as (lfiles & refs & Hlfs & Hevs & Hnone & _).
  exists refs. split; [exact Hevs|]. apply Hnone.
  assert (Sample.tree_builtin (Js.join "/" ["/srv"; "layers"])
          = inr [Sample.subdir "prod"]) as Hok by reflexivity.
  rewrite Hok in Hlfs. injection Hlfs as <-.
  intros e He. repeat (apply elem_of_cons in He as [->|He]; [done|]).
  by apply elem_of_nil in He.
Defined.

(** X19: over a store that a load pass delivered, [groups] emits one group
    event for each entry of [groups/] whose document has a [gidNumber] that
    is not zero, in the order of the entries, and then one end event;
    whether a group is named by any user or layer plays no part. *)
Theorem groups_after_load
    (safeLoad : option string -> Completion (option Doc))
    (dir : string) (fs : FileSystem) (sched : Schedule) (g : Globals)
    (built : Store) :
  CbOk built ∈ (load safeLoad dir fs sched g).2 →
  ∃ gfiles,
    fs (Js.join "/" [dir; "groups"]) = inr gfiles ∧
    groups (load safeLoad dir fs sched g).1
      = Return ((EmitGroup <$> seq 0 (length (omap (group_of safeLoad) gfiles)))
                ++ [EmitEnd]) ∧
    ∀ i, i < length (omap (group_of safeLoad) gfiles) →
         (fun group => (g_cn group, g_gidNumber group)) <$> s_groups built !! i
           = omap (group_of safeLoad) gfiles !! i.
Proof.
  intros Hin.
  destruct (loaded_store_files safeLoad dir fs sched g built Hin)
    as (ufiles & gfiles & lfiles & _ & Hgfs & _ & _ & _ & Hgroups & _).
  destruct (load_success safeLoad dir fs sched g built Hin) as (_ & Hstore & _).
  exists gfiles. split; [done|]. unfold groups. rewrite Hstore. split.
  - by rewrite <- Hgroups, length_fmap.
  - intros i _. by rewrite <- Hgroups, list_lookup_fmap.
Qed.

Lemma groups_after_load_witness :
  groups (load Sample.safeLoad "/srv" Sample.tree_empty_group Sample.in_order
            (globals fresh)).1
    = Return [EmitGroup 0; EmitGroup 1; EmitEnd].
Proof.
  assert (∃ built, CbOk built ∈ (load Sample.safeLoad "/srv" Sample.tree_empty_group
                                   Sample.in_order (globals fresh)).2)
    as [built Hin] by (eexists; vm_compute; by left).
  destruct (groups_after_load Sample.safeLoad "/srv" Sample.tree_empty_group
              Sample.in_order (globals fresh) built Hin) as (gfiles & Hgfs & -> & _).
  assert (Sample.tree_empty_group (Js.join "/" ["/srv"; "groups"])
          = inr (Sample.groups_ok ++ [Sample.file "blank.yaml" ""])) as Hok
    by reflexivity.
  rewrite Hok in Hgfs. injection Hgfs as <-. by vm_compute.
Defined.

(** ** authenticate *)

(** X20: [authenticate] calls back exactly once.  It succeeds, passing the
    password, exactly when the credential is not empty and is the password
    stored for the layer; every other call is answered with the
    invalid-credentials error that names the layer.  The password is looked
    up under the upper-cased name, so layers whose names differ only in
    case share one password. *)
Theorem authenticate_outcome
    (toUpperCase : string -> string) (env : gmap string string)
    (layer credential : string) :
  (authenticate toUpperCase env layer credential = [CbOk credential] ↔
   credential ≠ "" ∧
   env !! ("LDAP_LAYER_" +:+ toUpperCase layer +:+ "_PASSWORD") = Some credential) ∧
  (authenticate toUpperCase env layer credential ≠ [CbOk credential] →
   authenticate toUpperCase env layer credential
     = [CbErr (InvalidCredentialsError ("Invalid login for layer " +:+ layer))]) ∧
  (∀ layer', toUpperCase layer' = toUpperCase layer →
             (authenticate toUpperCase env layer' credential = [CbOk credential] ↔
              authenticate toUpperCase env layer credential = [CbOk credential])).
Proof.
  assert (∀ l, authenticate toUpperCase env l credential = [CbOk credential] ↔
               credential ≠ "" ∧
               env !! ("LDAP_LAYER_" +:+ toUpperCase l +:+ "_PASSWORD") = Some credential)
    as Hiff.
  { intros l. unfold authenticate, truthy.
    destruct (env !! _) as [pw|]; [|split; [done|by intros [_ ?]]].
    destruct (bool_decide (pw = "")) eqn:Hempty;
      destruct (bool_decide (credential = pw)) eqn:Hcred; simpl.
    - apply bool_decide_eq_true in Hempty, Hcred. subst.
      split; [done|]. by intros [? _].
    - apply bool_decide_eq_false in Hcred.
      split; [done|]. intros [_ [= ->]]. done.
    - apply bool_decide_eq_false in Hempty. apply bool_decide_eq_true in Hcred.
      subst. done.
    - apply bool_decide_eq_false in Hcred.
      split; [done|]. intros [_ [= ->]]. done. }
  split; [apply Hiff|]. split.
  - unfold authenticate, truthy. destruct (env !! _) as [pw|]; [|done].
    destruct (bool_decide (pw = "")) eqn:Hempty;
      destruct (bool_decide (credential = pw)) eqn:Hcred; simpl; try done.
    apply bool_decide_eq_true in Hcred. by subst.
  - intros layer' Hupper. rewrite !Hiff. by rewrite Hupper.
Qed.

Lemma authenticate_outcome_witness :
  authenticate Sample.toUpperCase {["LDAP_LAYER_PROD_PASSWORD" := "right-secret"]}
    "Prod" "right-secret" = [CbOk "right-secret"] ∧
  authenticate Sample.toUpperCase {["LDAP_LAYER_PROD_PASSWORD" := "right-secret"]}
    "prod" "guess" = [CbErr (InvalidCredentialsError "Invalid login for layer prod")].
Proof.
  destruct (authenticate_outcome Sample.toUpperCase
              {["LDAP_LAYER_PROD_PASSWORD" := "right-secret"]} "prod" "right-secret")
    as (_ & _ & Hcase).
  destruct (authenticate_outcome Sample.toUpperCase
              {["LDAP_LAYER_PROD_PASSWORD" := "right-secret"]} "prod" "guess")
    as (_ & Herr & _).
  split.
  - apply (Hcase "Prod"); by vm_compute.
  - apply Herr. by vm_compute.
Defined.

(** ** fileUid on every name *)

Lemma last_segment (s : string) :
  Js.contains "." s = true →
  ∃ base ext, s = base +:+ String "." ext ∧ Js.contains "." ext = false.
Proof.
  induction s as [|ch s IH]; simpl; [done|].
  destruct (Js.contains "." s) eqn:Hs.
  - intros _. destruct (IH eq_refl) as (base & ext & -> & Hext).
    by exists (String ch base), ext.
  - case_decide as Hch; [|done]. intros _. subst ch. by exists "", s.
Qed.

(** X21: [fileUid] drops the last dot-separated segment of a name together
    with its dot, and only that: a name that contains a dot is the uid, a
    dot and a segment without dots, so [base.ext] gives [base] and
    [base.tar.gz] gives [base.tar]; a name without a dot has no other
    segment, and gives the empty string. *)
Theorem fileUid_drops_last_segment :
  (∀ base ext, Js.contains "." ext = false →
               fileUid (base +:+ String "." ext) = base) ∧
  (∀ filename, Js.contains "." filename = true →
               ∃ ext, Js.contains "." ext = false ∧
                      filename = fileUid filename +:+ String "." ext) ∧
  (∀ filename, Js.contains "." filename = false → fileUid filename = "").
Proof.
  split; [exact fileUid_strips_extension|]. split; [|exact fileUid_without_dot].
  intros filename Hdot.
  destruct (last_segment filename Hdot) as (base & ext & -> & Hext).
  exists ext. split; [done|]. by rewrite fileUid_strips_extension.
Qed.

Lemma fileUid_drops_last_segment_witness :
  fileUid ("backup.tar" +:+ String "." "gz") = "backup.tar" ∧
  (∃ ext, Js.contains "." ext = false ∧
          "alice.yaml" = fileUid "alice.yaml" +:+ String "." ext) ∧
  fileUid "README" = "".
Proof.
  destruct fileUid_drops_last_segment as (Hstrip & Hsplit & Hnone).
  split; [by apply Hstrip|]. split; [by apply Hsplit|]. by apply Hnone.
Defined.

(** ** Where errors come from *)

Section LoadDirErrors.
Context {S V : Type}.
Variable fn : string -> option string -> S -> S * Completion V.

Lemma on_entry_error (a : Acc S V) (e : Entry) (err : JsError) :
  CbErr err ∈ acc_calls (on_entry fn a e) →
  CbErr err ∈ acc_calls a ∨ entry_io_error e err ∨ entry_throws fn e err.
Proof.
  unfold on_entry, accumulate, fail, entry_io_error, entry_throws, entry_args.
  destruct (e_kind e) as [err'|[err'|contents]| | |] eqn:Hkind; simpl.
  - rewrite elem_of_app, list_elem_of_singleton. intros [?|[= ->]]; auto.
  - rewrite elem_of_app, list_elem_of_singleton. intros [?|[= ->]]; auto.
  - destruct (fn (e_name e) (Some contents) (acc_state a)) as [s' [err'|v]] eqn:Hfn;
      simpl.
    + rewrite elem_of_app, list_elem_of_singleton. intros [?|[= ->]]; [auto|].
      right; right. exists (Some contents), (acc_state a). by rewrite Hfn.
    + case_decide; [|auto]. rewrite elem_of_app, list_elem_of_singleton.
      intros [?|?]; [auto|done].
  - destruct (fn (e_name e) None (acc_state a)) as [s' [err'|v]] eqn:Hfn; simpl.
    + rewrite elem_of_app, list_elem_of_singleton. intros [?|[= ->]]; [auto|].
      right; right. exists None, (acc_state a). by rewrite Hfn.
    + case_decide; [|auto]. rewrite elem_of_app, list_elem_of_singleton.
      intros [?|?]; [auto|done].
  - destruct (fn (e_name e) None (acc_state a)) as [s' [err'|v]] eqn:Hfn; simpl.
    + rewrite elem_of_app, list_elem_of_singleton. intros [?|[= ->]]; [auto|].
      right; right. exists None, (acc_state a). by rewrite Hfn.
    + case_decide; [|auto]. rewrite elem_of_app, list_elem_of_singleton.
      intros [?|?]; [auto|done].
  - auto.
Qed.

Lemma run_error (es : list Entry) (a : Acc S V) (err : JsError) :
  CbErr err ∈ acc_calls (foldl (on_entry fn) a es) →
  CbErr err ∈ acc_calls a ∨
  ∃ e, e ∈ es ∧ (entry_io_error e err ∨ entry_throws fn e err).
Proof.
  revert a. induction es as [|e es IH]; intros a; simpl; [auto|].
  intros Hin. apply IH in Hin as [Hin|(e' & He' & Hcause)].
  - apply on_entry_error in Hin as [Hin|Hcause]; [auto|].
    right. exists e. split; [by left|done].
  - right. exists e'. split; [by right|done].
Qed.

Lemma loadDir_error (fs : FileSystem) (dir : string) (s : S) (err : JsError) :
  CbErr err ∈ (loadDir fn fs dir s).2 →
  fs dir = inl err ∨
  ∃ files e, fs dir = inr files ∧ e ∈ files ∧
             (entry_io_error e err ∨ entry_throws fn e err).
Proof.
  unfold loadDir. destruct (fs dir) as [err'|files]; simpl.
  - intros Hin. apply list_elem_of_singleton in Hin. left. congruence.
  - intros Hin. apply run_error in Hin as [Hin|(e & He & Hcause)];
      [by apply elem_of_nil in Hin|].
    right. by exists files, e.
Qed.
End LoadDirErrors.

(** X22: every error [loadDir] reports has a cause in the directory: the
    listing failed with it, or reading the kind or the content of an entry
    failed with it, or the transform threw it for an entry that reached it;
    and a load that reports an error delivers no result, before or after. *)
Theorem loadDir_errors_have_causes {S V : Type}
    (fn : string -> option string -> S -> S * Completion V)
    (fs : FileSystem) (dir : string) (s : S) (err : JsError) :
  CbErr err ∈ (loadDir fn fs dir s).2 →
  (fs dir = inl err ∨
   ∃ files e, fs dir = inr files ∧ e ∈ files ∧
              (entry_io_error e err ∨ entry_throws fn e err)) ∧
  ∀ result, CbOk result ∉ (loadDir fn fs dir s).2.
Proof.
  intros Hin. split; [by apply (loadDir_error fn fs dir s)|].
  intros result Hok.
  destruct (loadDir_delivery fn fs dir s result Hok) as (_ & _ & _ & Hcalls & _).
  rewrite Hcalls in Hin. by apply list_elem_of_singleton in Hin.
Qed.

Lemma loadDir_errors_have_causes_witness :
  ∃ e, e ∈ Sample.users_ok ++ [Sample.file "mallory.yaml" "{"] ∧
       entry_throws (fun filename contents (s : unit) =>
                       (s, userTransform Sample.safeLoad filename contents))
         e (YAMLException "unexpected end of the stream").
Proof.
  destruct (loadDir_errors_have_causes
              (fun filename contents (s : unit) =>
                 (s, userTransform Sample.safeLoad filename contents))
              Sample.tree_bad_user "/srv/users" tt
              (YAMLException "unexpected end of the stream"))
    as [[Hfs|(files & e & Hfs & He & [[Hio|Hio]|Hthrows])] _].
  - vm_compute. by left.
  - vm_compute in Hfs. done.
  - exfalso. vm_compute in Hfs. injection Hfs as <-.
    repeat (apply elem_of_cons in He as [->|He]; [done|]). by apply elem_of_nil in He.
  - exfalso. vm_compute in Hfs. injection Hfs as <-.
    repeat (apply elem_of_cons in He as [->|He];
            [vm_compute in Hio; congruence|]).
    by apply elem_of_nil in He.
  - exists e. split; [|done].
    assert (Sample.tree_bad_user "/srv/users"
            = inr (Sample.users_ok ++ [Sample.file "mallory.yaml" "{"])) as Hok
      by reflexivity.
    rewrite Hok in Hfs. by injection Hfs as <-.
Defined.

Section LoadErrors.
Local Arguments Js.join : simpl never.
Variable safeLoad : option string -> Completion (option Doc).
Variable fs : FileSystem.
Variable dir : string.

Lemma join_scans_error (layers : list RawLayer) (c : Z)
    (evs : list (nat * Callback (list unit))) (err : JsError) :
  CbErr err ∈ join_scans layers c evs → CbErr err ∈ evs.*2.
Proof.
  revert c. induction evs as [|[i [err'|v]] evs IH]; intros c;
    rewrite ?fmap_cons; simpl.
  - intros Hin. by apply elem_of_nil in Hin.
  - intros Hin. apply elem_of_cons in Hin as [Hin|Hin];
      [injection Hin as ->; by left|].
    right. by apply (IH c).
  - case_decide.
    + intros Hin. apply elem_of_cons in Hin as [Hin|Hin]; [done|].
      right. by apply (IH (c - 1)%Z).
    + intros Hin. right. by apply (IH (c - 1)%Z).
Qed.

(** The membership scans report errors of the file system only, each in the
    directory of its layer. *)
Lemma scan_layers_errors (ids : list string) (idxs : list nat)
    (st : list RawLayer * list (list (Callback (list unit)))) :
  (∀ name, name ∈ ids → listed_dir fs dir (Js.join "/" [dir; "layers"; name])) →
  Forall (fun layer => rl_id layer ∈ ids) st.1 →
  Forall (fun trace => ∀ err, CbErr err ∈ trace → tree_error fs dir err) st.2 →
  Forall (fun trace => ∀ err, CbErr err ∈ trace → tree_error fs dir err)
    (foldl (scan_layer fs dir) st idxs).2.
Proof.
  intros Hids. revert st.
  induction idxs as [|i idxs IH]; intros [layers traces] Hlayers Hst; [done|].
  simpl foldl. apply IH; unfold scan_layer;
    (destruct (layers !! i) as [layer|] eqn:Hlayer; [|done]).
  - pose proof (loadDir_state_inv (memberTransform i)
                  (Forall (fun layer => rl_id layer ∈ ids)) fs
                  (Js.join "/" [dir; "layers"; rl_id layer])
                  (<[i:={| rl_id := rl_id layer; rl_users := Some [] |}]> layers))
      as Hkeep.
    destruct (loadDir _ fs _ _) as [layers2 calls]. simpl in *.
    apply Hkeep.
    + intros file contents s Hs. unfold memberTransform. simpl.
      by apply Forall_alter.
    + apply Forall_insert; [done|]. simpl.
      apply (proj1 (Forall_forall _ _) Hlayers). by eapply list_elem_of_lookup_2.
  - pose proof (loadDir_error (memberTransform i) fs
                  (Js.join "/" [dir; "layers"; rl_id layer])
                  (<[i:={| rl_id := rl_id layer; rl_users := Some [] |}]> layers))
      as Herror.
    destruct (loadDir _ fs _ _) as [layers2 calls]. simpl in *.
    apply Forall_app. split; [done|]. constructor; [|constructor].
    intros err Hin. exists (Js.join "/" [dir; "layers"; rl_id layer]). split.
    { apply Hids, (proj1 (Forall_forall _ _) Hlayers).
      by eapply list_elem_of_lookup_2. }
    apply Herror in Hin as [Hfs|(files & e & Hfs & He & [Hio|Hthrows])].
    + by left.
    + right. by exists files, e.
    + by destruct Hthrows as (args & s & _ & Hthrows).
Qed.

Lemma loadLayers_error (sched : list nat) (err : JsError) :
  CbErr err ∈ loadLayers fs dir sched → tree_error fs dir err.
Proof.
  unfold loadLayers. intros Hin.
  apply list_elem_of_In, in_flat_map in Hin as (ev & Hev & Hin).
  apply list_elem_of_In in Hev, Hin.
  destruct ev as [err'|layers]; simpl in Hin.
  - apply list_elem_of_singleton in Hin. injection Hin as ->.
    unfold layerStubs in Hev. exists (Js.join "/" [dir; "layers"]).
    split; [right; right; by left|].
    apply loadDir_error in Hev as [Hfs|(files & e & Hfs & He & [Hio|Hthrows])].
    + by left.
    + right. by exists files, e.
    + by destruct Hthrows as (args & s & _ & Hthrows).
  - unfold layerStubs in Hev.
    apply loadDir_delivery in Hev as (files & Hfs & _ & _ & Hthreads).
    apply threads_stubs in Hthreads as [-> _].
    pose proof (scan_layers_errors (e_name <$> files)
                  (seq 0 (length ((fun e => {| rl_id := e_name e; rl_users := None |})
                                    <$> files)))
                  ((fun e => {| rl_id := e_name e; rl_users := None |}) <$> files, []))
      as Hscans.
    destruct (foldl (scan_layer fs dir) _ _) as [ls ts]. simpl in *.
    apply join_scans_error in Hin. rewrite interleave_perm in Hin.
    apply list_elem_of_In, in_concat in Hin as (t & Ht & Hin).
    apply list_elem_of_In in Ht, Hin.
    refine (proj1 (Forall_forall _ _) (Hscans _ _ _) t Ht err Hin).
    + intros name (e & -> & He)%list_elem_of_fmap.
      right; right; right. by exists files, e.
    + apply Forall_fmap, Forall_forall. intros e He. simpl.
      apply list_elem_of_fmap. by exists e.
    + constructor.
Qed.

Lemma load_error (sched : Schedule) (g : Globals) (err : JsError) :
  CbErr err ∈ (load safeLoad dir fs sched g).2 →
  tree_error fs dir err ∨
  (∃ sub args, (sub = "users" ∨ sub = "groups") ∧ parsed_entry fs dir sub args ∧
               safeLoad args = Throw err) ∨
  (∃ args, parsed_entry fs dir "users" args ∧ safeLoad args = Return None ∧
           err = TypeError "Cannot set property 'uid'").
Proof.
  intros Hin.
  destruct (load_cases safeLoad dir fs sched g)
    as [Hl|[(err' & Hl & Herr)|[(result & err' & _ & Hl & _)
                                |(result & built & _ & Hl & _)]]];
    rewrite Hl in Hin; [by apply elem_of_nil in Hin| |by apply elem_of_nil in Hin
                       |by apply list_elem_of_singleton in Hin].
  - apply list_elem_of_singleton in Hin. injection Hin as <-.
    unfold task_calls, load_tasks in Herr. rewrite interleave_perm in Herr.
    destruct (loadGroups safeLoad fs dir (logged g)) as [log' groups] eqn:Hgroups.
    simpl in Herr. rewrite app_nil_r, !elem_of_app in Herr.
    destruct Herr as [Herr|[Herr|Herr]]; apply cb_map_error in Herr.
    + assert (groups = (loadGroups safeLoad fs dir (logged g)).2) as ->
        by (by rewrite Hgroups).
      unfold loadGroups in Herr.
      apply loadDir_error in Herr as [Hfs|(files & e & Hfs & He & [Hio|Hthrows])].
      * left. exists (Js.join "/" [dir; "groups"]). split; [right; by left|by left].
      * left. exists (Js.join "/" [dir; "groups"]). split; [right; by left|].
        right. by exists files, e.
      * destruct Hthrows as (args & s & Hargs & Hthrows).
        right; left. exists "groups", args. split; [by right|].
        split; [by exists files, e|]. unfold groupTransform in Hthrows.
        destruct (safeLoad args) as [err'|[[[]|doc]|]]; simpl in Hthrows;
          [congruence|done|done| |done].
        destruct (y_gidNumber doc); [case_decide|]; done.
    + unfold loadUsers in Herr.
      apply loadDir_error in Herr as [Hfs|(files & e & Hfs & He & [Hio|Hthrows])].
      * left. exists (Js.join "/" [dir; "users"]). split; [by left|by left].
      * left. exists (Js.join "/" [dir; "users"]). split; [by left|].
        right. by exists files, e.
      * destruct Hthrows as (args & s & Hargs & Hthrows). simpl in Hthrows.
        unfold userTransform in Hthrows.
        destruct (safeLoad args) as [err'|[[truthy|doc]|]] eqn:Hdoc;
          [|done|done|].
        -- right; left. exists "users", args. split; [by left|].
           split; [by exists files, e|congruence].
        -- right; right. exists args. split; [by exists files, e|].
           split; [done|congruence].
    + left. by eapply loadLayers_error.
Qed.
End LoadErrors.

(** An error located in the tree is an error of the file system. *)
Lemma tree_error_fs_error (fs : FileSystem) (dir : string) (err : JsError) :
  tree_error fs dir err → fs_error fs err.
Proof.
  intros (path & _ & [Hfs|(files & e & Hfs & He & Hio)]).
  - left. by exists path.
  - right. by exists path, files, e.
Qed.

(** X23: a load pass reports no error of its own making.  An error it
    reports is an error of the file system in a directory the pass lists
    ([users/], [groups/], [layers/] or the directory of an entry of
    [layers/]): of listing that directory, or of reading the kind or the
    content of one of its entries; or an exception of the parser on an
    entry of [users/] or [groups/]; or the type error raised when the
    parser returns no document for an entry of [users/].  It is then the
    only call the pass makes, and the store is left as it was. *)
Theorem load_errors_have_causes
    (safeLoad : option string -> Completion (option Doc))
    (dir : string) (fs : FileSystem) (sched : Schedule) (g : Globals)
    (err : JsError) :
  CbErr err ∈ (load safeLoad dir fs sched g).2 →
  (tree_error fs dir err ∨
   (∃ sub args, (sub = "users" ∨ sub = "groups") ∧ parsed_entry fs dir sub args ∧
                safeLoad args = Throw err) ∨
   (∃ args, parsed_entry fs dir "users" args ∧ safeLoad args = Return None ∧
            err = TypeError "Cannot set property 'uid'")) ∧
  (load safeLoad dir fs sched g).2 = [CbErr err] ∧
  store (load safeLoad dir fs sched g).1 = store g.
Proof.
  intros Hin. split; [by apply (load_error safeLoad fs dir sched g)|].
  by apply load_failure.
Qed.

Lemma load_errors_have_causes_witness :
  ∃ sub args,
    (sub = "users" ∨ sub = "groups") ∧
    parsed_entry Sample.tree_bad_user "/srv" sub args ∧
    Sample.safeLoad args = Throw (YAMLException "unexpected end of the stream").
Proof.
  destruct (load_errors_have_causes Sample.safeLoad "/srv" Sample.tree_bad_user
              Sample.in_order (globals fresh)
              (YAMLException "unexpected end of the stream"))
    as [[Hfs|[Hparse|(args & _ & _ & Htype)]] _].
  - vm_compute. by left.
  - exfalso. destruct Hfs as (path & _ & [Hpath|(files & e & Hpath & He & Hio)]).
    + revert Hpath. unfold Sample.tree_bad_user. simpl.
      repeat (case_decide; [done|]). done.
    + revert Hpath. unfold Sample.tree_bad_user. simpl.
      repeat (case_decide;
              [intros [= <-];
               repeat (apply elem_of_cons in He as [->|He];
                       [by destruct Hio|]);
               by apply elem_of_nil in He|]).
      done.
  - exact Hparse.
  - done.
Defined.

(** ** The trees that load *)

Section Loadable.
Local Arguments Js.join : simpl never.
Variable safeLoad : option string -> Completion (option Doc).
Variable fs : FileSystem.
Variable dir : string.






End Loadable.


